(** * Inovesa: the aligned array container and the rotation heritage map

    A shallow embedding of
      - [inc/Array.h]            (the aligned allocator and the classes
                                  array1, array2, Array1, Array2), and
      - [src/HM/RotationMap.cpp] (the map builder and the apply operator),
    together with the properties the design document states about them
    and further properties of the same code.

    Conventions.  [unsigned int] and [int] are 32 bits wide; values are
    integers in [Z] and every arithmetic step of the source is followed by
    the reduction the machine performs ([wrap_uint], [wrap_int]).  The
    numeric types [meshaxis_t], [meshdata_t] and [interpol_t] are typedefs
    declared outside the translated files.  The map builder and the apply
    operator are embedded twice: in [RotationMap] with the arithmetic of
    these types taken exact and modelled in [Q], and in [RotationMapFP]
    with the arithmetic the machine performs, IEEE 754 binary32 or
    binary64 with rounding to nearest after every operation.  A statement
    over [RotationMap] is a statement in exact arithmetic; where rounding
    changes it, a statement over [RotationMapFP] says so. *)

From Stdlib Require Import ZArith QArith List Bool Lia String.
From Stdlib Require Import DecimalString SpecFloat.
Import ListNotations.
Open Scope Z_scope.

(** ** Machine integers *)

Definition UINT_MOD : Z := 2 ^ 32.
Definition INT_MAX : Z := 2 ^ 31 - 1.
Definition INT_MIN : Z := - 2 ^ 31.

(** Value of an integer expression stored into an [unsigned int]. *)
Definition wrap_uint (z : Z) : Z := z mod UINT_MOD.

(** Value of an integer expression stored into an [int]. *)
Definition wrap_int (z : Z) : Z := (z + 2 ^ 31) mod UINT_MOD - 2 ^ 31.

Definition is_int (z : Z) : Prop := INT_MIN <= z <= INT_MAX.

(** ** Arrays in memory: lists written by position *)

Fixpoint upd {A : Type} (n : nat) (x : A) (l : list A) : list A :=
  match l, n with
  | [], _ => []
  | _ :: t, O => x :: t
  | h :: t, S k => h :: upd k x t
  end.

(** One turn of a loop that rewrites the position [pos k] of an array
    from what it holds there. *)
Definition step {K A : Type} (pos : K -> nat) (g : K -> A -> A) (d : A)
           (l : list A) (k : K) : list A :=
  upd (pos k) (g k (nth (pos k) l d)) l.

(** * Array.h *)

Module ArrayH.

(** Text sent to the [ostringstream]: one piece per [<<]. *)
Inductive piece : Type :=
| Str (s : string)
| Num (z : Z).

Definition show_Z (z : Z) : string := NilEmpty.string_of_int (Z.to_int z).

Definition render_piece (p : piece) : string :=
  match p with
  | Str s => s
  | Num z => show_Z z
  end.

Definition render (ps : list piece) : string :=
  fold_right (fun p acc => append (render_piece p) acc) EmptyString ps.

(** How a member function ends. *)
Inductive outcome (A : Type) : Type :=
| Normal (a : A)                 (* the call returns *)
| Thrown (what : list piece)     (* ArrayExit threw its message *)
| Undefined.                     (* a read or write outside the memory block *)

Arguments Normal {A} a.
Arguments Thrown {A} what.
Arguments Undefined {A}.

Definition bind {A B : Type} (c : outcome A) (k : A -> outcome B) : outcome B :=
  match c with
  | Normal a => k a
  | Thrown w => Thrown w
  | Undefined => Undefined
  end.

Notation "x <- c ;; k" := (bind c (fun x => k))
  (at level 61, c at next level, right associativity).

(** [ArrayExit]: builds "ERROR: <x>." and throws it. *)
Definition ArrayExit {A : Type} (x : list piece) : outcome A :=
  Thrown ([Str "ERROR: "] ++ x ++ [Str "."]).

(** [alloc_state] *)
Definition unallocated : Z := 0.
Definition allocated : Z := 1.
Definition temporary : Z := 2.
Definition aligned : Z := 4.

Section Container.

Variable T : Type.

(** [NDEBUG] defined: argument checking is compiled out. *)
Variable NDEBUG : bool.

(** The memory block [v] points to, the element count and the state flags. *)
Record array1 : Type := mk_array1 {
  v : list T;
  _size : Z;
  state : Z
}.

Definition test (A : array1) (flag : Z) : Z := Z.land (state A) flag.

(** [v[i]] on the block. *)
Definition deref (blk : list T) (i : Z) : outcome T :=
  if i <? 0 then Undefined
  else match nth_error blk (Z.to_nat i) with
       | Some x => Normal x
       | None => Undefined
       end.

Definition CheckSize (A : array1) : outcome unit :=
  if (test A allocated =? 0) && (_size A =? 0)
  then ArrayExit [Str "Operation attempted on unallocated array"]
  else Normal tt.

Definition CheckEqual (a b : Z) (dim m : Z) : outcome unit :=
  if negb (a =? b) then
    ArrayExit ([Str "Array"; Num dim; Str " index "]
               ++ (if m =? 0 then [] else [Num m; Str " "])
               ++ [Str "is incompatible in assignment ("; Num a;
                   Str " != "; Num b; Str ")"])
  else Normal tt.

(** [Check(int i, int n, unsigned dim, unsigned m, int o=0)] *)
Definition Check (i n : Z) (dim m : Z) (o : Z) : outcome unit :=
  if (i <? 0) || (i >=? n) then
    ArrayExit ([Str "Array"; Num dim; Str " index "]
               ++ (if m =? 0 then [] else [Num m; Str " "])
               ++ [Str "is out of bounds ("; Num (wrap_int (i + o))]
               ++ (if n =? 0 then [Str " index given to empty array"]
                   else if i <? 0 then [Str " < "; Num o]
                   else [Str " > "; Num (wrap_int (wrap_int (n + o) - 1))])
               ++ [Str ")"])
  else Normal tt.

Definition __check (i n : Z) (dim m : Z) : outcome unit :=
  if NDEBUG then Normal tt else Check i n dim m 0.

Definition __checkSize (A : array1) : outcome unit :=
  if NDEBUG then Normal tt else CheckSize A.

Definition __checkEqual (a b : Z) (dim m : Z) : outcome unit :=
  if NDEBUG then Normal tt else CheckEqual a b dim m.

(** [array1::operator () (int ix)]; the element count is passed as [int]. *)
Definition array1_at (A : array1) (ix : Z) : outcome T :=
  _ <- __check ix (wrap_int (_size A)) 1 1 ;;
  deref (v A) ix.

(** Loop body shared by the compound operators between two arrays:
    [for(unsigned int i=0; i < _size; i++) v[i] op= A(i);]
    The right operand is read through its checked accessor [Aat], whose
    parameter is an [int]; the block of the left operand is written. *)
Fixpoint assign_loop (op : T -> T -> T) (Aat : Z -> outcome T)
         (ixs : list nat) (blk : list T) : list T * outcome unit :=
  match ixs with
  | [] => (blk, Normal tt)
  | i :: rest =>
      match Aat (wrap_int (Z.of_nat i)) with
      | Normal a =>
          match nth_error blk i with
          | Some x => assign_loop op Aat rest (upd i (op x a) blk)
          | None => (blk, Undefined)
          end
      | Thrown w => (blk, Thrown w)
      | Undefined => (blk, Undefined)
      end
  end.

(** Loop body of the compound operators with a scalar of [array1]:
    [for(unsigned int i=0; i < _size; i++) v[i] op= a;] *)
Fixpoint scalar_loop (f : T -> T) (ixs : list nat) (blk : list T)
  : list T * outcome unit :=
  match ixs with
  | [] => (blk, Normal tt)
  | i :: rest =>
      match nth_error blk i with
      | Some x => scalar_loop f rest (upd i (f x) blk)
      | None => (blk, Undefined)
      end
  end.

Definition indices (n : Z) : list nat := seq 0 (Z.to_nat n).

Definition with_block (A : array1) (blk : list T) : array1 :=
  mk_array1 blk (_size A) (state A).

(** [array1<T>& operator op= (const array1<T>& A)] for [+=], [-=], [*=]
    and [/=]: the four bodies differ in the element operation only.  The
    result pairs the left operand as the call leaves it with the way the
    call ends. *)
Definition array1_compound (op : T -> T -> T) (this A : array1)
  : array1 * outcome unit :=
  match __checkSize this with
  | Normal _ =>
      let '(blk, r) := assign_loop op (array1_at A) (indices (_size this)) (v this) in
      (with_block this blk, r)
  | Thrown w => (this, Thrown w)
  | Undefined => (this, Undefined)
  end.

(** [array1<T>& operator += (T a)] and [-= (T a)]. *)
Definition array1_scalar (f : T -> T) (this : array1) : array1 * outcome unit :=
  match __checkSize this with
  | Normal _ =>
      let '(blk, r) := scalar_loop f (indices (_size this)) (v this) in
      (with_block this blk, r)
  | Thrown w => (this, Thrown w)
  | Undefined => (this, Undefined)
  end.

(** [class array2 : public array1<T>] *)
Record array2 : Type := mk_array2 {
  base : array1;
  nx : Z;
  ny : Z
}.

(** [array2::Dimension(nx0, ny0, v0)] *)
Definition array2_Dimension (nx0 ny0 : Z) (v0 : list T) : array2 :=
  mk_array2 (mk_array1 v0 (wrap_uint (nx0 * ny0)) unallocated) nx0 ny0.

(** [T& operator () (int ix, int iy)] *)
Definition array2_at2 (A : array2) (ix iy : Z) : outcome T :=
  _ <- __check ix (wrap_int (nx A)) 2 1 ;;
  _ <- __check iy (wrap_int (ny A)) 2 2 ;;
  deref (v (base A)) (wrap_uint (ix * ny A + iy)).

(** [T& operator () (int i)] *)
Definition array2_at (A : array2) (i : Z) : outcome T :=
  _ <- __check i (wrap_int (_size (base A))) 2 0 ;;
  deref (v (base A)) i.

Definition with_base (A : array2) (b : array1) : array2 :=
  mk_array2 b (nx A) (ny A).

(** [array2<T>& operator op= (const array2<T>& A)] for [+=] and [-=]. *)
Definition array2_compound (op : T -> T -> T) (this A : array2)
  : array2 * outcome unit :=
  match __checkSize (base this) with
  | Normal _ =>
      let '(blk, r) :=
        assign_loop op (array2_at A) (indices (_size (base this))) (v (base this)) in
      (with_base this (with_block (base this) blk), r)
  | Thrown w => (this, Thrown w)
  | Undefined => (this, Undefined)
  end.

(** [for(unsigned int i=0; i < _size; i += inc) v[i] op= a;]
    The counter is an [unsigned int], so [i += inc] wraps; the loop is run
    with fuel and [None] means the fuel ran out. *)
Fixpoint stride_loop (fuel : nat) (f : T -> T) (size inc : Z) (i : Z)
         (blk : list T) : option (list T * outcome unit) :=
  if i <? size then
    match fuel with
    | O => None
    | S fuel' =>
        match nth_error blk (Z.to_nat i) with
        | Some x =>
            stride_loop fuel' f size inc (wrap_uint (i + inc))
                        (upd (Z.to_nat i) (f x) blk)
        | None => Some (blk, Undefined)
        end
    end
  else Some (blk, Normal tt).

(** [array2<T>& operator += (T a)] and [-= (T a)]. *)
Definition array2_scalar (fuel : nat) (f : T -> T) (this : array2)
  : option (array2 * outcome unit) :=
  match __checkSize (base this) with
  | Normal _ =>
      let inc := wrap_uint (ny this + 1) in
      match stride_loop fuel f (_size (base this)) inc 0 (v (base this)) with
      | Some (blk, r) => Some (with_base this (with_block (base this) blk), r)
      | None => None
      end
  | Thrown w => Some (this, Thrown w)
  | Undefined => Some (this, Undefined)
  end.

(** [class Array1 : public array1<T>]: [voff = v - ox]. *)
Record Array1 : Type := mk_Array1 {
  base1 : array1;
  ox1 : Z
}.

(** [Array1::__check(int i, int n, unsigned int o, unsigned int dim, int m)]:
    [i-o] is formed in [unsigned int] and handed to [Check] as an [int]. *)
Definition __check_off (i n : Z) (o : Z) (dim m : Z) : outcome unit :=
  if NDEBUG then Normal tt
  else Check (wrap_int (wrap_uint (i - wrap_uint o))) n dim m (wrap_int (wrap_uint o)).

(** [T& operator [] (int ix)] of [Array1]: [voff[ix]] is [v[ix-ox]]. *)
Definition Array1_at (A : Array1) (ix : Z) : outcome T :=
  _ <- __check_off ix (wrap_int (_size (base1 A))) (ox1 A) 1 1 ;;
  deref (v (base1 A)) (ix - ox1 A).

(** [class Array2 : public array2<T>]: [voff = v - ox*ny - oy]. *)
Record Array2 : Type := mk_Array2 {
  base2 : array2;
  ox2 : Z;
  oy2 : Z
}.

(** [T& operator () (int ix, int iy)] of [Array2]. *)
Definition Array2_at2 (A : Array2) (ix iy : Z) : outcome T :=
  _ <- __check_off ix (wrap_int (nx (base2 A))) (ox2 A) 2 1 ;;
  _ <- __check_off iy (wrap_int (ny (base2 A))) (oy2 A) 2 2 ;;
  deref (v (base (base2 A)))
        (wrap_int (ix * wrap_int (ny (base2 A)) + iy)
         - (wrap_int (ox2 A * wrap_int (ny (base2 A))) + oy2 A)).

End Container.

End ArrayH.

(** * RotationMap.cpp *)

Module RotationMap.

(** [hi]: one entry of a heritage row, source index and weight. *)
Record hi : Type := mk_hi {
  index : Z;
  weight : Q
}.

(** The entry [{0,0}]. *)
Definition hi0 : hi := mk_hi 0 0.

(** A heritage map: one row per target, rows in flattened order. *)
Definition heritage_map : Type := list (list hi).

(** [a < b] on the numeric type. *)
Definition Qltb (a b : Q) : bool := negb (Qle_bool b a).

(** [std::max(a,b)] is [(a < b) ? b : a]; [std::min(a,b)] is [(b < a) ? b : a]. *)
Definition std_max (a b : Q) : Q := if Qltb a b then b else a.
Definition std_min (a b : Q) : Q := if Qltb b a then b else a.

(** Integral part of [std::modf]: rounding towards zero. *)
Definition Qtrunc (x : Q) : Z := Z.quot (Qnum x) (Zpos (Qden x)).

(** [std::modf(x, &ip)]: the pair (fractional part, integral part). *)
Definition modf (x : Q) : Q * Q :=
  let ip := inject_Z (Qtrunc x) in ((x - ip)%Q, ip).

(** [unsigned int id = qq_int;] for an integral value.  Outside
    [0, 2^32) the language leaves the conversion open; it is taken modulo
    2^32 here. *)
Definition to_uint (x : Q) : Z := wrap_uint (Qtrunc x).

Definition Zq (z : Z) : Q := inject_Z z.

Section Builder.

(** Compile-time constants of the build, defined outside the translated
    files. *)
Variable INTERPOL_TYPE : nat.
Variable ROTATION_TYPE : Z.

Variables _xsize _ysize : Z.

(** [cos(angle)] and [-sin(angle)]. *)
Variables cos_dt sin_dt : Q.

(** Lines 46-76: the inverse image [(qcoord, pcoord)] of grid point
    [(q_i, p_i)] in mesh coordinates, in exact arithmetic; the rounded
    computation is [RotationMapFP.coords]. *)
Definition coords (q_i p_i : Z) : Q * Q :=
  if ROTATION_TYPE =? 1 then
    let qp := (cos_dt * (Zq q_i - Zq _xsize / 2)
               - sin_dt * (Zq p_i - Zq _ysize / 2) + Zq _xsize / 2)%Q in
    let pp := (sin_dt * (Zq q_i - Zq _xsize / 2)
               + cos_dt * (Zq p_i - Zq _ysize / 2) + Zq _ysize / 2)%Q in
    (qp, pp)
  else if ROTATION_TYPE =? 2 then
    let qp := (cos_dt * ((Zq q_i - Zq _xsize / 2) / Zq _xsize)
               - sin_dt * ((Zq p_i - Zq _ysize / 2) / Zq _ysize))%Q in
    let pp := (sin_dt * ((Zq q_i - Zq _xsize / 2) / Zq _xsize)
               + cos_dt * ((Zq p_i - Zq _ysize / 2) / Zq _ysize))%Q in
    (((qp + (1 # 2)) * Zq _xsize)%Q, ((pp + (1 # 2)) * Zq _ysize)%Q)
  else if ROTATION_TYPE =? 3 then
    let rq := Z.quot (wrap_int (wrap_int (2 * wrap_int q_i) - wrap_int _xsize))
                     (wrap_int _xsize) in
    let rp := Z.quot (wrap_int (wrap_int (2 * wrap_int p_i) - wrap_int _ysize))
                     (wrap_int _ysize) in
    let qp := (cos_dt * Zq rq - sin_dt * Zq rp)%Q in
    let pp := (sin_dt * Zq rq + cos_dt * Zq rp)%Q in
    (((qp + 1) * Zq _xsize / 2)%Q, ((pp + 1) * Zq _ysize / 2)%Q)
  else (* no branch of the #if chain: both are left unset *) (0%Q, 0%Q).

(** Lines 94-130: the interpolation coefficients for a fractional
    distance [xi], in exact arithmetic; [interpol_t(-1./6.)] is taken as
    the rational -1/6.  The rounded computation is
    [RotationMapFP.interpol_coeffs].  For an order outside 1..4 no branch
    is compiled and the arrays stay unset (0 here). *)
Definition interpol_coeffs (xi : Q) : list Q :=
  match INTERPOL_TYPE with
  | 1%nat => [1%Q]
  | 2%nat => [(1 - xi)%Q; xi]
  | 3%nat => [(xi * (xi - 1) / 2)%Q;
              (1 - xi * xi)%Q;
              (xi * (xi + 1) / 2)%Q]
  | 4%nat => [((xi - 1) * (xi - 2) * xi * (- 1 # 6))%Q;
              ((xi + 1) * (xi - 1) * (xi - 2) / 2)%Q;
              ((2 - xi) * xi * (xi + 1) / 2)%Q;
              (xi * (xi + 1) * (xi - 1) * (1 # 6))%Q]
  | _ => repeat 0%Q INTERPOL_TYPE
  end.

(** Lines 132-136: [hmc[hmp*INTERPOL_TYPE+hmq] = icq[hmp]*icp[hmq]]. *)
Definition assemble (icq icp : list Q) : list Q :=
  fold_left
    (fun hmc hmq =>
       fold_left
         (fun hmc hmp =>
            upd (hmp * INTERPOL_TYPE + hmq)
                (nth hmp icq 0 * nth hmq icp 0)%Q hmc)
         (seq 0 INTERPOL_TYPE) hmc)
    (seq 0 INTERPOL_TYPE)
    (repeat 0%Q (INTERPOL_TYPE * INTERPOL_TYPE)).

(** [(INTERPOL_TYPE-1)/2] *)
Definition half_width : Z := Z.quot (Z.of_nat INTERPOL_TYPE - 1) 2.

(** Lines 146-152: the entry for kernel position [(i1, j1)]. *)
Definition entry (id jd : Z) (hmc : list Q) (i1 j1 : nat) : hi :=
  let j0 := wrap_uint (jd + Z.of_nat j1 - half_width) in
  let i0 := wrap_uint (id + Z.of_nat i1 - half_width) in
  if (i0 <? _xsize) && (j0 <? _ysize)
  then mk_hi (wrap_uint (i0 * _ysize + j0))
             (nth (i1 * INTERPOL_TYPE + j1) hmc 0%Q)
  else hi0.

(** Lines 143-156: the row of one target is written entry by entry. *)
Definition write_row (id jd : Z) (hmc : list Q) (row : list hi) : list hi :=
  fold_left
    (fun row j1 =>
       fold_left
         (fun row i1 => upd (i1 * INTERPOL_TYPE + j1) (entry id jd hmc i1 j1) row)
         (seq 0 INTERPOL_TYPE) row)
    (seq 0 INTERPOL_TYPE) row.

(** Place of the row of target [(q_i, p_i)] in the flattened table. *)
Definition flat (q_i p_i : Z) : nat := Z.to_nat (q_i * _ysize + p_i).

(** Lines 33-157: the body of the two loops for one target. *)
Definition build_point (q_i p_i : Z) (hm : heritage_map) : heritage_map :=
  let '(qcoord, pcoord) := coords q_i p_i in
  let '(xiq, qq_int) := modf qcoord in
  let '(xip, qp_int) := modf pcoord in
  let id := to_uint qq_int in
  let jd := to_uint qp_int in
  if (id <? _xsize) && (jd <? _ysize) then
    let icq := interpol_coeffs xiq in
    let icp := interpol_coeffs xip in
    let hmc := assemble icq icp in
    upd (flat q_i p_i) (write_row id jd hmc (nth (flat q_i p_i) hm [])) hm
  else hm.

(** Modelled from the spec: the constructor of the base class
    [HeritageMap], which is not among the translated files.  It owns one
    row of [K = interpolationOrder^2] entries per target grid point,
    [sizeX * sizeY] rows in all, every entry zero-index and zero-weight
    until the builder writes it; the row of target [(q_i, p_i)] is row
    [q_i * sizeY + p_i] of the flattened table. *)
Definition HeritageMap (ip : nat) : heritage_map :=
  repeat (repeat hi0 ip) (Z.to_nat (_xsize * _ysize)).

(** Lines 22-159: the constructor of [RotationMap]. *)
Definition RotationMap : heritage_map :=
  fold_left
    (fun hm q_i =>
       fold_left
         (fun hm p_i => build_point (Z.of_nat q_i) (Z.of_nat p_i) hm)
         (seq 0 (Z.to_nat _ysize)) hm)
    (seq 0 (Z.to_nat _xsize))
    (HeritageMap (INTERPOL_TYPE * INTERPOL_TYPE)).

End Builder.

Section Apply.

Variable INTERPOL_TYPE : nat.

(** [INTERPOL_SATURATING == 1] *)
Variable INTERPOL_SATURATING : bool.

(** [std::numeric_limits<meshdata_t>::min()] and [::max()]. *)
Variables limits_min limits_max : Q.

Variable _heritage_map1D : heritage_map.
Variable _ip : nat.

(** [data_in[k]] *)
Definition sample (data_in : list Q) (k : Z) : Q := nth (Z.to_nat k) data_in 0%Q.

(** Lines 203-207: the sum for target [i], started from 0. *)
Definition accumulate (data_in : list Q) (i : nat) : Q :=
  fold_left
    (fun acc j =>
       let h := nth j (nth i _heritage_map1D []) hi0 in
       (acc + sample data_in (index h) * weight h)%Q)
    (seq 0 _ip) 0%Q.

(** Lines 210-217: [ceil] and [flor] after the two loops over [x] and [y].
    The positions [x*INTERPOL_TYPE+y] lie in the row when the row holds
    more than [2*INTERPOL_TYPE+2] entries, that is for orders from 3
    upwards.  For a shorter row the source reads past the row, memory
    that the translated files do not describe; the entry [{0,0}] stands
    for what is read there, and the statements about the pass are made
    for rows that hold the positions. *)
Definition ceil_flor (data_in : list Q) (i : nat) : Q * Q :=
  fold_left
    (fun cf x =>
       fold_left
         (fun '(ceil, flor) y =>
            let s := sample data_in
                       (index (nth (x * INTERPOL_TYPE + y)
                                   (nth i _heritage_map1D []) hi0)) in
            (std_max ceil s, std_min flor s))
         [1%nat; 2%nat] cf)
    [1%nat; 2%nat] (limits_min, limits_max).

(** Line 218. *)
Definition saturate (data_in : list Q) (i : nat) (out : Q) : Q :=
  let '(ceil, flor) := ceil_flor data_in i in
  std_max (std_min ceil out) flor.

(** Value left in [data_out[i]] by one turn of the outer loop. *)
Definition apply_value (data_in : list Q) (i : nat) : Q :=
  let s := accumulate data_in i in
  if INTERPOL_SATURATING then saturate data_in i s else s.

(** Lines 199-220: [apply()], sequential path, over [_size] targets. *)
Definition apply (_size : nat) (data_in data_out : list Q) : list Q :=
  fold_left (fun out i => upd i (apply_value data_in i) out)
            (seq 0 _size) data_out.

End Apply.

End RotationMap.

(** * Statements of the design document, in the terms of the code *)

Module Spec.

Import ArrayH.

(** The bound a faulty index [i] violates, for a dimension declared with
    [n] elements starting at offset [o]. *)
Definition bound_text (i n o : Z) : list piece :=
  if n =? 0 then [Str " index given to empty array"]
  else if i <? o then [Str " < "; Num o]
  else [Str " > "; Num (n + o - 1)].

(** The report of a bounds fault: the rank [dim] of the array, the number
    [m] of the index ([0] for the flat index of an array of higher rank,
    which is then not shown), the attempted value and the violated bound. *)
Definition bounds_fault (dim m i n o : Z) : list piece :=
  [Str "ERROR: "; Str "Array"; Num dim; Str " index "]
  ++ (if m =? 0 then [] else [Num m; Str " "])
  ++ [Str "is out of bounds ("; Num i]
  ++ bound_text i n o
  ++ [Str ")"; Str "."].

(** A report that shows all four data: the rank of the array, the number
    of the index, the attempted value, and a bound with its comparison. *)
Definition report_shows (msg : list piece) (dim m value : Z) : Prop :=
  exists (cmp : string) (bound : Z),
    msg = [Str "ERROR: "; Str "Array"; Num dim; Str " index "; Num m; Str " ";
           Str "is out of bounds ("; Num value; Str cmp; Num bound;
           Str ")"; Str "."].

(** The first [m] elements of [l] combined with those of [a]. *)
Fixpoint zip_first {T : Type} (op : T -> T -> T) (m : nat) (l a : list T)
  : list T :=
  match m, l, a with
  | S m', x :: l', y :: a' => op x y :: zip_first op m' l' a'
  | _, _, _ => l
  end.



Definition Qsum (l : list Q) : Q := fold_right Qplus 0%Q l.

(** An array whose memory block holds exactly its [_size] elements, the
    count fitting an [int]. *)
Definition well_formed1 (T : Type) (A : array1 T) : Prop :=
  Z.of_nat (List.length (v T A)) = _size T A /\ _size T A <= INT_MAX.

Import RotationMap.

Section Stencil.

Variable INTERPOL_TYPE : nat.
Variable ROTATION_TYPE : Z.
Variables _xsize _ysize : Z.
Variables cos_dt sin_dt : Q.

(** Integral parts [(id, jd)] of the inverse image of a target, as the
    builder holds them. *)
Definition source_cell (q_i p_i : Z) : Z * Z :=
  let '(qcoord, pcoord) := coords ROTATION_TYPE _xsize _ysize cos_dt sin_dt q_i p_i in
  (to_uint (snd (modf qcoord)), to_uint (snd (modf pcoord))).

(** Fractional parts [(xiq, xip)] of the inverse image of a target. *)
Definition source_offset (q_i p_i : Z) : Q * Q :=
  let '(qcoord, pcoord) := coords ROTATION_TYPE _xsize _ysize cos_dt sin_dt q_i p_i in
  (fst (modf qcoord), fst (modf pcoord)).

(** The row the builder leaves for target [(q_i, p_i)]. *)
Definition point_row (q_i p_i : Z) : list hi :=
  let '(qcoord, pcoord) := coords ROTATION_TYPE _xsize _ysize cos_dt sin_dt q_i p_i in
  let id := to_uint (snd (modf qcoord)) in
  let jd := to_uint (snd (modf pcoord)) in
  if (id <? _xsize) && (jd <? _ysize) then
    write_row INTERPOL_TYPE _xsize _ysize id jd
              (assemble INTERPOL_TYPE
                        (interpol_coeffs INTERPOL_TYPE (fst (modf qcoord)))
                        (interpol_coeffs INTERPOL_TYPE (fst (modf pcoord))))
              (repeat hi0 (INTERPOL_TYPE * INTERPOL_TYPE))
  else repeat hi0 (INTERPOL_TYPE * INTERPOL_TYPE).

(** Cell [(i, j)] lies on the grid. *)
Definition in_grid (i j : Z) : bool :=
  (0 <=? i) && (i <? _xsize) && (0 <=? j) && (j <? _ysize).

End Stencil.

(** Input samples a row points to at the given positions. *)
Definition samples (hm : heritage_map) (data_in : list Q) (i : nat)
           (positions : list nat) : list Q :=
  map (fun k => sample data_in (index (nth k (nth i hm []) hi0))) positions.

(** The positions [x*INTERPOL_TYPE+y], [x] and [y] in 1..2, that lines
    212-216 visit. *)
Definition inner_block (N : nat) : list nat :=
  [(1 * N + 1)%nat; (1 * N + 2)%nat; (2 * N + 1)%nat; (2 * N + 2)%nat].

(** The positions the design document names for a row of order [N]. *)
Definition first_ring (N : nat) : list nat :=
  [N; (N + 1)%nat; (2 * N)%nat; (2 * N + 1)%nat].

(** Least positive normal value and greatest finite value of a binary32
    number, the values of [numeric_limits<float>::min()] and [::max()]. *)
Definition FLT_MIN : Q := 1 # (2 ^ 126).
Definition FLT_MAX : Q := inject_Z ((2 ^ 24 - 1) * 2 ^ 104).

(** [x] lies between the least and the greatest element of [l]. *)
Definition within (x : Q) (l : list Q) : Prop :=
  (exists s, In s l /\ (s <= x)%Q) /\ (exists s, In s l /\ (x <= s)%Q).

End Spec.

(** * Sample data *)

Module Examples.

Import ArrayH RotationMap Spec.

(** An [array1] of three elements. *)
Definition three : array1 Z := mk_array1 Z [10; 20; 30] 3 allocated.

(** An [Array1] of three elements indexed from 5. *)
Definition three_from_5 : Array1 Z := mk_Array1 Z three 5.

(** An empty [array1] and a 2 by 2 [array2]. *)
Definition empty1 : array1 Z := mk_array1 Z [] 0 allocated.
Definition square2 : array2 Z :=
  mk_array2 Z (mk_array1 Z [1; 2; 3; 4] 4 allocated) 2 2.

Definition two : array1 Z := mk_array1 Z [1; 2] 2 allocated.

(** Arrays of shapes 2 by 3 and 3 by 2. *)
Definition wide : array2 Z :=
  mk_array2 Z (mk_array1 Z [1; 2; 3; 4; 5; 6] 6 allocated) 2 3.
Definition tall : array2 Z :=
  mk_array2 Z (mk_array1 Z [10; 20; 30; 40; 50; 60] 6 allocated) 3 2.

(** A 4 by 2 array of zeros. *)
Definition tall42 : array2 Z :=
  mk_array2 Z (mk_array1 Z [0; 0; 0; 0; 0; 0; 0; 0] 8 allocated) 4 2.

(** A 4 by 4 grid, cubic interpolation, mesh coordinates, rotated by the
    angle whose cosine is 3/5 and whose sine is 4/5. *)
Definition hm44 : heritage_map := RotationMap 4 1 4 4 (3 # 5) (- 4 # 5).

(** The fields used below: all zero but for one cell. *)
Definition zeros16 : list Q := repeat 0%Q 16.
Definition one_at_6 : list Q := upd 6 1%Q zeros16.
Definition one_at_0 : list Q := upd 0 1%Q zeros16.
Definition five_at_0 : list Q := upd 0 5%Q zeros16.


(** A field on a 4 by 4 grid. *)
Definition ramp16 : list Q := map (fun k => inject_Z (Z.of_nat k)) (seq 0 16).

(** The rotation by half a turn on a 4 by 4 grid, cubic interpolation. *)
Definition half_turn44 : heritage_map := RotationMap 4 1 4 4 (-1) 0.

(** A larger grid, 6 by 6, rotated like [hm44]; target (3,3) has all the
    cells of its kernel on the grid. *)
Definition hm66 : heritage_map := RotationMap 4 1 6 6 (3 # 5) (- 4 # 5).

End Examples.

(** * Further notions used in the statements *)

Module Fields.

(** The field [a*X + b*Y], cell by cell. *)
Definition lincomb (a : Q) (X : list Q) (b : Q) (Y : list Q) : list Q :=
  map (fun xy => (a * fst xy + b * snd xy)%Q) (combine X Y).

End Fields.

(** * Array.h: memory, ownership and further members *)

Module ArrayMem.

Import ArrayH.

(** [size_t] and pointers are 64 bits wide. *)
Definition SIZE_MOD : Z := 2 ^ 64.
Definition wrap_size (z : Z) : Z := z mod SIZE_MOD.
Definition sizeof_ptr : Z := 8.

(** How [posix_memalign0] returns: its error codes, or 0 with the aligned
    pointer [p]; [p0] is what [malloc] gave and what is kept just below
    [p]. *)
Inductive memalign_result : Type :=
| EINVAL
| ENOMEM
| aligned_at (p p0 : Z).

(** Pointer-sized cells of memory, by address. *)
Definition memory : Type := Z -> Z.

Definition poke (m : memory) (a x : Z) : memory :=
  fun b => if b =? a then x else m b.

(** [posix_memalign0(memptr, alignment, size)]; [malloc] gives the address
    of a block of the requested size, or 0. *)
Definition posix_memalign0 (malloc : Z -> Z) (m : memory) (alignment size : Z)
  : memalign_result * memory :=
  if negb (alignment mod sizeof_ptr =? 0)
     || negb (Z.land alignment (wrap_size (alignment - 1)) =? 0)
  then (EINVAL, m)
  else
    let p0 := malloc (wrap_size (size + alignment)) in
    if p0 =? 0 then (ENOMEM, m)
    else
      let p := Z.land (wrap_size (p0 + alignment))
                      (SIZE_MOD - 1 - wrap_size (alignment - 1)) in
      (aligned_at p p0, poke m (p - sizeof_ptr) p0).

(** Whether the pointer-sized cell at address [cell] lies inside the
    block of [len] bytes at [p0]. *)
Definition inside_block (p0 len cell : Z) : bool :=
  (p0 <=? cell) && (cell + sizeof_ptr <=? p0 + len).

(** [posix_memalign0] with the store of line 81 checked against the block
    that [malloc] returned: a store outside that block has no defined
    behaviour.  [posix_memalign0] above gives the result of the call when
    the store is inside. *)
Definition posix_memalign0_checked (malloc : Z -> Z) (m : memory)
           (alignment size : Z) : outcome (memalign_result * memory) :=
  if negb (alignment mod sizeof_ptr =? 0)
     || negb (Z.land alignment (wrap_size (alignment - 1)) =? 0)
  then Normal (EINVAL, m)
  else
    let len := wrap_size (size + alignment) in
    let p0 := malloc len in
    if p0 =? 0 then Normal (ENOMEM, m)
    else
      let p := Z.land (wrap_size (p0 + alignment))
                      (SIZE_MOD - 1 - wrap_size (alignment - 1)) in
      if inside_block p0 len (p - sizeof_ptr)
      then Normal (aligned_at p p0, poke m (p - sizeof_ptr) p0)
      else Undefined.

(** [free0(p)]: the address handed to [free], if any. *)
Definition free0 (m : memory) (p : Z) : option Z :=
  if p =? 0 then None else Some (m (p - sizeof_ptr)).

(** Calls to the allocator, in the order they are made. *)
Inductive mem_event : Type :=
| ev_new (n : Z)                 (* new T[n] *)
| ev_delete                      (* delete [] v *)
| ev_newAlign (n align : Z)      (* newAlign(v, n, align) *)
| ev_deleteAlign (n : Z).        (* deleteAlign(v, n) *)

Section Members.

Variable T : Type.
Variable NDEBUG : bool.

(** The value of an element that [new T[n]] has just made, and
    [sizeof(T)]. *)
Variable fresh : T.
Variable sizeof_T : Z.

(** The aligned allocator in use, [posix_memalign] or [posix_memalign0],
    by alignment and size. *)
Variable memalign : Z -> Z -> memalign_result.

Definition clear (A : array1 T) (flag : Z) : array1 T :=
  mk_array1 T (v T A) (_size T A) (Z.land (state T A) (Z.lnot flag)).

Definition set (A : array1 T) (flag : Z) : array1 T :=
  mk_array1 T (v T A) (_size T A) (Z.lor (state T A) flag).

Definition with_state (A : array1 T) (s : Z) : array1 T :=
  mk_array1 T (v T A) (_size T A) s.

(** [newAlign(v, len, align)]: the new block, or the fault. *)
Definition newAlign (len align : Z) : outcome (list T) :=
  match memalign align (wrap_size (len * sizeof_T)) with
  | EINVAL => ArrayExit [Str "Invalid alignment requested"]
  | ENOMEM => ArrayExit [Str "Memory limits exceeded"]
  | aligned_at _ _ => Normal (repeat fresh (Z.to_nat len))
  end.

(** [Deallocate()]: the block is gone afterwards.  The destructors that
    [deleteAlign] runs are those of a plain element type and do
    nothing. *)
Definition Deallocate (A : array1 T) : array1 T * list mem_event :=
  if negb (test T A allocated =? 0) then
    (mk_array1 T [] (_size T A) unallocated,
     [if negb (test T A aligned =? 0) then ev_deleteAlign (_size T A)
      else ev_delete])
  else (A, []).

(** [Activate(align)]; [new T[_size]] is taken to succeed. *)
Definition Activate (align : Z) (A : array1 T)
  : outcome (array1 T) * list mem_event :=
  if negb (align =? 0) then
    match newAlign (_size T A) align with
    | Normal blk =>
        (Normal (set (with_block T A blk) (Z.lor allocated aligned)),
         [ev_newAlign (_size T A) align])
    | Thrown w => (Thrown w, [])
    | Undefined => (Undefined, [])
    end
  else
    (Normal (set (with_block T A (repeat fresh (Z.to_nat (_size T A))))
                 allocated),
     [ev_new (_size T A)]).

(** [CheckActivate(int, align)] *)
Definition CheckActivate (align : Z) (A : array1 T)
  : outcome (array1 T) * list mem_event :=
  let '(A1, e1) := Deallocate A in
  let '(r, e2) := Activate align A1 in
  (r, e1 ++ e2).

Definition __checkActivate (align : Z) (A : array1 T)
  : outcome (array1 T) * list mem_event :=
  if NDEBUG then Activate align A else CheckActivate align A.

(** [Dimension(nx0)] and [Dimension(nx0, v0)] *)
Definition Dimension (nx0 : Z) (A : array1 T) : array1 T :=
  mk_array1 T (v T A) nx0 (state T A).

Definition Dimension_at (nx0 : Z) (v0 : list T) (A : array1 T) : array1 T :=
  clear (mk_array1 T v0 nx0 (state T A)) allocated.

(** [Allocate(nx0, align)] *)
Definition Allocate (nx0 align : Z) (A : array1 T)
  : outcome (array1 T) * list mem_event :=
  __checkActivate align (Dimension nx0 A).

(** [Reallocate(nx0, align)] *)
Definition Reallocate (nx0 align : Z) (A : array1 T)
  : outcome (array1 T) * list mem_event :=
  let '(A1, e1) := Deallocate A in
  let '(r, e2) := Allocate nx0 align A1 in
  (r, e1 ++ e2).

(** [Freeze()], [Hold()], [Purge()] *)
Definition Freeze (A : array1 T) : array1 T := with_state A unallocated.

Definition Hold (A : array1 T) : array1 T :=
  if negb (test T A allocated =? 0) then with_state A temporary else A.

Definition Purge (A : array1 T) : array1 T * list mem_event :=
  if negb (test T A temporary =? 0) then
    let '(A1, e) := Deallocate A in (with_state A1 unallocated, e)
  else (A, []).

(** [for(unsigned int i=0; i < _size; i++) dst[i]=src[i];] *)
Fixpoint copy_loop (ixs : list nat) (src dst : list T) : outcome (list T) :=
  match ixs with
  | [] => Normal dst
  | i :: rest =>
      match nth_error src i with
      | Some x =>
          if (i <? List.length dst)%nat
          then copy_loop rest src (upd i x dst)
          else Undefined
      | None => Undefined
      end
  end.

(** [Load(const T *a)]: the elements are taken from [a]. *)
Definition Load (a : list T) (A : array1 T) : outcome (array1 T) :=
  blk <- copy_loop (indices (_size T A)) a (v T A) ;;
  Normal (with_block T A blk).

(** [Load(T a)]: every element becomes [a]. *)
Definition Load_value (a : T) (A : array1 T) : array1 T * outcome unit :=
  array1_scalar T NDEBUG (fun _ => a) A.

(** [Store(T *a)]: the elements are copied to [a]. *)
Definition Store (a : list T) (A : array1 T) : outcome (list T) :=
  copy_loop (indices (_size T A)) (v T A) a.

(** [array1<T>& operator = (const array1<T>& A)]: the left operand, the
    right operand and the calls to the allocator. *)
Definition array1_assign (this A : array1 T)
  : outcome (array1 T * array1 T) * list mem_event :=
  let '(r1, e1) :=
    if negb (_size T this =? _size T A) then
      let '(t1, d) := Deallocate this in
      let '(r, a) := Allocate (_size T A) 0 t1 in
      (r, d ++ a)
    else (Normal this, []) in
  match r1 with
  | Normal t2 =>
      match Load (v T A) t2 with
      | Normal t3 =>
          let '(A1, e3) := Purge A in
          (Normal (t3, A1), e1 ++ e3)
      | Thrown w => (Thrown w, e1)
      | Undefined => (Undefined, e1)
      end
  | Thrown w => (Thrown w, e1)
  | Undefined => (Undefined, e1)
  end.

(** [array2<T>& operator = (const array2<T>& A)]; [CheckEqual] takes the
    dimensions as [int]. *)
Definition array2_assign (this A : array2 T)
  : outcome (array2 T * array2 T) * list mem_event :=
  match __checkEqual NDEBUG (wrap_int (nx T this)) (wrap_int (nx T A)) 2 1 with
  | Normal _ =>
      match __checkEqual NDEBUG (wrap_int (ny T this)) (wrap_int (ny T A)) 2 2 with
      | Normal _ =>
          match Load (v T (base T A)) (base T this) with
          | Normal b =>
              let '(A1, e) := Purge (base T A) in
              (Normal (with_base T this b, with_base T A A1), e)
          | Thrown w => (Thrown w, [])
          | Undefined => (Undefined, [])
          end
      | Thrown w => (Thrown w, [])
      | Undefined => (Undefined, [])
      end
  | Thrown w => (Thrown w, [])
  | Undefined => (Undefined, [])
  end.

(** The loop of [Min()] and [Max()]:
    [for(unsigned int i=1; i < _size; i++) if(v[i] < m) m=v[i];] with [<]
    or [>], [better x m] being the test. *)
Fixpoint extremum_loop (better : T -> T -> bool) (ixs : list nat)
         (blk : list T) (m : T) : outcome T :=
  match ixs with
  | [] => Normal m
  | i :: rest =>
      match nth_error blk i with
      | Some x => extremum_loop better rest blk (if better x m then x else m)
      | None => Undefined
      end
  end.

Definition extremum (what : string) (better : T -> T -> bool) (A : array1 T)
  : outcome T :=
  if _size T A =? 0 then ArrayExit [Str what]
  else match nth_error (v T A) 0 with
       | Some m => extremum_loop better (seq 1 (Z.to_nat (_size T A) - 1)) (v T A) m
       | None => Undefined
       end.

(** [Min()] and [Max()], for an element type with [operator <] and
    [operator >]. *)
Definition Min (ltb : T -> T -> bool) (A : array1 T) : outcome T :=
  extremum "Cannot take minimum of empty array" ltb A.

Definition Max (gtb : T -> T -> bool) (A : array1 T) : outcome T :=
  extremum "Cannot take maximum of empty array" gtb A.

(** [array1<T>& operator /= (T a)]:
    [T ainv=static_cast<T>(1.0)/a; operator *=(ainv);] *)
Definition array1_div_scalar (tmul tdiv : T -> T -> T) (one : T) (a : T)
           (A : array1 T) : array1 T * outcome unit :=
  let ainv := tdiv one a in
  array1_scalar T NDEBUG (fun x => tmul x ainv) A.

(** [array1<T> operator [] (const int ix)] of [array2]: row [ix] as an
    array of its own, on the memory of the array. *)
Definition array2_row (A : array2 T) (ix : Z) : outcome (array1 T) :=
  _ <- __check NDEBUG ix (wrap_int (nx T A)) 2 1 ;;
  Normal (Dimension_at (ny T A)
            (skipn (Z.to_nat (wrap_uint (ix * ny T A))) (v T (base T A)))
            (mk_array1 T [] 0 unallocated)).

(** [Identity()] of [array2] *)
Definition Identity (fuel : nat) (zero one : T) (A : array2 T)
  : option (array2 T * outcome unit) :=
  match Load_value zero (base T A) with
  | (b, Normal _) =>
      array2_scalar T NDEBUG fuel (fun _ => one) (with_base T A b)
  | (b, r) => Some (with_base T A b, r)
  end.

End Members.

(** Elements of type [int]: [x * y] and [x / y], the quotient truncated
    towards zero. *)
Definition int_mul (x y : Z) : Z := wrap_int (x * y).
Definition int_div (x y : Z) : Z := wrap_int (Z.quot x y).

End ArrayMem.

(** * Floating-point arithmetic *)

Module FloatingPoint.

(** A binary floating-point format of IEEE 754: the number of bits of the
    mantissa, the implicit one included, and the exponent of the
    infinities. *)
Record format : Type := mk_format { prec : Z; emax : Z }.

(** [float] and [double]. *)
Definition binary32 : format := mk_format 24 128.
Definition binary64 : format := mk_format 53 1024.

Section Format.

Variable F : format.

(** Conversion of a value to the format, rounding to nearest, ties to
    even; a value of the format is left as it is, in canonical form. *)
Definition rnd (x : spec_float) : spec_float :=
  match x with
  | S754_finite s m e => binary_round (prec F) (emax F) s m e
  | _ => x
  end.

(** The value [n * 2^e], rounded to the format. *)
Definition dyadic (n e : Z) : spec_float :=
  binary_normalize (prec F) (emax F) n e false.

(** Conversion of an integer. *)
Definition of_Z (z : Z) : spec_float := dyadic z 0.

(** [x + y], [x - y], [x * y] and [x / y] in the format. *)
Definition add (x y : spec_float) : spec_float :=
  rnd (SFadd (prec F) (emax F) x y).
Definition sub (x y : spec_float) : spec_float :=
  rnd (SFsub (prec F) (emax F) x y).
Definition mul (x y : spec_float) : spec_float :=
  rnd (SFmul (prec F) (emax F) x y).
Definition div (x y : spec_float) : spec_float :=
  rnd (SFdiv (prec F) (emax F) x y).

(** [std::modf(x, &ip)]: the pair (fractional part, integral part), both
    exact and with the sign of [x]. *)
Definition modf (x : spec_float) : spec_float * spec_float :=
  match x with
  | S754_finite s m e =>
      if 0 <=? e then (S754_zero s, x)
      else
        let k := Z.shiftr (Zpos m) (- e) in
        let r := Zpos m - Z.shiftl k (- e) in
        (binary_normalize (prec F) (emax F) (cond_Zopp s r) e s,
         binary_normalize (prec F) (emax F) (cond_Zopp s k) 0 s)
  | S754_infinity s => (S754_zero s, x)
  | _ => (x, x)
  end.

End Format.

(** [a < b]; [std::max(a,b)] is [(a < b) ? b : a] and [std::min(a,b)] is
    [(b < a) ? b : a]. *)
Definition ltb (x y : spec_float) : bool := SFltb x y.
Definition std_max (a b : spec_float) : spec_float := if ltb a b then b else a.
Definition std_min (a b : spec_float) : spec_float := if ltb b a then b else a.

(** The integer a finite value is truncated to. *)
Definition trunc (x : spec_float) : Z :=
  match x with
  | S754_finite s m e =>
      cond_Zopp s (if 0 <=? e then Z.shiftl (Zpos m) e
                   else Z.shiftr (Zpos m) (- e))
  | _ => 0
  end.

(** [unsigned int id = qq_int;], taken modulo 2^32 as in [RotationMap]. *)
Definition to_uint (x : spec_float) : Z := wrap_uint (trunc x).

(** The rational a finite value stands for. *)
Definition value (x : spec_float) : Q :=
  match x with
  | S754_finite s m e =>
      if 0 <=? e then inject_Z (cond_Zopp s (Zpos m * 2 ^ e))
      else Qmake (cond_Zopp s (Zpos m)) (Z.to_pos (2 ^ (- e)))
  | _ => 0%Q
  end.

End FloatingPoint.

(** * RotationMap.cpp in floating point *)

Module RotationMapFP.

Import FloatingPoint.

(** [hi] with the weight as the machine holds it. *)
Record hi : Type := mk_hi {
  index : Z;
  weight : spec_float
}.

Definition hi0 : hi := mk_hi 0 (S754_zero false).

Definition heritage_map : Type := list (list hi).

Section Builder.

(** The formats of the typedefs [meshaxis_t] and [interpol_t], each
    [float] or [double]. *)
Variables meshaxis_t interpol_t : format.

Variable INTERPOL_TYPE : nat.
Variable ROTATION_TYPE : Z.

Variables _xsize _ysize : Z.

(** [cos(angle)] and [-sin(angle)], values of [meshaxis_t]. *)
Variables cos_dt sin_dt : spec_float.

Local Abbreviation D := binary64.
Local Abbreviation dZ := (of_Z binary64).

(** Lines 46-76.  In the first two branches the literals [2.0] and [0.5]
    make every operation one of [double], and the result is rounded to
    [meshaxis_t] when it is stored; the third branch is computed in
    [meshaxis_t]. *)
Definition coords (q_i p_i : Z) : spec_float * spec_float :=
  if ROTATION_TYPE =? 1 then
    let qp := rnd meshaxis_t
                (add D (sub D (mul D cos_dt (sub D (dZ q_i) (div D (dZ _xsize) (dZ 2))))
                              (mul D sin_dt (sub D (dZ p_i) (div D (dZ _ysize) (dZ 2)))))
                       (div D (dZ _xsize) (dZ 2))) in
    let pp := rnd meshaxis_t
                (add D (add D (mul D sin_dt (sub D (dZ q_i) (div D (dZ _xsize) (dZ 2))))
                              (mul D cos_dt (sub D (dZ p_i) (div D (dZ _ysize) (dZ 2)))))
                       (div D (dZ _ysize) (dZ 2))) in
    (qp, pp)
  else if ROTATION_TYPE =? 2 then
    let qp := rnd meshaxis_t
                (sub D (mul D cos_dt (div D (sub D (dZ q_i) (div D (dZ _xsize) (dZ 2)))
                                            (dZ _xsize)))
                       (mul D sin_dt (div D (sub D (dZ p_i) (div D (dZ _ysize) (dZ 2)))
                                            (dZ _ysize)))) in
    let pp := rnd meshaxis_t
                (add D (mul D sin_dt (div D (sub D (dZ q_i) (div D (dZ _xsize) (dZ 2)))
                                            (dZ _xsize)))
                       (mul D cos_dt (div D (sub D (dZ p_i) (div D (dZ _ysize) (dZ 2)))
                                            (dZ _ysize)))) in
    (rnd meshaxis_t (mul D (add D qp (div D (dZ 1) (dZ 2))) (dZ _xsize)),
     rnd meshaxis_t (mul D (add D pp (div D (dZ 1) (dZ 2))) (dZ _ysize)))
  else if ROTATION_TYPE =? 3 then
    let A := meshaxis_t in
    let rq := Z.quot (wrap_int (wrap_int (2 * wrap_int q_i) - wrap_int _xsize))
                     (wrap_int _xsize) in
    let rp := Z.quot (wrap_int (wrap_int (2 * wrap_int p_i) - wrap_int _ysize))
                     (wrap_int _ysize) in
    let qp := sub A (mul A cos_dt (of_Z A rq)) (mul A sin_dt (of_Z A rp)) in
    let pp := add A (mul A sin_dt (of_Z A rq)) (mul A cos_dt (of_Z A rp)) in
    (div A (mul A (add A qp (of_Z A 1)) (of_Z A _xsize)) (of_Z A 2),
     div A (mul A (add A pp (of_Z A 1)) (of_Z A _ysize)) (of_Z A 2))
  else (S754_zero false, S754_zero false).

(** Lines 94-130, every operation in [interpol_t]; [interpol_t(-1./6.)]
    is the quotient of [double] rounded to [interpol_t]. *)
Definition interpol_coeffs (xi : spec_float) : list spec_float :=
  let I := interpol_t in
  let c := of_Z I in
  match INTERPOL_TYPE with
  | 1%nat => [c 1]
  | 2%nat => [sub I (c 1) xi; xi]
  | 3%nat => [div I (mul I xi (sub I xi (c 1))) (c 2);
              sub I (c 1) (mul I xi xi);
              div I (mul I xi (add I xi (c 1))) (c 2)]
  | 4%nat => [mul I (mul I (mul I (sub I xi (c 1)) (sub I xi (c 2))) xi)
                    (rnd I (div D (dZ (-1)) (dZ 6)));
              div I (mul I (mul I (add I xi (c 1)) (sub I xi (c 1)))
                           (sub I xi (c 2)))
                    (c 2);
              div I (mul I (mul I (sub I (c 2) xi) xi) (add I xi (c 1))) (c 2);
              mul I (mul I (mul I xi (add I xi (c 1))) (sub I xi (c 1)))
                    (rnd I (div D (dZ 1) (dZ 6)))]
  | _ => repeat (S754_zero false) INTERPOL_TYPE
  end.

(** Lines 132-136. *)
Definition assemble (icq icp : list spec_float) : list spec_float :=
  fold_left
    (fun hmc hmq =>
       fold_left
         (fun hmc hmp =>
            upd (hmp * INTERPOL_TYPE + hmq)
                (mul interpol_t (nth hmp icq (S754_zero false))
                                (nth hmq icp (S754_zero false))) hmc)
         (seq 0 INTERPOL_TYPE) hmc)
    (seq 0 INTERPOL_TYPE)
    (repeat (S754_zero false) (INTERPOL_TYPE * INTERPOL_TYPE)).

Definition half_width : Z := Z.quot (Z.of_nat INTERPOL_TYPE - 1) 2.

(** Lines 146-152. *)
Definition entry (id jd : Z) (hmc : list spec_float) (i1 j1 : nat) : hi :=
  let j0 := wrap_uint (jd + Z.of_nat j1 - half_width) in
  let i0 := wrap_uint (id + Z.of_nat i1 - half_width) in
  if (i0 <? _xsize) && (j0 <? _ysize)
  then mk_hi (wrap_uint (i0 * _ysize + j0))
             (nth (i1 * INTERPOL_TYPE + j1) hmc (S754_zero false))
  else hi0.

(** Lines 143-156. *)
Definition write_row (id jd : Z) (hmc : list spec_float) (row : list hi)
  : list hi :=
  fold_left
    (fun row j1 =>
       fold_left
         (fun row i1 => upd (i1 * INTERPOL_TYPE + j1) (entry id jd hmc i1 j1) row)
         (seq 0 INTERPOL_TYPE) row)
    (seq 0 INTERPOL_TYPE) row.

Definition flat (q_i p_i : Z) : nat := Z.to_nat (q_i * _ysize + p_i).

(** Lines 33-157; the fractional parts are stored into [interpol_t]. *)
Definition build_point (q_i p_i : Z) (hm : heritage_map) : heritage_map :=
  let '(qcoord, pcoord) := coords q_i p_i in
  let '(xiq, qq_int) := modf meshaxis_t qcoord in
  let '(xip, qp_int) := modf meshaxis_t pcoord in
  let id := to_uint qq_int in
  let jd := to_uint qp_int in
  if (id <? _xsize) && (jd <? _ysize) then
    let icq := interpol_coeffs (rnd interpol_t xiq) in
    let icp := interpol_coeffs (rnd interpol_t xip) in
    let hmc := assemble icq icp in
    upd (flat q_i p_i) (write_row id jd hmc (nth (flat q_i p_i) hm [])) hm
  else hm.

(** Modelled from the spec: the table of the base class, as in
    [RotationMap.HeritageMap]. *)
Definition HeritageMap (ip : nat) : heritage_map :=
  repeat (repeat hi0 ip) (Z.to_nat (_xsize * _ysize)).

(** Lines 22-159. *)
Definition RotationMap : heritage_map :=
  fold_left
    (fun hm q_i =>
       fold_left
         (fun hm p_i => build_point (Z.of_nat q_i) (Z.of_nat p_i) hm)
         (seq 0 (Z.to_nat _ysize)) hm)
    (seq 0 (Z.to_nat _xsize))
    (HeritageMap (INTERPOL_TYPE * INTERPOL_TYPE)).

End Builder.

Section Apply.

(** The format of the typedef [meshdata_t]. *)
Variable meshdata_t : format.

Variable INTERPOL_TYPE : nat.
Variable INTERPOL_SATURATING : bool.
Variables limits_min limits_max : spec_float.

Variable _heritage_map1D : heritage_map.
Variable _ip : nat.

Definition sample (data_in : list spec_float) (k : Z) : spec_float :=
  nth (Z.to_nat k) data_in (S754_zero false).

(** Lines 203-207: every product and every sum is rounded. *)
Definition accumulate (data_in : list spec_float) (i : nat) : spec_float :=
  fold_left
    (fun acc j =>
       let h := nth j (nth i _heritage_map1D []) hi0 in
       add meshdata_t acc
           (mul meshdata_t (sample data_in (index h))
                           (rnd meshdata_t (weight h))))
    (seq 0 _ip) (of_Z meshdata_t 0).

(** Lines 210-217. *)
Definition ceil_flor (data_in : list spec_float) (i : nat)
  : spec_float * spec_float :=
  fold_left
    (fun cf x =>
       fold_left
         (fun '(ceil, flor) y =>
            let s := sample data_in
                       (index (nth (x * INTERPOL_TYPE + y)
                                   (nth i _heritage_map1D []) hi0)) in
            (std_max ceil s, std_min flor s))
         [1%nat; 2%nat] cf)
    [1%nat; 2%nat] (limits_min, limits_max).

(** Line 218. *)
Definition saturate (data_in : list spec_float) (i : nat) (out : spec_float)
  : spec_float :=
  let '(ceil, flor) := ceil_flor data_in i in
  std_max (std_min ceil out) flor.

Definition apply_value (data_in : list spec_float) (i : nat) : spec_float :=
  let s := accumulate data_in i in
  if INTERPOL_SATURATING then saturate data_in i s else s.

(** Lines 199-220. *)
Definition apply (_size : nat) (data_in data_out : list spec_float)
  : list spec_float :=
  fold_left (fun out i => upd i (apply_value data_in i) out)
            (seq 0 _size) data_out.

End Apply.

End RotationMapFP.

(** * The two embeddings side by side *)

Module Agreement.

Import FloatingPoint.

(** An entry computed in floating point and one computed in exact
    arithmetic: the same index, and weights of the same value. *)
Definition same_entry (h : RotationMapFP.hi) (k : RotationMap.hi) : bool :=
  (RotationMapFP.index h =? RotationMap.index k)
  && Qeq_bool (value (RotationMapFP.weight h)) (RotationMap.weight k).

Fixpoint all2 {A B : Type} (f : A -> B -> bool) (l : list A) (k : list B)
  : bool :=
  match l, k with
  | [], [] => true
  | a :: l', b :: k' => f a b && all2 f l' k'
  | _, _ => false
  end.

Definition same_map (hm : RotationMapFP.heritage_map)
           (km : RotationMap.heritage_map) : bool :=
  all2 (all2 same_entry) hm km.

(** The field [0, 1, 2, ...] on [n] cells. *)
Definition ramp (F : format) (n : nat) : list spec_float :=
  map (fun k => of_Z F (Z.of_nat k)) (seq 0 n).

(** [std::numeric_limits<T>::min()] and [::max()] of a format: the least
    positive normal value and the greatest finite value. *)
Definition limits (F : format) : spec_float * spec_float :=
  (dyadic F 1 (3 - emax F - 1), dyadic F (2 ^ prec F - 1) (emax F - prec F)).

(** Angle 0 in mesh coordinates, every typedef of format [F], order [N],
    on an [xs] by [ys] grid: the map built in floating point has the
    entries of the map built in exact arithmetic, and [apply] in floating
    point -- with the saturation pass from order 3 upwards -- leaves the
    field [ramp] as it is. *)
Definition identity_agrees (F : format) (N : nat) (xs ys : Z) : bool :=
  let hm := RotationMapFP.RotationMap F F N 1 xs ys
                                      (of_Z F 1) (S754_zero true) in
  let n := Z.to_nat (xs * ys) in
  same_map hm (RotationMap.RotationMap N 1 xs ys 1 0)
  && all2 (fun a b => Qeq_bool (value a) (value b))
          (RotationMapFP.apply F N (3 <=? N)%nat (fst (limits F)) (snd (limits F))
                               hm (N * N) n (ramp F n)
                               (repeat (S754_zero false) n))
          (ramp F n).

Definition small_grids : list (Z * Z) :=
  list_prod [1; 2; 3; 4; 5] [1; 2; 3; 4; 5].

End Agreement.

(** * Sample data in floating point *)

Module ExamplesFP.

Import FloatingPoint.

(** [cos(0.5f)] and [-sin(0.5f)] in binary32. *)
Definition cos_half : spec_float := dyadic binary32 230053 (-18).
Definition sin_half : spec_float := dyadic binary32 (-4021713) (-23).

(** The map for the angle 0.5 on a 6 by 6 grid, mesh coordinates, cubic
    interpolation, every typedef [float]. *)
Definition hm66_half : RotationMapFP.heritage_map :=
  RotationMapFP.RotationMap binary32 binary32 4 1 6 6 cos_half sin_half.

(** The field that holds 7 in every cell of a 6 by 6 grid. *)
Definition sevens36 : list spec_float := repeat (of_Z binary32 7) 36.

(** The double nearest to 7/10. *)
Definition seven_tenths : spec_float :=
  div binary64 (of_Z binary64 7) (of_Z binary64 10).


End ExamplesFP.

(** * General facts *)

Lemma wrap_uint_small (z : Z) : 0 <= z < UINT_MOD -> wrap_uint z = z.
Proof. intros H. unfold wrap_uint. now apply Z.mod_small. Qed.

Lemma wrap_int_small (z : Z) : INT_MIN <= z <= INT_MAX -> wrap_int z = z.
Proof.
  unfold wrap_int, INT_MIN, INT_MAX, UINT_MOD. intros H.
  rewrite Z.mod_small; lia.
Qed.

Lemma wrap_uint_neg (z : Z) : - UINT_MOD <= z < 0 -> wrap_uint z = z + UINT_MOD.
Proof.
  intros H. unfold wrap_uint.
  symmetry. apply Z.mod_unique with (q := -1); unfold UINT_MOD in *; lia.
Qed.

Lemma length_upd {A : Type} (n : nat) (x : A) (l : list A) :
  List.length (upd n x l) = List.length l.
Proof.
  revert n; induction l as [|h t IH]; intros [|n]; simpl; auto.
Qed.

Lemma nth_error_upd_eq {A : Type} (n : nat) (x : A) (l : list A) :
  (n < List.length l)%nat -> nth_error (upd n x l) n = Some x.
Proof.
  revert n; induction l as [|h t IH]; intros [|n] H; simpl in *; try lia; auto.
  apply IH; lia.
Qed.

Lemma nth_error_upd_neq {A : Type} (n m : nat) (x : A) (l : list A) :
  n <> m -> nth_error (upd n x l) m = nth_error l m.
Proof.
  revert n m; induction l as [|h t IH]; intros [|n] [|m] H; simpl; auto; try lia.
Qed.

Lemma nth_upd_eq {A : Type} (n : nat) (x d : A) (l : list A) :
  (n < List.length l)%nat -> nth n (upd n x l) d = x.
Proof.
  intros H. apply nth_error_nth. now apply nth_error_upd_eq.
Qed.

Lemma nth_upd_neq {A : Type} (n m : nat) (x d : A) (l : list A) :
  n <> m -> nth m (upd n x l) d = nth m l d.
Proof.
  revert n m; induction l as [|h t IH]; intros [|n] [|m] H; simpl; auto; try lia.
Qed.

Lemma upd_app_here {A : Type} (done : list A) (x y : A) (rest : list A) :
  upd (List.length done) y (done ++ x :: rest) = done ++ y :: rest.
Proof. induction done as [|h t IH]; simpl; [reflexivity | now rewrite IH]. Qed.

(** ** Loops that write one position per turn *)

Section PositionalWrites.

Context {K A : Type}.
Variable pos : K -> nat.
Variable g : K -> A -> A.
Variable d : A.

Local Abbreviation step := (step pos g d).

Lemma steps_length (ks : list K) (l : list A) :
  List.length (fold_left step ks l) = List.length l.
Proof.
  revert l; induction ks as [|k ks IH]; intros l; simpl; [reflexivity|].
  rewrite IH. apply length_upd.
Qed.

Lemma steps_untouched (ks : list K) (l : list A) (n : nat) :
  (forall k, In k ks -> pos k <> n) ->
  nth n (fold_left step ks l) d = nth n l d.
Proof.
  revert l; induction ks as [|k ks IH]; intros l H; simpl; [reflexivity|].
  rewrite IH by (intros; apply H; now right).
  apply nth_upd_neq. apply H. now left.
Qed.

Lemma steps_written (ks : list K) (l : list A) (k : K) :
  NoDup ks ->
  (forall a b, In a ks -> In b ks -> pos a = pos b -> a = b) ->
  In k ks -> (pos k < List.length l)%nat ->
  nth (pos k) (fold_left step ks l) d = g k (nth (pos k) l d).
Proof.
  revert l; induction ks as [|k0 ks IH]; intros l Hnd Hinj Hin Hlen; simpl.
  - destruct Hin.
  - inversion Hnd as [|? ? Hnotin Hnd']; subst.
    destruct Hin as [-> | Hin].
    + rewrite steps_untouched.
      * unfold step. now apply nth_upd_eq.
      * intros k' Hk' Heq. apply Hnotin.
        rewrite (Hinj k k'); auto; [now left | now right].
    + rewrite IH; auto.
      * unfold step at 1. rewrite nth_upd_neq; [reflexivity|].
        intros Heq. apply Hnotin.
        rewrite (Hinj k0 k); auto; [now left | now right].
      * intros a b Ha Hb. apply Hinj; now right.
      * unfold step. now rewrite length_upd.
Qed.

End PositionalWrites.

Lemma nested_fold {S A B : Type} (F : A -> B -> S -> S)
      (xs : list A) (ys : list B) (s : S) :
  fold_left (fun s a => fold_left (fun s b => F a b s) ys s) xs s
  = fold_left (fun s ab => F (fst ab) (snd ab) s) (list_prod xs ys) s.
Proof.
  revert s; induction xs as [|a xs IH]; intros s; simpl; [reflexivity|].
  rewrite fold_left_app, IH. f_equal.
  clear IH. revert s. induction ys as [|b ys IHy]; intros s; simpl; auto.
Qed.

Lemma fold_left_ext {S B : Type} (f g : S -> B -> S) (l : list B) (s : S) :
  (forall a b, f a b = g a b) -> fold_left f l s = fold_left g l s.
Proof.
  intros H. revert s; induction l as [|b l IH]; intros s; simpl; [reflexivity|].
  now rewrite H, IH.
Qed.

Lemma NoDup_list_prod {A B : Type} (xs : list A) (ys : list B) :
  NoDup xs -> NoDup ys -> NoDup (list_prod xs ys).
Proof.
  intros Hx Hy. induction Hx as [|a xs Hnotin Hx IH]; simpl; [constructor|].
  apply NoDup_app.
  - apply NoDup_map_NoDup_ForallPairs; auto.
    intros u w _ _ E. now inversion E.
  - exact IH.
  - intros [a' b'] H1 H2. apply in_map_iff in H1 as (y & E & _).
    inversion E; subst. apply in_prod_iff in H2 as (H2 & _). contradiction.
Qed.

(** * Array.h: bounds faults *)

Module ArrayFacts.

Import ArrayH Spec.

Section Facts.

Variable T : Type.

Lemma Check_in_range (i n dim m o : Z) :
  0 <= i < n -> Check i n dim m o = Normal tt.
Proof.
  intros H. unfold Check.
  destruct (i <? 0) eqn:E1; [apply Z.ltb_lt in E1; lia|].
  destruct (i >=? n) eqn:E2; [apply Z.geb_le in E2; lia|].
  reflexivity.
Qed.

(** [Check] on an index outside [0, n): the message, with the offset
    added back to the value and to the bound. *)
Lemma Check_out_of_range (i n dim m o : Z) :
  i < 0 \/ n <= i ->
  0 <= n -> is_int (i + o) -> is_int (n + o) -> is_int (n + o - 1) ->
  Check i n dim m o = Thrown (bounds_fault dim m (i + o) n o).
Proof.
  intros Hout Hn Hio Hno Hno1. unfold Check, bounds_fault, bound_text, ArrayExit.
  assert (E : (i <? 0) || (i >=? n) = true).
  { apply orb_true_iff. destruct Hout; [left; now apply Z.ltb_lt | right; apply Z.geb_le; lia]. }
  rewrite E.
  rewrite (wrap_int_small (i + o)) by exact Hio.
  rewrite (wrap_int_small (n + o)) by exact Hno.
  rewrite (wrap_int_small (n + o - 1)) by exact Hno1.
  replace (i + o <? o) with (i <? 0).
  2:{ destruct (i <? 0) eqn:E1; symmetry.
      - apply Z.ltb_lt in E1. apply Z.ltb_lt. lia.
      - apply Z.ltb_ge in E1. apply Z.ltb_ge. lia. }
  destruct (m =? 0); destruct (n =? 0); destruct (i <? 0); reflexivity.
Qed.

Lemma is_int_size (n : Z) : 0 <= n <= INT_MAX -> is_int n /\ is_int (n - 1).
Proof. unfold is_int, INT_MIN, INT_MAX. lia. Qed.

(** [array1]: [A(ix)] *)
Lemma array1_at_fault (A : array1 T) (ix : Z) :
  is_int ix -> 0 <= _size T A <= INT_MAX ->
  ix < 0 \/ _size T A <= ix ->
  array1_at T false A ix = Thrown (bounds_fault 1 1 ix (_size T A) 0).
Proof.
  intros Hix Hn Hout. unfold array1_at, __check.
  destruct (is_int_size _ Hn) as [H1 H2].
  rewrite (wrap_int_small (_size T A)) by exact H1.
  rewrite Check_out_of_range; rewrite ?Z.add_0_r; auto; lia.
Qed.

Lemma array1_at_ok (A : array1 T) (ix : Z) :
  0 <= _size T A <= INT_MAX -> 0 <= ix < _size T A ->
  array1_at T false A ix = deref T (v T A) ix.
Proof.
  intros Hn Hin. unfold array1_at, __check.
  rewrite (wrap_int_small (_size T A)) by (apply is_int_size; exact Hn).
  now rewrite Check_in_range.
Qed.

(** [array2]: [A(i)], the flat index *)
Lemma array2_at_fault (A : array2 T) (i : Z) :
  is_int i -> 0 <= _size T (base T A) <= INT_MAX ->
  i < 0 \/ _size T (base T A) <= i ->
  array2_at T false A i = Thrown (bounds_fault 2 0 i (_size T (base T A)) 0).
Proof.
  intros Hi Hn Hout. unfold array2_at, __check.
  destruct (is_int_size _ Hn) as [H1 H2].
  rewrite (wrap_int_small (_size T (base T A))) by exact H1.
  rewrite Check_out_of_range; rewrite ?Z.add_0_r; auto; lia.
Qed.

Lemma array2_at_ok (A : array2 T) (i : Z) :
  0 <= _size T (base T A) <= INT_MAX -> 0 <= i < _size T (base T A) ->
  array2_at T false A i = deref T (v T (base T A)) i.
Proof.
  intros Hn Hin. unfold array2_at, __check.
  rewrite (wrap_int_small (_size T (base T A))) by (apply is_int_size; exact Hn).
  now rewrite Check_in_range.
Qed.

(** [array2]: [A(ix,iy)], first index out of range *)
Lemma array2_at2_fault_x (A : array2 T) (ix iy : Z) :
  is_int ix -> 0 <= nx T A <= INT_MAX ->
  ix < 0 \/ nx T A <= ix ->
  array2_at2 T false A ix iy = Thrown (bounds_fault 2 1 ix (nx T A) 0).
Proof.
  intros Hix Hn Hout. unfold array2_at2, __check.
  destruct (is_int_size _ Hn) as [H1 H2].
  rewrite (wrap_int_small (nx T A)) by exact H1.
  rewrite Check_out_of_range; rewrite ?Z.add_0_r; auto; lia.
Qed.

(** [array2]: [A(ix,iy)], second index out of range *)
Lemma array2_at2_fault_y (A : array2 T) (ix iy : Z) :
  is_int iy -> 0 <= nx T A <= INT_MAX -> 0 <= ny T A <= INT_MAX ->
  0 <= ix < nx T A ->
  iy < 0 \/ ny T A <= iy ->
  array2_at2 T false A ix iy = Thrown (bounds_fault 2 2 iy (ny T A) 0).
Proof.
  intros Hiy Hnx Hny Hin Hout. unfold array2_at2, __check.
  rewrite (wrap_int_small (nx T A)) by (apply is_int_size; exact Hnx).
  rewrite Check_in_range by exact Hin. simpl.
  destruct (is_int_size _ Hny) as [H1 H2].
  rewrite (wrap_int_small (ny T A)) by exact H1.
  rewrite Check_out_of_range; rewrite ?Z.add_0_r; auto; lia.
Qed.

Lemma offset_index (i o : Z) :
  is_int o -> is_int (i - o) ->
  wrap_int (wrap_uint (i - wrap_uint o)) = i - o /\ wrap_int (wrap_uint o) = o.
Proof.
  unfold is_int, wrap_int, wrap_uint, INT_MIN, INT_MAX, UINT_MOD.
  intros Ho Hio. split.
  - rewrite Zminus_mod_idemp_r.
    rewrite Zplus_mod_idemp_l.
    rewrite Z.mod_small; lia.
  - rewrite Zplus_mod_idemp_l. rewrite Z.mod_small; lia.
Qed.

(** [Array1]: [A[ix]] with offset [ox] *)
Lemma Array1_at_fault (A : Array1 T) (ix : Z) :
  let n := _size T (base1 T A) in
  let o := ox1 T A in
  is_int ix -> is_int o -> 0 <= n <= INT_MAX ->
  is_int (ix - o) -> is_int (n + o) -> is_int (n + o - 1) ->
  ix < o \/ o + n <= ix ->
  Array1_at T false A ix = Thrown (bounds_fault 1 1 ix n o).
Proof.
  intros n o Hix Ho Hn Hio Hno Hno1 Hout. unfold Array1_at, __check_off.
  fold n. fold o.
  destruct (offset_index ix o Ho Hio) as [E1 E2]. rewrite E1, E2.
  rewrite (wrap_int_small n) by (apply is_int_size; exact Hn).
  rewrite Check_out_of_range; auto; try lia.
  - now replace (ix - o + o) with ix by lia.
  - now replace (ix - o + o) with ix by lia.
Qed.

(** [Array2]: [A(ix,iy)] with offsets, first index out of range *)
Lemma Array2_at2_fault_x (A : Array2 T) (ix iy : Z) :
  let n := nx T (base2 T A) in
  let o := ox2 T A in
  is_int ix -> is_int o -> 0 <= n <= INT_MAX ->
  is_int (ix - o) -> is_int (n + o) -> is_int (n + o - 1) ->
  ix < o \/ o + n <= ix ->
  Array2_at2 T false A ix iy = Thrown (bounds_fault 2 1 ix n o).
Proof.
  intros n o Hix Ho Hn Hio Hno Hno1 Hout. unfold Array2_at2, __check_off.
  fold n. fold o.
  destruct (offset_index ix o Ho Hio) as [E1 E2]. rewrite E1, E2.
  rewrite (wrap_int_small n) by (apply is_int_size; exact Hn).
  rewrite Check_out_of_range; auto; try lia.
  - now replace (ix - o + o) with ix by lia.
  - now replace (ix - o + o) with ix by lia.
Qed.

(** [Array2]: [A(ix,iy)] with offsets, second index out of range *)
Lemma Array2_at2_fault_y (A : Array2 T) (ix iy : Z) :
  let n := ny T (base2 T A) in
  let o := oy2 T A in
  is_int (ox2 T A) -> is_int (ix - ox2 T A) ->
  0 <= nx T (base2 T A) <= INT_MAX ->
  ox2 T A <= ix < ox2 T A + nx T (base2 T A) ->
  is_int iy -> is_int o -> 0 <= n <= INT_MAX ->
  is_int (iy - o) -> is_int (n + o) -> is_int (n + o - 1) ->
  iy < o \/ o + n <= iy ->
  Array2_at2 T false A ix iy = Thrown (bounds_fault 2 2 iy n o).
Proof.
  intros n o Hox Hixo Hnx Hin Hiy Ho Hn Hio Hno Hno1 Hout.
  unfold Array2_at2, __check_off. fold n. fold o.
  destruct (offset_index ix (ox2 T A) Hox Hixo) as [E1 E2]. rewrite E1, E2.
  rewrite (wrap_int_small (nx T (base2 T A))) by (apply is_int_size; exact Hnx).
  rewrite Check_in_range by lia. simpl bind.
  destruct (offset_index iy o Ho Hio) as [E3 E4]. rewrite E3, E4.
  rewrite (wrap_int_small n) by (apply is_int_size; exact Hn).
  rewrite Check_out_of_range; auto; try lia.
  - now replace (iy - o + o) with iy by lia.
  - now replace (iy - o + o) with iy by lia.
Qed.

End Facts.

End ArrayFacts.

(** * Array.h: compound operators *)

Module CompoundFacts.

Import ArrayH Spec ArrayFacts.

Section Facts.

Variable T : Type.

Lemma zip_first_length (op : T -> T -> T) (m : nat) (l a : list T) :
  List.length (zip_first op m l a) = List.length l.
Proof.
  revert l a; induction m as [|m IH]; intros [|x l] [|y a]; simpl; auto.
Qed.

Lemma zip_first_nth_error (op : T -> T -> T) (m : nat) (l a : list T) (j : nat) :
  (m <= List.length l)%nat -> (m <= List.length a)%nat ->
  nth_error (zip_first op m l a) j =
  if (j <? m)%nat
  then match nth_error l j, nth_error a j with
       | Some x, Some y => Some (op x y)
       | _, _ => None
       end
  else nth_error l j.
Proof.
  revert l a j; induction m as [|m IH]; intros l a j Hl Ha.
  - simpl. destruct l; reflexivity.
  - destruct l as [|x l]; [simpl in Hl; lia|].
    destruct a as [|y a]; [simpl in Ha; lia|].
    simpl in Hl, Ha. destruct j as [|j]; [reflexivity|].
    simpl zip_first. simpl nth_error. rewrite IH by lia.
    reflexivity.
Qed.

(** The loop over the indices [|done|, ..., |done|+len-1], all of them
    accepted by the accessor of the right operand. *)
Lemma assign_loop_ok (op : T -> T -> T) (Aat : Z -> outcome T) (ablk : list T) :
  (forall j y, nth_error ablk j = Some y -> Aat (wrap_int (Z.of_nat j)) = Normal y) ->
  forall (len : nat) (done rest : list T),
    (len <= List.length rest)%nat ->
    (List.length done + len <= List.length ablk)%nat ->
    assign_loop T op Aat (seq (List.length done) len) (done ++ rest)
    = (done ++ zip_first op len rest (skipn (List.length done) ablk), Normal tt).
Proof.
  intros HA. induction len as [|len IH]; intros done rest Hr Ha.
  - simpl. destruct rest; reflexivity.
  - destruct rest as [|x rest]; [simpl in Hr; lia|].
    destruct (nth_error ablk (List.length done)) as [y|] eqn:Ey.
    2:{ apply nth_error_None in Ey. lia. }
    simpl seq. simpl assign_loop.
    rewrite (HA _ _ Ey).
    rewrite nth_error_app2 by lia. rewrite Nat.sub_diag. simpl nth_error.
    cbv beta iota. rewrite upd_app_here.
    replace (done ++ op x y :: rest) with ((done ++ [op x y]) ++ rest)
      by (rewrite <- app_assoc; reflexivity).
    replace (S (List.length done)) with (List.length (done ++ [op x y]))
      by (rewrite length_app; simpl; lia).
    rewrite IH.
    + rewrite <- app_assoc. simpl. f_equal. f_equal.
      rewrite length_app. simpl.
      replace (List.length done + 1)%nat with (S (List.length done)) by lia.
      assert (Es : skipn (List.length done) ablk = y :: skipn (S (List.length done)) ablk).
      { clear - Ey. revert ablk Ey. induction done as [|h t IHd]; intros [|a0 ab] E; simpl in *; try discriminate.
        - now inversion E.
        - now apply IHd. }
      rewrite Es. reflexivity.
    + simpl in Hr. lia.
    + rewrite length_app. simpl. lia.
Qed.

Lemma assign_loop_app (op : T -> T -> T) (Aat : Z -> outcome T)
      (l1 l2 : list nat) (blk : list T) :
  assign_loop T op Aat (l1 ++ l2) blk =
  match assign_loop T op Aat l1 blk with
  | (blk1, Normal _) => assign_loop T op Aat l2 blk1
  | other => other
  end.
Proof.
  revert blk; induction l1 as [|i l1 IH]; intros blk; simpl.
  - reflexivity.
  - destruct (Aat (wrap_int (Z.of_nat i))); try reflexivity.
    destruct (nth_error blk i); [apply IH | reflexivity].
Qed.

(** The whole loop of a compound operator: [n] elements on the left, a
    right operand of [k] elements read by [Aat], which throws [msg] at
    index [k]. *)
Lemma assign_loop_all (op : T -> T -> T) (Aat : Z -> outcome T)
      (blk ablk : list T) (msg : list piece) :
  (forall j y, nth_error ablk j = Some y -> Aat (wrap_int (Z.of_nat j)) = Normal y) ->
  Aat (wrap_int (Z.of_nat (List.length ablk))) = Thrown msg ->
  assign_loop T op Aat (seq 0 (List.length blk)) blk =
  if (List.length blk <=? List.length ablk)%nat
  then (zip_first op (List.length blk) blk ablk, Normal tt)
  else (zip_first op (List.length ablk) blk ablk, Thrown msg).
Proof.
  intros HA Hthrow.
  destruct (List.length blk <=? List.length ablk)%nat eqn:E.
  - apply Nat.leb_le in E.
    apply (assign_loop_ok op Aat ablk HA (List.length blk) [] blk); simpl; lia.
  - apply Nat.leb_gt in E.
    replace (List.length blk)
      with (List.length ablk + (List.length blk - List.length ablk))%nat at 1 by lia.
    rewrite seq_app, assign_loop_app.
    pose proof (assign_loop_ok op Aat ablk HA (List.length ablk) [] blk) as H0.
    simpl in H0. rewrite H0 by lia.
    destruct (List.length blk - List.length ablk)%nat eqn:En; [lia|].
    simpl. rewrite Hthrow. reflexivity.
Qed.

Local Abbreviation well_formed1 := (Spec.well_formed1 T).

Lemma CheckSize_passes (A : array1 T) :
  test T A allocated <> 0 \/ _size T A <> 0 ->
  __checkSize T false A = Normal tt.
Proof.
  intros H. unfold __checkSize, CheckSize.
  destruct (test T A allocated =? 0) eqn:E1; [|reflexivity].
  destruct (_size T A =? 0) eqn:E2; [|reflexivity].
  apply Z.eqb_eq in E1, E2. destruct H; contradiction.
Qed.

Lemma array1_reads (A : array1 T) :
  well_formed1 A ->
  forall j y, nth_error (v T A) j = Some y ->
              array1_at T false A (wrap_int (Z.of_nat j)) = Normal y.
Proof.
  intros [Hlen Hmax] j y Hj.
  assert (Hlt : (j < List.length (v T A))%nat)
    by (apply nth_error_Some; congruence).
  assert (Hint : is_int (Z.of_nat j)) by (unfold is_int, INT_MIN, INT_MAX in *; lia).
  rewrite wrap_int_small by exact Hint.
  rewrite array1_at_ok by lia.
  unfold deref. destruct (Z.of_nat j <? 0) eqn:E; [apply Z.ltb_lt in E; lia|].
  now rewrite Nat2Z.id, Hj.
Qed.

Lemma array2_reads (A : array2 T) :
  well_formed1 (base T A) ->
  forall j y, nth_error (v T (base T A)) j = Some y ->
              array2_at T false A (wrap_int (Z.of_nat j)) = Normal y.
Proof.
  intros [Hlen Hmax] j y Hj.
  assert (Hlt : (j < List.length (v T (base T A)))%nat)
    by (apply nth_error_Some; congruence).
  assert (Hint : is_int (Z.of_nat j)) by (unfold is_int, INT_MIN, INT_MAX in *; lia).
  rewrite wrap_int_small by exact Hint.
  rewrite array2_at_ok by lia.
  unfold deref. destruct (Z.of_nat j <? 0) eqn:E; [apply Z.ltb_lt in E; lia|].
  now rewrite Nat2Z.id, Hj.
Qed.

(** [array1]: [this op= A] for arrays of any two sizes. *)
Lemma array1_compound_spec (op : T -> T -> T) (this A : array1 T) :
  well_formed1 this -> well_formed1 A ->
  test T this allocated <> 0 \/ _size T this <> 0 ->
  array1_compound T false op this A =
  if _size T this <=? _size T A
  then (with_block T this (zip_first op (List.length (v T this)) (v T this) (v T A)),
        Normal tt)
  else (with_block T this (zip_first op (List.length (v T A)) (v T this) (v T A)),
        Thrown (bounds_fault 1 1 (_size T A) (_size T A) 0)).
Proof.
  intros Hthis HA Hcs. unfold array1_compound.
  rewrite CheckSize_passes by exact Hcs.
  pose proof Hthis as [Hl1 Hm1]. pose proof HA as [Hl2 Hm2].
  unfold indices. rewrite <- Hl1, Nat2Z.id.
  rewrite (assign_loop_all op (array1_at T false A) (v T this) (v T A)
             (bounds_fault 1 1 (_size T A) (_size T A) 0)).
  - rewrite <- Hl2.
    destruct (List.length (v T this) <=? List.length (v T A))%nat eqn:E.
    + apply Nat.leb_le in E.
      destruct (Z.of_nat (List.length (v T this)) <=? Z.of_nat (List.length (v T A))) eqn:E'; [reflexivity|].
      apply Z.leb_gt in E'. lia.
    + apply Nat.leb_gt in E.
      destruct (Z.of_nat (List.length (v T this)) <=? Z.of_nat (List.length (v T A))) eqn:E'; [|reflexivity].
      apply Z.leb_le in E'. lia.
  - now apply array1_reads.
  - rewrite Hl2. rewrite wrap_int_small by (unfold is_int, INT_MIN, INT_MAX in *; lia).
    apply array1_at_fault; unfold is_int, INT_MIN, INT_MAX in *; lia.
Qed.

(** [array2]: [this op= A] for arrays of any two shapes. *)
Lemma array2_compound_spec (op : T -> T -> T) (this A : array2 T) :
  well_formed1 (base T this) -> well_formed1 (base T A) ->
  test T (base T this) allocated <> 0 \/ _size T (base T this) <> 0 ->
  let n := _size T (base T this) in
  let k := _size T (base T A) in
  array2_compound T false op this A =
  if n <=? k
  then (with_base T this (with_block T (base T this)
          (zip_first op (Z.to_nat n) (v T (base T this)) (v T (base T A)))),
        Normal tt)
  else (with_base T this (with_block T (base T this)
          (zip_first op (Z.to_nat k) (v T (base T this)) (v T (base T A)))),
        Thrown (bounds_fault 2 0 k k 0)).
Proof.
  intros Hthis HA Hcs n k. unfold array2_compound.
  rewrite CheckSize_passes by exact Hcs.
  pose proof Hthis as [Hl1 Hm1]. pose proof HA as [Hl2 Hm2].
  unfold indices. subst n k. rewrite <- Hl1, <- Hl2, !Nat2Z.id.
  rewrite (assign_loop_all op (array2_at T false A) (v T (base T this)) (v T (base T A))
             (bounds_fault 2 0 (_size T (base T A)) (_size T (base T A)) 0)).
  - destruct (List.length (v T (base T this)) <=? List.length (v T (base T A)))%nat eqn:E.
    + apply Nat.leb_le in E.
      destruct (Z.of_nat (List.length (v T (base T this))) <=? Z.of_nat (List.length (v T (base T A)))) eqn:E'; [reflexivity|].
      apply Z.leb_gt in E'. lia.
    + apply Nat.leb_gt in E. rewrite Hl2.
      destruct (Z.of_nat (List.length (v T (base T this))) <=? _size T (base T A)) eqn:E'; [|reflexivity].
      apply Z.leb_le in E'. lia.
  - now apply array2_reads.
  - rewrite Hl2. rewrite wrap_int_small by (unfold is_int, INT_MIN, INT_MAX in *; lia).
    apply array2_at_fault; unfold is_int, INT_MIN, INT_MAX in *; lia.
Qed.

End Facts.

End CompoundFacts.

(** * Array.h: compound operators with a scalar *)

Module ScalarFacts.

Import ArrayH Spec ArrayFacts CompoundFacts.

Section Facts.

Variable T : Type.

Lemma scalar_loop_ok (f : T -> T) :
  forall (rest done : list T),
    scalar_loop T f (seq (List.length done) (List.length rest)) (done ++ rest)
    = (done ++ map f rest, Normal tt).
Proof.
  induction rest as [|x rest IH]; intros done.
  - reflexivity.
  - simpl List.length. simpl seq. simpl scalar_loop.
    rewrite nth_error_app2 by lia. rewrite Nat.sub_diag. simpl nth_error.
    cbv beta iota. rewrite upd_app_here.
    replace (done ++ f x :: rest) with ((done ++ [f x]) ++ rest)
      by (rewrite <- app_assoc; reflexivity).
    replace (S (List.length done)) with (List.length (done ++ [f x]))
      by (rewrite length_app; simpl; lia).
    rewrite IH. rewrite <- app_assoc. reflexivity.
Qed.

(** [array1]: [this op= a] touches every element. *)
Lemma array1_scalar_spec (f : T -> T) (this : array1 T) :
  Z.of_nat (List.length (v T this)) = _size T this ->
  test T this allocated <> 0 \/ _size T this <> 0 ->
  array1_scalar T false f this = (with_block T this (map f (v T this)), Normal tt).
Proof.
  intros Hlen Hcs. unfold array1_scalar.
  rewrite CheckSize_passes by exact Hcs.
  unfold indices. rewrite <- Hlen, Nat2Z.id.
  pose proof (scalar_loop_ok f (v T this) []) as H. simpl in H.
  now rewrite H.
Qed.

Lemma stride_loop_eq (fuel : nat) (f : T -> T) (size inc i : Z) (blk : list T) :
  stride_loop T fuel f size inc i blk =
  if i <? size then
    match fuel with
    | O => None
    | S fuel' =>
        match nth_error blk (Z.to_nat i) with
        | Some x =>
            stride_loop T fuel' f size inc (wrap_uint (i + inc))
                        (upd (Z.to_nat i) (f x) blk)
        | None => Some (blk, Undefined)
        end
    end
  else Some (blk, Normal tt).
Proof. destruct fuel; reflexivity. Qed.

(** The loop with stride [inc], when the counter cannot wrap: it ends,
    and it has rewritten the positions [i, i+inc, i+2*inc, ...]. *)
Lemma stride_loop_spec (f : T -> T) (size inc : Z) :
  0 < inc -> size + inc <= UINT_MOD ->
  forall (fuel : nat) (i : Z) (blk : list T),
    0 <= i ->
    Z.of_nat (List.length blk) = size ->
    size - i <= Z.of_nat fuel ->
    exists blk',
      stride_loop T fuel f size inc i blk = Some (blk', Normal tt)
      /\ List.length blk' = List.length blk
      /\ forall j : nat,
          nth_error blk' j =
          if (i <=? Z.of_nat j) && ((Z.of_nat j - i) mod inc =? 0)
          then option_map f (nth_error blk j)
          else nth_error blk j.
Proof.
  intros Hinc Hnowrap. induction fuel as [|fuel IH]; intros i blk Hi Hlen Hfuel;
    rewrite stride_loop_eq.
  - destruct (i <? size) eqn:E; [apply Z.ltb_lt in E; lia|].
    apply Z.ltb_ge in E. exists blk. repeat split.
    intros j. destruct (i <=? Z.of_nat j) eqn:Ej; [|reflexivity].
    apply Z.leb_le in Ej.
    assert (Hnone : nth_error blk j = None) by (apply nth_error_None; lia).
    rewrite Hnone. destruct (_ =? 0); reflexivity.
  - destruct (i <? size) eqn:E.
    2:{ apply Z.ltb_ge in E. exists blk. repeat split.
        intros j. destruct (i <=? Z.of_nat j) eqn:Ej; [|reflexivity].
        apply Z.leb_le in Ej.
        assert (Hnone : nth_error blk j = None) by (apply nth_error_None; lia).
        rewrite Hnone. destruct (_ =? 0); reflexivity. }
    apply Z.ltb_lt in E.
    destruct (nth_error blk (Z.to_nat i)) as [x|] eqn:Ex.
    2:{ apply nth_error_None in Ex. lia. }
    rewrite wrap_uint_small by lia.
    destruct (IH (i + inc) (upd (Z.to_nat i) (f x) blk)) as (blk' & Hrun & Hl & Hpt).
    + lia.
    + rewrite length_upd. exact Hlen.
    + lia.
    + exists blk'. split; [exact Hrun|]. split; [now rewrite Hl, length_upd|].
      intros j. rewrite Hpt.
      destruct (Nat.eq_dec j (Z.to_nat i)) as [-> | Hne].
      * rewrite Z2Nat.id by lia.
        replace (i + inc <=? i) with false by (symmetry; apply Z.leb_gt; lia).
        simpl andb. cbv iota.
        rewrite nth_error_upd_eq by lia.
        rewrite Z.leb_refl, Z.sub_diag, Z.mod_0_l by lia. simpl.
        now rewrite Ex.
      * rewrite nth_error_upd_neq by lia.
        assert (Hji : Z.of_nat j <> i) by lia.
        assert (Hmod : (Z.of_nat j - (i + inc)) mod inc = (Z.of_nat j - i) mod inc).
        { replace (Z.of_nat j - (i + inc)) with (Z.of_nat j - i + (-1) * inc) by lia.
          apply Z_mod_plus_full. }
        rewrite Hmod.
        destruct ((Z.of_nat j - i) mod inc =? 0) eqn:Em.
        -- apply Z.eqb_eq in Em.
           destruct (i <=? Z.of_nat j) eqn:E1.
           ++ apply Z.leb_le in E1.
              assert (inc <= Z.of_nat j - i).
              { apply Z.mod_divide in Em; [|lia]. destruct Em as [q Hq].
                assert (0 < q) by nia. nia. }
              replace (i + inc <=? Z.of_nat j) with true
                by (symmetry; apply Z.leb_le; lia).
              reflexivity.
           ++ apply Z.leb_gt in E1.
              replace (i + inc <=? Z.of_nat j) with false
                by (symmetry; apply Z.leb_gt; lia).
              reflexivity.
        -- rewrite !andb_false_r. reflexivity.
Qed.

(** On an [nx] by [ny] array with [nx <= ny + 1], the flat positions that
    are multiples of [ny+1] are those of the main diagonal. *)
Lemma diagonal_positions (nx ny r c : Z) :
  nx <= ny + 1 -> 0 <= r < nx -> 0 <= c < ny ->
  ((r * ny + c) mod (ny + 1) = 0 <-> r = c).
Proof.
  intros Hshape Hr Hc.
  replace (r * ny + c) with (c - r + r * (ny + 1)) by lia.
  rewrite Z_mod_plus_full. split.
  - intros Hm. apply Z.mod_divide in Hm; [|lia].
    destruct Hm as [q Hq].
    assert (q = 0) by nia. nia.
  - intros ->. rewrite Z.sub_diag. apply Z.mod_0_l. lia.
Qed.

(** [array2]: [this op= a] rewrites the flat positions that are multiples
    of [ny+1] and no other. *)
Lemma array2_scalar_spec (f : T -> T) (this : array2 T) (fuel : nat) :
  let n := _size T (base T this) in
  Z.of_nat (List.length (v T (base T this))) = n ->
  0 <= ny T this -> n + ny T this + 1 < UINT_MOD ->
  test T (base T this) allocated <> 0 \/ n <> 0 ->
  n <= Z.of_nat fuel ->
  exists blk',
    array2_scalar T false fuel f this
    = Some (with_base T this (with_block T (base T this) blk'), Normal tt)
    /\ List.length blk' = List.length (v T (base T this))
    /\ forall j : nat,
        nth_error blk' j =
        if Z.of_nat j mod (ny T this + 1) =? 0
        then option_map f (nth_error (v T (base T this)) j)
        else nth_error (v T (base T this)) j.
Proof.
  intros n Hlen Hny Hnowrap Hcs Hfuel. unfold array2_scalar.
  rewrite CheckSize_passes by exact Hcs.
  assert (Hn : 0 <= n) by lia.
  rewrite wrap_uint_small by (unfold UINT_MOD in *; lia).
  destruct (stride_loop_spec f n (ny T this + 1)) with
      (fuel := fuel) (i := 0) (blk := v T (base T this))
    as (blk' & Hrun & Hl & Hpt); try lia.
  fold n. rewrite Hrun. exists blk'. split; [reflexivity|]. split; [exact Hl|].
  intros j. rewrite Hpt. rewrite Z.sub_0_r.
  replace (0 <=? Z.of_nat j) with true by (symmetry; apply Z.leb_le; lia).
  reflexivity.
Qed.

End Facts.

End ScalarFacts.

(** * Array.h: the properties of the design document *)

Module ArrayClaims.

Import ArrayH Spec Examples ArrayFacts CompoundFacts ScalarFacts.

(** ** C8: bounds faults *)

Lemma bounds_fault_shows (dim m i n o : Z) :
  m <> 0 -> n <> 0 -> report_shows (bounds_fault dim m i n o) dim m i.
Proof.
  intros Hm Hn. unfold report_shows, bounds_fault, bound_text.
  apply Z.eqb_neq in Hm, Hn. rewrite Hm, Hn.
  destruct (i <? o); simpl; eexists; eexists; reflexivity.
Qed.

(** C8, as amended.  With checks active, an access whose index lies outside
    the declared range of its dimension -- [0, n), or [o, o+n) for the
    variants with offsets, the shifted index [i - o] being an [int] -- ends
    in a thrown bounds report; no element is read.  The report gives the
    rank of the array, the attempted value, the number of the index unless
    the access is the flat one of an array of higher rank, and the violated
    bound unless the dimension is empty, where it says so instead. *)
Theorem bounds_fault_reported (T : Type) :
  (forall (A : array1 T) (ix : Z),
      is_int ix -> 0 <= _size T A <= INT_MAX ->
      ix < 0 \/ _size T A <= ix ->
      array1_at T false A ix = Thrown (bounds_fault 1 1 ix (_size T A) 0))
  /\ (forall (A : array2 T) (ix iy : Z),
      is_int ix -> 0 <= nx T A <= INT_MAX ->
      ix < 0 \/ nx T A <= ix ->
      array2_at2 T false A ix iy = Thrown (bounds_fault 2 1 ix (nx T A) 0))
  /\ (forall (A : array2 T) (ix iy : Z),
      is_int iy -> 0 <= nx T A <= INT_MAX -> 0 <= ny T A <= INT_MAX ->
      0 <= ix < nx T A ->
      iy < 0 \/ ny T A <= iy ->
      array2_at2 T false A ix iy = Thrown (bounds_fault 2 2 iy (ny T A) 0))
  /\ (forall (A : array2 T) (i : Z),
      is_int i -> 0 <= _size T (base T A) <= INT_MAX ->
      i < 0 \/ _size T (base T A) <= i ->
      array2_at T false A i = Thrown (bounds_fault 2 0 i (_size T (base T A)) 0))
  /\ (forall (A : Array1 T) (ix : Z),
      is_int ix -> is_int (ox1 T A) -> 0 <= _size T (base1 T A) <= INT_MAX ->
      is_int (ix - ox1 T A) ->
      is_int (_size T (base1 T A) + ox1 T A) ->
      is_int (_size T (base1 T A) + ox1 T A - 1) ->
      ix < ox1 T A \/ ox1 T A + _size T (base1 T A) <= ix ->
      Array1_at T false A ix
      = Thrown (bounds_fault 1 1 ix (_size T (base1 T A)) (ox1 T A)))
  /\ (forall (A : Array2 T) (ix iy : Z),
      is_int ix -> is_int (ox2 T A) -> 0 <= nx T (base2 T A) <= INT_MAX ->
      is_int (ix - ox2 T A) ->
      is_int (nx T (base2 T A) + ox2 T A) ->
      is_int (nx T (base2 T A) + ox2 T A - 1) ->
      ix < ox2 T A \/ ox2 T A + nx T (base2 T A) <= ix ->
      Array2_at2 T false A ix iy
      = Thrown (bounds_fault 2 1 ix (nx T (base2 T A)) (ox2 T A)))
  /\ (forall (A : Array2 T) (ix iy : Z),
      is_int (ox2 T A) -> is_int (ix - ox2 T A) ->
      0 <= nx T (base2 T A) <= INT_MAX ->
      ox2 T A <= ix < ox2 T A + nx T (base2 T A) ->
      is_int iy -> is_int (oy2 T A) -> 0 <= ny T (base2 T A) <= INT_MAX ->
      is_int (iy - oy2 T A) ->
      is_int (ny T (base2 T A) + oy2 T A) ->
      is_int (ny T (base2 T A) + oy2 T A - 1) ->
      iy < oy2 T A \/ oy2 T A + ny T (base2 T A) <= iy ->
      Array2_at2 T false A ix iy
      = Thrown (bounds_fault 2 2 iy (ny T (base2 T A)) (oy2 T A)))
  /\ (forall dim m i n o : Z,
      m <> 0 -> n <> 0 -> report_shows (bounds_fault dim m i n o) dim m i).
Proof.
  repeat split.
  - apply array1_at_fault.
  - apply array2_at2_fault_x.
  - apply array2_at2_fault_y.
  - apply array2_at_fault.
  - intros A ix. apply (Array1_at_fault T A ix).
  - intros A ix iy. apply (Array2_at2_fault_x T A ix iy).
  - intros A ix iy. apply (Array2_at2_fault_y T A ix iy).
  - apply bounds_fault_shows.
Qed.

Lemma bounds_fault_reported_witness :
  array1_at Z false three 3 = Thrown (bounds_fault 1 1 3 3 0)
  /\ Array1_at Z false three_from_5 4 = Thrown (bounds_fault 1 1 4 3 5)
  /\ render (bounds_fault 1 1 4 3 5)
     = "ERROR: Array1 index 1 is out of bounds (4 < 5)."%string.
Proof.
  destruct (bounds_fault_reported Z) as (H1 & _ & _ & _ & H5 & _).
  split; [|split].
  - apply (H1 three 3); unfold is_int, INT_MIN, INT_MAX; simpl; lia.
  - apply (H5 three_from_5 4); unfold is_int, INT_MIN, INT_MAX; simpl; lia.
  - reflexivity.
Defined.

(** C8 as stated fails: on an empty array the report names no bound, and
    on the flat access of an [array2] it does not say which index. *)
Lemma bounds_report_not_always_complete :
  (array1_at Z false empty1 0
   = Thrown [Str "ERROR: "; Str "Array"; Num 1; Str " index "; Num 1; Str " ";
             Str "is out of bounds ("; Num 0;
             Str " index given to empty array"; Str ")"; Str "."]
   /\ forall msg m, array1_at Z false empty1 0 = Thrown msg ->
                    ~ report_shows msg 1 m 0)
  /\ (array2_at Z false square2 5
      = Thrown [Str "ERROR: "; Str "Array"; Num 2; Str " index ";
                Str "is out of bounds ("; Num 5; Str " > "; Num 3;
                Str ")"; Str "."]
      /\ forall msg m, array2_at Z false square2 5 = Thrown msg ->
                       ~ report_shows msg 2 m 5).
Proof.
  split; split; try reflexivity.
  - intros msg m H (cmp & bound & E). subst msg. vm_compute in H. discriminate H.
  - intros msg m H (cmp & bound & E). subst msg. vm_compute in H. discriminate H.
Qed.

(** The overflow of [i - o]: an [Array1] made from a pointer has [INT_MAX]
    elements; with offset 2 the index [INT_MIN] passes the check. *)
Lemma offset_check_wraps :
  __check_off false INT_MIN INT_MAX 2 1 1 = Normal tt.
Proof. reflexivity. Qed.

(** ** C7: operators between two arrays *)

(** C7, as amended.  With checks active the operators [+=], [-=], [*=]
    between two arrays compare no shapes.  When the right operand has at
    least as many elements as the left one the call returns and the
    elements of the left one are combined, in flat order, with those of
    the right one.  When it has fewer, [k] say, the call ends in the bounds
    report of the right operand for index [k], the first [k] elements
    having been combined already. *)
Theorem compound_checks_bounds_only (T : Type) (op : T -> T -> T) :
  (forall this A : array1 T,
      well_formed1 T this -> well_formed1 T A ->
      test T this allocated <> 0 \/ _size T this <> 0 ->
      array1_compound T false op this A =
      if _size T this <=? _size T A
      then (with_block T this
              (zip_first op (List.length (v T this)) (v T this) (v T A)),
            Normal tt)
      else (with_block T this
              (zip_first op (List.length (v T A)) (v T this) (v T A)),
            Thrown (bounds_fault 1 1 (_size T A) (_size T A) 0)))
  /\ (forall this A : array2 T,
      well_formed1 T (base T this) -> well_formed1 T (base T A) ->
      test T (base T this) allocated <> 0 \/ _size T (base T this) <> 0 ->
      array2_compound T false op this A =
      if _size T (base T this) <=? _size T (base T A)
      then (with_base T this (with_block T (base T this)
              (zip_first op (Z.to_nat (_size T (base T this)))
                         (v T (base T this)) (v T (base T A)))),
            Normal tt)
      else (with_base T this (with_block T (base T this)
              (zip_first op (Z.to_nat (_size T (base T A)))
                         (v T (base T this)) (v T (base T A)))),
            Thrown (bounds_fault 2 0 (_size T (base T A)) (_size T (base T A)) 0))).
Proof.
  split.
  - apply array1_compound_spec.
  - intros this A H1 H2 H3. apply (array2_compound_spec T op this A H1 H2 H3).
Qed.

Lemma compound_checks_bounds_only_witness :
  array1_compound Z false Z.add three two
  = (mk_array1 Z [11; 22; 30] 3 allocated, Thrown (bounds_fault 1 1 2 2 0)).
Proof.
  rewrite (proj1 (compound_checks_bounds_only Z Z.add) three two).
  - reflexivity.
  - unfold well_formed1, INT_MAX; simpl; lia.
  - unfold well_formed1, INT_MAX; simpl; lia.
  - left. vm_compute. discriminate.
Defined.

(** C7 as stated fails: operands of different shapes, no fault, and the
    operation is carried out. *)
Lemma mismatched_shapes_not_reported :
  array1_compound Z false Z.add two three
  = (mk_array1 Z [11; 22] 2 allocated, Normal tt)
  /\ array2_compound Z false Z.add wide tall
     = (mk_array2 Z (mk_array1 Z [11; 22; 33; 44; 55; 66] 6 allocated) 2 3,
        Normal tt).
Proof. split; reflexivity. Qed.

(** ** C10: operators with a scalar *)

(** C10, as amended.  On an [array2] the operators [+= a] and [-= a]
    rewrite the elements whose flat position is a multiple of [ny+1] and
    leave every other element as it was; when [nx <= ny+1], a square array
    in particular, these are the elements [(i,i)] of the main diagonal.
    On an [array1] the same operators rewrite every element. *)
Theorem scalar_ops_stride (T : Type) (f : T -> T) :
  (forall (this : array2 T) (fuel : nat),
      Z.of_nat (List.length (v T (base T this))) = _size T (base T this) ->
      0 <= ny T this ->
      _size T (base T this) + ny T this + 1 < UINT_MOD ->
      test T (base T this) allocated <> 0 \/ _size T (base T this) <> 0 ->
      _size T (base T this) <= Z.of_nat fuel ->
      exists blk',
        array2_scalar T false fuel f this
        = Some (with_base T this (with_block T (base T this) blk'), Normal tt)
        /\ List.length blk' = List.length (v T (base T this))
        /\ forall j : nat,
            nth_error blk' j =
            if Z.of_nat j mod (ny T this + 1) =? 0
            then option_map f (nth_error (v T (base T this)) j)
            else nth_error (v T (base T this)) j)
  /\ (forall nx ny r c : Z,
      nx <= ny + 1 -> 0 <= r < nx -> 0 <= c < ny ->
      ((r * ny + c) mod (ny + 1) = 0 <-> r = c))
  /\ (forall this : array1 T,
      Z.of_nat (List.length (v T this)) = _size T this ->
      test T this allocated <> 0 \/ _size T this <> 0 ->
      array1_scalar T false f this
      = (with_block T this (map f (v T this)), Normal tt)).
Proof.
  split; [|split].
  - intros this fuel. apply (array2_scalar_spec T f this fuel).
  - apply diagonal_positions.
  - apply array1_scalar_spec.
Qed.

Lemma scalar_ops_stride_witness :
  array1_scalar Z false (Z.add 1) three
  = (mk_array1 Z [11; 21; 31] 3 allocated, Normal tt)
  /\ exists blk',
      array2_scalar Z false 4 (Z.add 1) square2
      = Some (with_base Z square2 (with_block Z (base Z square2) blk'), Normal tt)
      /\ nth_error blk' 0 = Some 2 /\ nth_error blk' 1 = Some 2
      /\ nth_error blk' 2 = Some 3 /\ nth_error blk' 3 = Some 5.
Proof.
  destruct (scalar_ops_stride Z (Z.add 1)) as (H2 & _ & H1).
  split.
  - rewrite (H1 three); [reflexivity | reflexivity | left; vm_compute; discriminate].
  - destruct (H2 square2 4%nat) as (blk' & Hrun & _ & Hpt).
    + reflexivity.
    + simpl; lia.
    + unfold UINT_MOD; simpl; lia.
    + left; vm_compute; discriminate.
    + simpl; lia.
    + exists blk'. split; [exact Hrun|].
      repeat split; rewrite Hpt; reflexivity.
Defined.

(** C10 as stated fails: on a 4 by 2 array, [+= 1] changes the element
    [(3,0)], at flat position [3*2+0], which is off the diagonal. *)
Lemma scalar_op_leaves_diagonal :
  array2_scalar Z false 8 (Z.add 1) tall42
  = Some (mk_array2 Z (mk_array1 Z [1; 0; 0; 1; 0; 0; 1; 0] 8 allocated) 4 2,
          Normal tt)
  /\ array2_at2 Z false tall42 3 0 = Normal 0
  /\ array2_at2 Z false
       (mk_array2 Z (mk_array1 Z [1; 0; 0; 1; 0; 0; 1; 0] 8 allocated) 4 2) 3 0
     = Normal 1.
Proof. repeat split; reflexivity. Qed.

End ArrayClaims.

(** * RotationMap.cpp: the loops *)

Module RotationFacts.

Import RotationMap Spec.

Lemma upd_same {A : Type} (n : nat) (d : A) (l : list A) :
  upd n (nth n l d) l = l.
Proof.
  revert n; induction l as [|h t IH]; intros [|n]; simpl; auto.
  now rewrite IH.
Qed.

(** Two nested counting loops that write position [p x y] in turn
    [(x, y)]: what is found at [p a b] afterwards. *)
Lemma grid_steps {A : Type} (N M : nat) (p : nat -> nat -> nat)
      (g : nat -> nat -> A -> A) (d : A) (l : list A) :
  let run :=
    fold_left
      (fun l x =>
         fold_left (fun l y => upd (p x y) (g x y (nth (p x y) l d)) l)
                   (seq 0 M) l)
      (seq 0 N) l in
  List.length run = List.length l
  /\ forall a b,
      (forall x y x' y', (x < N)%nat -> (y < M)%nat -> (x' < N)%nat -> (y' < M)%nat ->
                         p x y = p x' y' -> x = x' /\ y = y') ->
      (a < N)%nat -> (b < M)%nat -> (p a b < List.length l)%nat ->
      nth (p a b) run d = g a b (nth (p a b) l d).
Proof.
  intros run. subst run.
  rewrite (nested_fold (fun x y l => upd (p x y) (g x y (nth (p x y) l d)) l)).
  pose (pos := fun ab : nat * nat => p (fst ab) (snd ab)).
  pose (gg := fun (ab : nat * nat) (r : A) => g (fst ab) (snd ab) r).
  change (fold_left _ (list_prod (seq 0 N) (seq 0 M)) l)
    with (fold_left (step pos gg d) (list_prod (seq 0 N) (seq 0 M)) l).
  split.
  - apply steps_length.
  - intros a b Hinj Ha Hb Hlen.
    apply (steps_written pos gg d (list_prod (seq 0 N) (seq 0 M)) l (a, b)).
    + apply NoDup_list_prod; apply seq_NoDup.
    + intros [x y] [x' y'] H1 H2 E.
      apply in_prod_iff in H1 as [H1x H1y]. apply in_prod_iff in H2 as [H2x H2y].
      apply in_seq in H1x, H1y, H2x, H2y.
      destruct (Hinj x y x' y') as [-> ->]; auto; lia.
    + apply in_prod_iff. split; apply in_seq; lia.
    + exact Hlen.
Qed.

Lemma kernel_position_inj (N x y x' y' : nat) :
  (x < N)%nat -> (x' < N)%nat ->
  (y * N + x = y' * N + x')%nat -> x = x' /\ y = y'.
Proof.
  intros Hx Hx' E.
  assert (Hy : y = y').
  { destruct (Nat.lt_trichotomy y y') as [H | [H | H]]; auto; exfalso.
    - assert ((y + 1) * N <= y' * N)%nat by (apply Nat.mul_le_mono_r; lia). lia.
    - assert ((y' + 1) * N <= y * N)%nat by (apply Nat.mul_le_mono_r; lia). lia. }
  subst y'. split; [lia | reflexivity].
Qed.

Section Builder.

Variable INTERPOL_TYPE : nat.
Variable ROTATION_TYPE : Z.
Variables _xsize _ysize : Z.
Variables cos_dt sin_dt : Q.

Local Abbreviation N := INTERPOL_TYPE.

Lemma assemble_length (icq icp : list Q) :
  List.length (assemble N icq icp) = (N * N)%nat.
Proof.
  unfold assemble.
  pose proof (grid_steps N N (fun hmq hmp => (hmp * N + hmq)%nat)
                (fun hmq hmp _ => (nth hmp icq 0 * nth hmq icp 0)%Q) 0%Q
                (repeat 0%Q (N * N))) as [Hl _].
  cbv beta in Hl. rewrite Hl. apply repeat_length.
Qed.

(** Lines 132-136 in closed form. *)
Lemma assemble_nth (icq icp : list Q) (a b : nat) :
  (a < N)%nat -> (b < N)%nat ->
  nth (a * N + b) (assemble N icq icp) 0%Q = (nth a icq 0 * nth b icp 0)%Q.
Proof.
  intros Ha Hb. unfold assemble.
  pose proof (grid_steps N N (fun hmq hmp => (hmp * N + hmq)%nat)
                (fun hmq hmp _ => (nth hmp icq 0 * nth hmq icp 0)%Q) 0%Q
                (repeat 0%Q (N * N))) as [_ Hn].
  cbv beta in Hn. apply (Hn b a); auto.
  - intros x y x' y' Hx Hy Hx' Hy'. now apply kernel_position_inj.
  - rewrite repeat_length. nia.
Qed.

Lemma write_row_length (id jd : Z) (hmc : list Q) (row : list hi) :
  List.length (write_row N _xsize _ysize id jd hmc row) = List.length row.
Proof.
  unfold write_row.
  pose proof (grid_steps N N (fun j1 i1 => (i1 * N + j1)%nat)
                (fun j1 i1 _ => entry N _xsize _ysize id jd hmc i1 j1) hi0 row)
    as [Hl _].
  exact Hl.
Qed.

(** Lines 143-156 in closed form. *)
Lemma write_row_nth (id jd : Z) (hmc : list Q) (row : list hi) (i1 j1 : nat) :
  List.length row = (N * N)%nat ->
  (i1 < N)%nat -> (j1 < N)%nat ->
  nth (i1 * N + j1) (write_row N _xsize _ysize id jd hmc row) hi0
  = entry N _xsize _ysize id jd hmc i1 j1.
Proof.
  intros Hlen Hi Hj. unfold write_row.
  pose proof (grid_steps N N (fun j1 i1 => (i1 * N + j1)%nat)
                (fun j1 i1 _ => entry N _xsize _ysize id jd hmc i1 j1) hi0 row)
    as [_ Hn].
  cbv beta in Hn. apply (Hn j1 i1); auto.
  - intros x y x' y' Hx Hy Hx' Hy'. now apply kernel_position_inj.
  - rewrite Hlen. nia.
Qed.

Local Abbreviation point_row :=
  (Spec.point_row INTERPOL_TYPE ROTATION_TYPE _xsize _ysize cos_dt sin_dt).

Lemma point_row_length (q_i p_i : Z) :
  List.length (point_row q_i p_i) = (N * N)%nat.
Proof.
  unfold Spec.point_row.
  destruct (coords _ _ _ _ _ _ _) as [qc pc].
  destruct (_ && _); [rewrite write_row_length|]; apply repeat_length.
Qed.

Lemma flat_inj (x y x' y' : nat) :
  (y < Z.to_nat _ysize)%nat -> (y' < Z.to_nat _ysize)%nat ->
  flat _ysize (Z.of_nat x) (Z.of_nat y) = flat _ysize (Z.of_nat x') (Z.of_nat y') ->
  x = x' /\ y = y'.
Proof.
  unfold flat. intros Hy Hy' E.
  assert (H0 : 0 < _ysize) by lia.
  apply Z2Nat.inj in E; try nia.
  assert (Hy2 : Z.of_nat y < _ysize) by lia.
  assert (Hy2' : Z.of_nat y' < _ysize) by lia.
  assert (Hx : Z.of_nat x = Z.of_nat x').
  { destruct (Z.lt_trichotomy (Z.of_nat x) (Z.of_nat x')) as [H | [H | H]]; auto; exfalso.
    - assert ((Z.of_nat x + 1) * _ysize <= Z.of_nat x' * _ysize)
        by (apply Z.mul_le_mono_nonneg_r; lia). lia.
    - assert ((Z.of_nat x' + 1) * _ysize <= Z.of_nat x * _ysize)
        by (apply Z.mul_le_mono_nonneg_r; lia). lia. }
  rewrite Hx in E. split; lia.
Qed.

Lemma build_point_step (q_i p_i : Z) (hm : heritage_map) :
  build_point N ROTATION_TYPE _xsize _ysize cos_dt sin_dt q_i p_i hm
  = upd (flat _ysize q_i p_i)
        (let '(qcoord, pcoord) := coords ROTATION_TYPE _xsize _ysize cos_dt sin_dt q_i p_i in
         let id := to_uint (snd (modf qcoord)) in
         let jd := to_uint (snd (modf pcoord)) in
         if (id <? _xsize) && (jd <? _ysize) then
           write_row N _xsize _ysize id jd
                     (assemble N (interpol_coeffs N (fst (modf qcoord)))
                               (interpol_coeffs N (fst (modf pcoord))))
                     (nth (flat _ysize q_i p_i) hm [])
         else nth (flat _ysize q_i p_i) hm [])
        hm.
Proof.
  unfold build_point.
  destruct (coords _ _ _ _ _ _ _) as [qc pc].
  unfold modf. cbv beta iota zeta. simpl fst. simpl snd.
  destruct (_ && _); [reflexivity|].
  now rewrite upd_same.
Qed.

(** Lines 31-159: the row of every target after the two loops. *)
Lemma RotationMap_row (q_i p_i : Z) :
  0 <= q_i < _xsize -> 0 <= p_i < _ysize ->
  nth (flat _ysize q_i p_i)
      (RotationMap N ROTATION_TYPE _xsize _ysize cos_dt sin_dt) []
  = point_row q_i p_i.
Proof.
  intros Hq Hp. unfold RotationMap.
  pose (g := fun (x y : nat) (row : list hi) =>
    let '(qcoord, pcoord) :=
      coords ROTATION_TYPE _xsize _ysize cos_dt sin_dt (Z.of_nat x) (Z.of_nat y) in
    let id := to_uint (snd (modf qcoord)) in
    let jd := to_uint (snd (modf pcoord)) in
    if (id <? _xsize) && (jd <? _ysize) then
      write_row N _xsize _ysize id jd
                (assemble N (interpol_coeffs N (fst (modf qcoord)))
                          (interpol_coeffs N (fst (modf pcoord))))
                row
    else row).
  pose proof (grid_steps (Z.to_nat _xsize) (Z.to_nat _ysize)
                (fun x y => flat _ysize (Z.of_nat x) (Z.of_nat y)) g []
                (HeritageMap _xsize _ysize (N * N))) as [_ Hn].
  cbv beta in Hn.
  specialize (Hn (Z.to_nat q_i) (Z.to_nat p_i)).
  rewrite !Z2Nat.id in Hn by lia.
  etransitivity; [|etransitivity; [apply Hn|]].
  - f_equal. apply fold_left_ext. intros hm x.
    apply fold_left_ext. intros hm' y.
    rewrite build_point_step. reflexivity.
  - intros x y x' y' Hx Hy Hx' Hy'. now apply flat_inj.
  - lia.
  - lia.
  - unfold HeritageMap. rewrite repeat_length. unfold flat. nia.
  - unfold g, Spec.point_row. rewrite !Z2Nat.id by lia.
    assert (E : nth (flat _ysize q_i p_i) (HeritageMap _xsize _ysize (N * N)) []
                = repeat hi0 (N * N)).
    { unfold HeritageMap. apply nth_repeat_lt. unfold flat. nia. }
    rewrite E. reflexivity.
Qed.

Lemma RotationMap_length :
  List.length (RotationMap N ROTATION_TYPE _xsize _ysize cos_dt sin_dt)
  = Z.to_nat (_xsize * _ysize).
Proof.
  unfold RotationMap.
  transitivity (List.length (HeritageMap _xsize _ysize (N * N))).
  2:{ unfold HeritageMap. apply repeat_length. }
  generalize (HeritageMap _xsize _ysize (N * N)).
  induction (seq 0 (Z.to_nat _xsize)) as [|x xs IH]; intros hm; simpl; [reflexivity|].
  rewrite IH. clear IH.
  revert hm. induction (seq 0 (Z.to_nat _ysize)) as [|y ys IH]; intros hm; simpl; [reflexivity|].
  rewrite IH. rewrite build_point_step. apply length_upd.
Qed.

End Builder.

Section Apply.

Variable INTERPOL_TYPE : nat.
Variable INTERPOL_SATURATING : bool.
Variables limits_min limits_max : Q.
Variable hm : heritage_map.
Variable _ip : nat.

(** Lines 202-220: each turn of the outer loop writes its own target. *)
Lemma apply_nth (_size : nat) (data_in data_out : list Q) (i : nat) :
  (i < _size)%nat -> (_size <= List.length data_out)%nat ->
  nth i (RotationMap.apply INTERPOL_TYPE INTERPOL_SATURATING limits_min limits_max
           hm _ip _size data_in data_out) 0%Q
  = apply_value INTERPOL_TYPE INTERPOL_SATURATING limits_min limits_max
      hm _ip data_in i.
Proof.
  intros Hi Hlen. unfold RotationMap.apply.
  pose (g := fun (k : nat) (_ : Q) =>
               apply_value INTERPOL_TYPE INTERPOL_SATURATING limits_min limits_max
                           hm _ip data_in k).
  change (fold_left _ (seq 0 _size) data_out)
    with (fold_left (step (fun k : nat => k) g 0%Q) (seq 0 _size) data_out).
  rewrite (steps_written (fun k : nat => k) g 0%Q (seq 0 _size) data_out i).
  - reflexivity.
  - apply seq_NoDup.
  - intros a b _ _ E. exact E.
  - apply in_seq. lia.
  - lia.
Qed.

Lemma apply_length (_size : nat) (data_in data_out : list Q) :
  List.length (RotationMap.apply INTERPOL_TYPE INTERPOL_SATURATING limits_min
                 limits_max hm _ip _size data_in data_out)
  = List.length data_out.
Proof.
  unfold RotationMap.apply.
  pose (g := fun (k : nat) (_ : Q) =>
               apply_value INTERPOL_TYPE INTERPOL_SATURATING limits_min limits_max
                           hm _ip data_in k).
  change (fold_left _ (seq 0 _size) data_out)
    with (fold_left (step (fun k : nat => k) g 0%Q) (seq 0 _size) data_out).
  apply steps_length.
Qed.

(** The sum of lines 203-207, over the entries of the row in order. *)
Lemma accumulate_row (data_in : list Q) (i : nat) :
  List.length (nth i hm []) = _ip ->
  accumulate hm _ip data_in i
  = fold_left (fun acc h => (acc + sample data_in (index h) * weight h)%Q)
              (nth i hm []) 0%Q.
Proof.
  unfold accumulate. intros <-.
  generalize 0%Q. generalize (nth i hm []). intros row.
  assert (H : forall (done : list hi) (acc : Q),
             fold_left (fun acc j =>
                          (acc + sample data_in (index (nth j (done ++ row) hi0))
                                 * weight (nth j (done ++ row) hi0))%Q)
                       (seq (List.length done) (List.length row)) acc
             = fold_left (fun acc h => (acc + sample data_in (index h) * weight h)%Q)
                         row acc).
  { induction row as [|h row IH]; intros done acc; simpl; [reflexivity|].
    rewrite app_nth2 by lia. rewrite Nat.sub_diag. simpl nth.
    specialize (IH (done ++ [h])).
    rewrite length_app in IH. simpl in IH.
    replace (List.length done + 1)%nat with (S (List.length done)) in IH by lia.
    rewrite <- IH. apply fold_left_ext. intros acc0 j.
    now rewrite <- app_assoc. }
  intros acc. apply (H [] acc).
Qed.

End Apply.

End RotationFacts.

(** * RotationMap.cpp: kernel weights and stencil entries *)

Module KernelFacts.

Import RotationMap Spec RotationFacts.

Lemma interpol_coeffs_length (N : nat) (x : Q) :
  List.length (interpol_coeffs N x) = N.
Proof.
  destruct N as [|[|[|[|[|N]]]]]; try reflexivity.
  unfold interpol_coeffs. apply repeat_length.
Qed.

(** Partition of unity of the four kernels. *)
Lemma interpol_coeffs_sum (N : nat) (x : Q) :
  (1 <= N <= 4)%nat -> (Qsum (interpol_coeffs N x) == 1)%Q.
Proof.
  intros HN.
  destruct N as [|[|[|[|[|N]]]]]; try lia; unfold Qsum; simpl; field.
Qed.


(** ** Sums over a row *)

Lemma Qsum_app (l1 l2 : list Q) : (Qsum (l1 ++ l2) == Qsum l1 + Qsum l2)%Q.
Proof.
  unfold Qsum. induction l1 as [|x l1 IH]; simpl; [ring|].
  rewrite IH. ring.
Qed.

Lemma Qsum_map_ext {A : Type} (F G : A -> Q) (l : list A) :
  (forall k, In k l -> (F k == G k)%Q) ->
  (Qsum (map F l) == Qsum (map G l))%Q.
Proof.
  unfold Qsum. induction l as [|k l IH]; intros H; simpl; [reflexivity|].
  rewrite (H k) by (now left). rewrite IH; [reflexivity|].
  intros; apply H; now right.
Qed.

Lemma Qsum_map_scale {A : Type} (c : Q) (F : A -> Q) (l : list A) :
  (Qsum (map (fun k => c * F k) l) == c * Qsum (map F l))%Q.
Proof.
  unfold Qsum. induction l as [|k l IH]; simpl; [ring|].
  rewrite IH. ring.
Qed.

Lemma Qsum_map_scale_r {A : Type} (c : Q) (F : A -> Q) (l : list A) :
  (Qsum (map (fun k => F k * c) l) == Qsum (map F l) * c)%Q.
Proof.
  unfold Qsum. induction l as [|k l IH]; simpl; [ring|].
  rewrite IH. ring.
Qed.

Lemma list_as_map_seq {A : Type} (d : A) (l : list A) :
  l = map (fun k => nth k l d) (seq 0 (List.length l)).
Proof.
  induction l as [|x l IH]; simpl; [reflexivity|].
  f_equal. rewrite <- seq_shift, map_map. exact IH.
Qed.

(** A sum over [M*N] consecutive positions, taken block by block. *)
Lemma Qsum_blocks (M N : nat) (F : nat -> Q) :
  (Qsum (map F (seq 0 (M * N)))
   == Qsum (map (fun a => Qsum (map (fun b => F (a * N + b)%nat) (seq 0 N)))
                (seq 0 M)))%Q.
Proof.
  induction M as [|M IH].
  - reflexivity.
  - replace (S M * N)%nat with (M * N + N)%nat by lia.
    rewrite seq_app, map_app, Qsum_app, IH.
    rewrite seq_S, map_app, Qsum_app. simpl map at 4.
    apply Qplus_comp; [reflexivity|].
    unfold Qsum at 2. simpl fold_right. rewrite Qplus_0_r.
    simpl plus.
    rewrite <- (map_map (fun b => (M * N + b)%nat) F).
    assert (E : map (fun b => (M * N + b)%nat) (seq 0 N) = seq (M * N) N).
    { clear. generalize (M * N)%nat as s. induction N as [|N IH]; intros s.
      - reflexivity.
      - rewrite !seq_S, map_app, IH. simpl. reflexivity. }
    rewrite E. reflexivity.
Qed.

Section Entries.

Variable INTERPOL_TYPE : nat.
Variables _xsize _ysize : Z.

Local Abbreviation N := INTERPOL_TYPE.

Lemma half_width_bounds :
  0 <= half_width N /\ half_width N <= Z.of_nat N
  /\ (1 <= Z.of_nat N -> half_width N <= Z.of_nat N - 1).
Proof.
  unfold half_width. destruct N as [|n].
  - repeat split; try (vm_compute; discriminate). simpl. lia.
  - replace (Z.of_nat (S n) - 1) with (Z.of_nat n) by lia.
    assert (Z.quot (Z.of_nat n) 2 <= Z.of_nat n)
      by (apply Z.quot_le_upper_bound; lia).
    repeat split; try lia.
    apply Z.quot_pos; lia.
Qed.

(** Lines 144-152 without the machine reductions, for a grid whose
    dimensions leave room for the kernel in [unsigned int]. *)
Lemma entry_closed (id jd : Z) (hmc : list Q) (i1 j1 : nat) :
  _xsize + Z.of_nat N <= UINT_MOD -> _ysize + Z.of_nat N <= UINT_MOD ->
  _xsize * _ysize <= UINT_MOD ->
  0 <= id < _xsize -> 0 <= jd < _ysize ->
  (i1 < N)%nat -> (j1 < N)%nat ->
  let i0 := id + Z.of_nat i1 - half_width N in
  let j0 := jd + Z.of_nat j1 - half_width N in
  entry N _xsize _ysize id jd hmc i1 j1 =
  if in_grid _xsize _ysize i0 j0
  then mk_hi (i0 * _ysize + j0) (nth (i1 * N + j1) hmc 0%Q)
  else hi0.
Proof.
  intros Hx Hy Hxy Hid Hjd Hi Hj i0 j0.
  pose proof half_width_bounds as (Hw0 & Hw1 & _).
  unfold entry, in_grid. fold i0. fold j0.
  assert (Wi : wrap_uint i0 = if 0 <=? i0 then i0 else i0 + UINT_MOD).
  { destruct (0 <=? i0) eqn:E.
    - apply Z.leb_le in E. apply wrap_uint_small. subst i0. lia.
    - apply Z.leb_gt in E. apply wrap_uint_neg. subst i0. unfold UINT_MOD in *. lia. }
  assert (Wj : wrap_uint j0 = if 0 <=? j0 then j0 else j0 + UINT_MOD).
  { destruct (0 <=? j0) eqn:E.
    - apply Z.leb_le in E. apply wrap_uint_small. subst j0. lia.
    - apply Z.leb_gt in E. apply wrap_uint_neg. subst j0. unfold UINT_MOD in *. lia. }
  rewrite Wi, Wj.
  destruct (0 <=? i0) eqn:Ei; destruct (0 <=? j0) eqn:Ej; simpl.
  - destruct (i0 <? _xsize) eqn:Ex; destruct (j0 <? _ysize) eqn:Ey; simpl; try reflexivity.
    apply Z.leb_le in Ei, Ej. apply Z.ltb_lt in Ex, Ey.
    rewrite wrap_uint_small; [reflexivity|]. nia.
  - apply Z.leb_gt in Ej.
    replace (j0 + UINT_MOD <? _ysize) with false
      by (symmetry; apply Z.ltb_ge; subst j0; lia).
    now rewrite !andb_false_r.
  - apply Z.leb_gt in Ei.
    replace (i0 + UINT_MOD <? _xsize) with false
      by (symmetry; apply Z.ltb_ge; subst i0; lia).
    reflexivity.
  - apply Z.leb_gt in Ei.
    replace (i0 + UINT_MOD <? _xsize) with false
      by (symmetry; apply Z.ltb_ge; subst i0; lia).
    reflexivity.
Qed.

End Entries.

Section Rows.

Variable INTERPOL_TYPE : nat.
Variable ROTATION_TYPE : Z.
Variables _xsize _ysize : Z.
Variables cos_dt sin_dt : Q.

Local Abbreviation N := INTERPOL_TYPE.
Local Abbreviation cell := (source_cell ROTATION_TYPE _xsize _ysize cos_dt sin_dt).
Local Abbreviation offset := (source_offset ROTATION_TYPE _xsize _ysize cos_dt sin_dt).
Local Abbreviation row := (point_row N ROTATION_TYPE _xsize _ysize cos_dt sin_dt).

Lemma to_uint_range (x : Q) : 0 <= to_uint x < UINT_MOD.
Proof. unfold to_uint, wrap_uint. apply Z.mod_pos_bound. reflexivity. Qed.

(** The entries of the row of a target whose source cell is on the grid. *)
Lemma point_row_entry (q_i p_i : Z) (a b : nat) :
  _xsize + Z.of_nat N <= UINT_MOD -> _ysize + Z.of_nat N <= UINT_MOD ->
  _xsize * _ysize <= UINT_MOD ->
  fst (cell q_i p_i) < _xsize -> snd (cell q_i p_i) < _ysize ->
  (a < N)%nat -> (b < N)%nat ->
  let i0 := fst (cell q_i p_i) + Z.of_nat a - half_width N in
  let j0 := snd (cell q_i p_i) + Z.of_nat b - half_width N in
  nth (a * N + b) (row q_i p_i) hi0 =
  if in_grid _xsize _ysize i0 j0
  then mk_hi (i0 * _ysize + j0)
             (nth a (interpol_coeffs N (fst (offset q_i p_i))) 0
              * nth b (interpol_coeffs N (snd (offset q_i p_i))) 0)%Q
  else hi0.
Proof.
  intros Hx Hy Hxy. unfold source_cell, source_offset, point_row.
  destruct (coords _ _ _ _ _ _ _) as [qc pc]. simpl fst. simpl snd.
  intros Hid Hjd Ha Hb.
  pose proof (to_uint_range (inject_Z (Qtrunc qc))) as Rq.
  pose proof (to_uint_range (inject_Z (Qtrunc pc))) as Rp.
  replace (_ <? _xsize) with true by (symmetry; apply Z.ltb_lt; exact Hid).
  replace (_ <? _ysize) with true by (symmetry; apply Z.ltb_lt; exact Hjd).
  simpl andb. cbv iota.
  rewrite write_row_nth; auto using repeat_length.
  rewrite entry_closed; auto; try lia.
  rewrite assemble_nth by assumption. reflexivity.
Qed.

(** Total weight of a row all of whose cells are on the grid. *)
Lemma point_row_weight (q_i p_i : Z) :
  (1 <= N <= 4)%nat ->
  _xsize + Z.of_nat N <= UINT_MOD -> _ysize + Z.of_nat N <= UINT_MOD ->
  _xsize * _ysize <= UINT_MOD ->
  half_width N <= fst (cell q_i p_i) ->
  fst (cell q_i p_i) + Z.of_nat N - 1 - half_width N < _xsize ->
  half_width N <= snd (cell q_i p_i) ->
  snd (cell q_i p_i) + Z.of_nat N - 1 - half_width N < _ysize ->
  (Qsum (map weight (row q_i p_i)) == 1)%Q.
Proof.
  intros HN Hx Hy Hxy Hq0 Hq1 Hp0 Hp1.
  pose proof (half_width_bounds N) as (Hw0 & Hw1 & Hw2).
  set (icq := interpol_coeffs N (fst (offset q_i p_i))).
  set (icp := interpol_coeffs N (snd (offset q_i p_i))).
  rewrite (list_as_map_seq hi0 (row q_i p_i)) at 1.
  rewrite map_map, (point_row_length N ROTATION_TYPE _xsize _ysize cos_dt sin_dt).
  rewrite Qsum_blocks.
  rewrite (Qsum_map_ext _ (fun a => nth a icq 0 * 1)%Q).
  - rewrite Qsum_map_scale_r, Qmult_1_r.
    rewrite <- (interpol_coeffs_length N (fst (offset q_i p_i))) at 1.
    fold icq. rewrite <- (list_as_map_seq 0%Q icq).
    now apply interpol_coeffs_sum.
  - intros a Ha. apply in_seq in Ha.
    rewrite (Qsum_map_ext _ (fun b => nth a icq 0 * nth b icp 0)%Q).
    + rewrite Qsum_map_scale.
      rewrite <- (interpol_coeffs_length N (snd (offset q_i p_i))) at 1.
      fold icp. rewrite <- (list_as_map_seq 0%Q icp).
      unfold icp. rewrite interpol_coeffs_sum by assumption. reflexivity.
    + intros b Hb. apply in_seq in Hb.
      rewrite point_row_entry; auto; try lia.
      replace (in_grid _ _ _ _) with true; [reflexivity|].
      symmetry. unfold in_grid.
      repeat (apply andb_true_iff; split);
        try (apply Z.leb_le; lia); apply Z.ltb_lt; lia.
Qed.

End Rows.

End KernelFacts.

(** * RotationMap.cpp: the apply operator *)

Module ApplyFacts.

Import RotationMap Spec RotationFacts KernelFacts.

Lemma Qltb_lt (a b : Q) : Qltb a b = true <-> (a < b)%Q.
Proof.
  unfold Qltb. rewrite negb_true_iff. split.
  - intros H. apply Qnot_le_lt. intros Hle.
    apply Qle_bool_iff in Hle. congruence.
  - intros H. destruct (Qle_bool b a) eqn:E; [|reflexivity].
    apply Qle_bool_iff in E. apply Qle_not_lt in E. contradiction.
Qed.

Lemma Qltb_ge (a b : Q) : Qltb a b = false <-> (b <= a)%Q.
Proof.
  unfold Qltb. rewrite negb_false_iff. apply Qle_bool_iff.
Qed.

Lemma std_max_cases (a b : Q) : std_max a b = a \/ std_max a b = b.
Proof. unfold std_max. destruct (Qltb a b); auto. Qed.

Lemma std_min_cases (a b : Q) : std_min a b = a \/ std_min a b = b.
Proof. unfold std_min. destruct (Qltb b a); auto. Qed.

Lemma std_max_l (a b : Q) : (a <= std_max a b)%Q.
Proof.
  unfold std_max. destruct (Qltb a b) eqn:E.
  - apply Qltb_lt in E. now apply Qlt_le_weak.
  - apply Qle_refl.
Qed.

Lemma std_max_r (a b : Q) : (b <= std_max a b)%Q.
Proof.
  unfold std_max. destruct (Qltb a b) eqn:E.
  - apply Qle_refl.
  - now apply Qltb_ge in E.
Qed.

Lemma std_min_l (a b : Q) : (std_min a b <= a)%Q.
Proof.
  unfold std_min. destruct (Qltb b a) eqn:E.
  - apply Qltb_lt in E. now apply Qlt_le_weak.
  - apply Qle_refl.
Qed.

Lemma std_min_r (a b : Q) : (std_min a b <= b)%Q.
Proof.
  unfold std_min. destruct (Qltb b a) eqn:E.
  - apply Qle_refl.
  - now apply Qltb_ge in E.
Qed.

Lemma std_max_lub (a b c : Q) : (a <= c)%Q -> (b <= c)%Q -> (std_max a b <= c)%Q.
Proof. intros. destruct (std_max_cases a b) as [-> | ->]; assumption. Qed.

(** Line 218 leaves a value that lies between [flor] and [ceil] alone. *)
Lemma clamp_fixed (ceil flor x : Q) :
  (flor <= x)%Q -> (x <= ceil)%Q ->
  (std_max (std_min ceil x) flor == x)%Q.
Proof.
  intros Hf Hc.
  assert (Hm : (std_min ceil x == x)%Q).
  { unfold std_min. destruct (Qltb x ceil) eqn:E; [reflexivity|].
    apply Qltb_ge in E. now apply Qle_antisym. }
  unfold std_max. destruct (Qltb (std_min ceil x) flor) eqn:E; [|exact Hm].
  apply Qltb_lt in E. rewrite Hm in E.
  exfalso. apply (Qlt_not_le _ _ E). exact Hf.
Qed.

Section Saturation.

Variable INTERPOL_TYPE : nat.
Variables limits_min limits_max : Q.
Variable hm : heritage_map.
Variable data_in : list Q.
Variable i : nat.

Local Abbreviation N := INTERPOL_TYPE.
Local Abbreviation S4 := (samples hm data_in i (inner_block N)).

(** Lines 210-217 unrolled. *)
Lemma ceil_flor_unrolled :
  ceil_flor N limits_min limits_max hm data_in i =
  (std_max (std_max (std_max (std_max limits_min (nth 0 S4 0%Q)) (nth 1 S4 0%Q))
                    (nth 2 S4 0%Q)) (nth 3 S4 0%Q),
   std_min (std_min (std_min (std_min limits_max (nth 0 S4 0%Q)) (nth 1 S4 0%Q))
                    (nth 2 S4 0%Q)) (nth 3 S4 0%Q)).
Proof. reflexivity. Qed.

Lemma ceil_above (s : Q) :
  In s S4 -> (s <= fst (ceil_flor N limits_min limits_max hm data_in i))%Q.
Proof.
  rewrite ceil_flor_unrolled. simpl fst. unfold samples, inner_block. simpl map.
  simpl nth.
  intros [<- | [<- | [<- | [<- | []]]]].
  - eapply Qle_trans; [apply std_max_r|].
    eapply Qle_trans; [apply std_max_l|].
    eapply Qle_trans; [apply std_max_l|]. apply std_max_l.
  - eapply Qle_trans; [apply std_max_r|].
    eapply Qle_trans; [apply std_max_l|]. apply std_max_l.
  - eapply Qle_trans; [apply std_max_r|]. apply std_max_l.
  - apply std_max_r.
Qed.

Lemma flor_below (s : Q) :
  In s S4 -> (snd (ceil_flor N limits_min limits_max hm data_in i) <= s)%Q.
Proof.
  rewrite ceil_flor_unrolled. simpl snd. unfold samples, inner_block. simpl map.
  simpl nth.
  intros [<- | [<- | [<- | [<- | []]]]].
  - eapply Qle_trans; [|apply std_min_r].
    eapply Qle_trans; [|apply std_min_l].
    eapply Qle_trans; [|apply std_min_l]. apply std_min_l.
  - eapply Qle_trans; [|apply std_min_r].
    eapply Qle_trans; [|apply std_min_l]. apply std_min_l.
  - eapply Qle_trans; [|apply std_min_r]. apply std_min_l.
  - apply std_min_r.
Qed.

Lemma ceil_cases :
  fst (ceil_flor N limits_min limits_max hm data_in i) = limits_min
  \/ In (fst (ceil_flor N limits_min limits_max hm data_in i)) S4.
Proof.
  rewrite ceil_flor_unrolled. simpl fst. unfold samples, inner_block. simpl map.
  simpl nth. simpl In.
  repeat match goal with
         | |- context [std_max ?a ?b] =>
             destruct (std_max_cases a b) as [-> | ->]
         end; auto 10.
Qed.

Lemma flor_cases :
  snd (ceil_flor N limits_min limits_max hm data_in i) = limits_max
  \/ In (snd (ceil_flor N limits_min limits_max hm data_in i)) S4.
Proof.
  rewrite ceil_flor_unrolled. simpl snd. unfold samples, inner_block. simpl map.
  simpl nth. simpl In.
  repeat match goal with
         | |- context [std_min ?a ?b] =>
             destruct (std_min_cases a b) as [-> | ->]
         end; auto 10.
Qed.

(** Lines 208-219: the value left by the saturation pass. *)
Lemma saturate_within (out : Q) :
  (exists s, In s S4 /\ (limits_min <= s)%Q) ->
  (exists s, In s S4 /\ (s <= limits_max)%Q) ->
  within (saturate N limits_min limits_max hm data_in i out) S4.
Proof.
  intros (s1 & Hs1 & Hmin) (s2 & Hs2 & Hmax).
  unfold saturate.
  pose proof ceil_above as Hc. pose proof flor_below as Hf.
  pose proof ceil_cases as Hcc. pose proof flor_cases as Hfc.
  destruct (ceil_flor N limits_min limits_max hm data_in i) as [ceil flor].
  simpl fst in *. simpl snd in *.
  split.
  - destruct Hfc as [-> | Hin].
    + exists s2. split; [exact Hs2|].
      eapply Qle_trans; [exact Hmax | apply std_max_r].
    + exists flor. split; [exact Hin | apply std_max_r].
  - assert (Hle : (std_max (std_min ceil out) flor <= ceil)%Q).
    { apply std_max_lub; [apply std_min_l|].
      eapply Qle_trans; [apply (Hf s1 Hs1) | apply (Hc s1 Hs1)]. }
    destruct Hcc as [-> | Hin].
    + exists s1. split; [exact Hs1|]. eapply Qle_trans; [exact Hle | exact Hmin].
    + exists ceil. split; [exact Hin | exact Hle].
Qed.

(** The saturation pass leaves a sum alone that equals one of the four
    samples. *)
Lemma saturate_sample (out : Q) :
  (exists s, In s S4 /\ (s == out)%Q) ->
  (saturate N limits_min limits_max hm data_in i out == out)%Q.
Proof.
  intros (s & Hs & E). unfold saturate.
  pose proof (ceil_above s Hs) as Hc. pose proof (flor_below s Hs) as Hf.
  destruct (ceil_flor N limits_min limits_max hm data_in i) as [ceil flor].
  simpl fst in *. simpl snd in *.
  apply clamp_fixed; rewrite <- E; assumption.
Qed.

End Saturation.

(** ** Sums of products *)

Lemma accumulate_fold (F : hi -> Q) (row : list hi) (acc : Q) :
  (fold_left (fun acc h => acc + F h) row acc == acc + Qsum (map F row))%Q.
Proof.
  revert acc; induction row as [|h row IH]; intros acc; simpl.
  - unfold Qsum. simpl. ring.
  - rewrite IH. unfold Qsum. simpl. ring.
Qed.

Lemma Qsum_zero {A : Type} (F : A -> Q) (l : list A) :
  (forall k, In k l -> (F k == 0)%Q) -> (Qsum (map F l) == 0)%Q.
Proof.
  unfold Qsum. induction l as [|k l IH]; intros H; simpl; [reflexivity|].
  rewrite (H k) by (now left). rewrite IH; [ring|].
  intros; apply H; now right.
Qed.

Lemma Qsum_delta (n k0 : nat) (x : Q) :
  (k0 < n)%nat ->
  (Qsum (map (fun k => if (k =? k0)%nat then x else 0%Q) (seq 0 n)) == x)%Q.
Proof.
  intros Hk.
  assert (E : seq 0 n = seq 0 k0 ++ [k0] ++ seq (S k0) (n - S k0)).
  { replace n with (k0 + (1 + (n - S k0)))%nat at 1 by lia.
    rewrite seq_app, seq_app. simpl. now replace (k0 + 1)%nat with (S k0) by lia. }
  rewrite E, !map_app, !Qsum_app.
  rewrite (Qsum_zero _ (seq 0 k0)).
  2:{ intros k Hin. apply in_seq in Hin.
      replace (k =? k0)%nat with false by (symmetry; apply Nat.eqb_neq; lia).
      reflexivity. }
  rewrite (Qsum_zero _ (seq (S k0) (n - S k0))).
  2:{ intros k Hin. apply in_seq in Hin.
      replace (k =? k0)%nat with false by (symmetry; apply Nat.eqb_neq; lia).
      reflexivity. }
  unfold Qsum. simpl. rewrite Nat.eqb_refl. ring.
Qed.

End ApplyFacts.

(** * RotationMap.cpp: the properties of the design document *)

Module RotationClaims.

Import RotationMap Spec Examples RotationFacts KernelFacts ApplyFacts.

(** ** C1: the sequential apply *)



(** ** C3: the saturation pass *)

(** C3, as amended.  With saturation compiled in, the value left in
    [data_out[i]] lies between the least and the greatest of the input
    samples that row [i] points to at the positions [order+1], [order+2],
    [2*order+1] and [2*order+2] -- the inner 2 by 2 block of a row of
    order 4 -- provided one of these samples is at least
    [numeric_limits::min()] and one is at most [numeric_limits::max()],
    the values [ceil] and [flor] start from. *)
Theorem saturation_bound (INTERPOL_TYPE : nat) (limits_min limits_max : Q)
        (hm : heritage_map) (_ip _size : nat) (data_in data_out : list Q)
        (i : nat) :
  (i < _size)%nat -> (_size <= List.length data_out)%nat ->
  (2 * INTERPOL_TYPE + 2 < List.length (nth i hm []))%nat ->
  (exists s, In s (samples hm data_in i (inner_block INTERPOL_TYPE))
             /\ (limits_min <= s)%Q) ->
  (exists s, In s (samples hm data_in i (inner_block INTERPOL_TYPE))
             /\ (s <= limits_max)%Q) ->
  within (nth i (RotationMap.apply INTERPOL_TYPE true limits_min limits_max hm
                   _ip _size data_in data_out) 0%Q)
         (samples hm data_in i (inner_block INTERPOL_TYPE)).
Proof.
  intros Hi Hlen _ Hmin Hmax.
  rewrite apply_nth by assumption.
  unfold apply_value. now apply saturate_within.
Qed.

Lemma saturation_bound_witness :
  within (nth 9 (RotationMap.apply 4 true FLT_MIN FLT_MAX hm44 16 16
                   one_at_6 zeros16) 0%Q)
         (samples hm44 one_at_6 9 (inner_block 4)).
Proof.
  apply (saturation_bound 4 FLT_MIN FLT_MAX hm44 16 16 one_at_6 zeros16 9).
  - lia.
  - simpl. lia.
  - vm_compute. lia.
  - exists 1%Q. split; [vm_compute; auto | vm_compute; discriminate].
  - exists 0%Q. split; [vm_compute; auto | vm_compute; discriminate].
Defined.

(** C3 as stated fails: target (2,1) of [hm44] has its source in cell
    (1,1); the field is 1 in cell (1,2) and 0 elsewhere.  The value left
    is a positive weight, while the samples at positions 4, 5, 8 and 9 of
    the row are all 0. *)
Lemma saturation_not_on_first_ring :
  samples hm44 one_at_6 9 (first_ring 4) = [0%Q; 0%Q; 0%Q; 0%Q]
  /\ (0 < nth 9 (RotationMap.apply 4 true FLT_MIN FLT_MAX hm44 16 16
                   one_at_6 zeros16) 0)%Q
  /\ ~ within (nth 9 (RotationMap.apply 4 true FLT_MIN FLT_MAX hm44 16 16
                        one_at_6 zeros16) 0%Q)
              (samples hm44 one_at_6 9 (first_ring 4)).
Proof.
  split; [vm_compute; reflexivity|].
  split; [vm_compute; reflexivity|].
  intros [_ (s & Hin & Hle)].
  vm_compute in Hin.
  destruct Hin as [<- | [<- | [<- | [<- | []]]]];
    vm_compute in Hle; apply Hle; reflexivity.
Qed.

(** The start value of [ceil] is the least positive value of the type, not
    the lowest one: when the four samples are 0 and the sum is positive,
    the value left is that start value, above every sample. *)
Lemma saturation_ceiling_starts_positive :
  samples hm44 one_at_0 9 (inner_block 4) = [0%Q; 0%Q; 0%Q; 0%Q]
  /\ nth 9 (RotationMap.apply 4 true FLT_MIN FLT_MAX hm44 16 16
              one_at_0 zeros16) 0%Q = FLT_MIN.
Proof. split; vm_compute; reflexivity. Qed.

(** ** C2: targets whose source lies off the grid *)

(** C2 on the code with saturation compiled in: target (0,3) of [hm44] has
    its source in row 4 of a grid of 4 rows; its heritage row is all
    [{0,0}]; with a field that is 5 in cell 0 the value left at the target
    is 5. *)
Theorem boundary_target_saturated :
  source_cell 1 4 4 (3 # 5) (- 4 # 5) 0 3 = (1, 4)
  /\ nth 3 hm44 [] = repeat hi0 16
  /\ nth 3 (RotationMap.apply 4 true FLT_MIN FLT_MAX hm44 16 16
              five_at_0 zeros16) 0%Q = 5%Q.
Proof. repeat split; vm_compute; reflexivity. Qed.

(** ** C4: the kernels are the Lagrange bases *)



(** ** C6: the entries of a row *)

(** C6.  For a target whose source cell [(id, jd)] is on the grid and for
    every kernel position [(a, b)], entry [a*order+b] of the target's row
    is [{i0*sizeY+j0, icq[a]*icp[b]}] with
    [i0 = id + a - (order-1)/2] and [j0 = jd + b - (order-1)/2] when cell
    [(i0, j0)] is on the grid, and [{0,0}] when it is not; the grid
    dimensions leave room for the kernel in [unsigned int]. *)
Theorem stencil_entries (INTERPOL_TYPE : nat) (ROTATION_TYPE : Z)
        (_xsize _ysize : Z) (cos_dt sin_dt : Q) (q_i p_i : Z) (a b : nat) :
  let cell := source_cell ROTATION_TYPE _xsize _ysize cos_dt sin_dt q_i p_i in
  let xi := source_offset ROTATION_TYPE _xsize _ysize cos_dt sin_dt q_i p_i in
  let i0 := fst cell + Z.of_nat a - half_width INTERPOL_TYPE in
  let j0 := snd cell + Z.of_nat b - half_width INTERPOL_TYPE in
  _xsize + Z.of_nat INTERPOL_TYPE <= UINT_MOD ->
  _ysize + Z.of_nat INTERPOL_TYPE <= UINT_MOD ->
  _xsize * _ysize <= UINT_MOD ->
  0 <= q_i < _xsize -> 0 <= p_i < _ysize ->
  fst cell < _xsize -> snd cell < _ysize ->
  (a < INTERPOL_TYPE)%nat -> (b < INTERPOL_TYPE)%nat ->
  nth (a * INTERPOL_TYPE + b)
      (nth (flat _ysize q_i p_i)
           (RotationMap INTERPOL_TYPE ROTATION_TYPE _xsize _ysize cos_dt sin_dt) [])
      hi0
  = if in_grid _xsize _ysize i0 j0
    then mk_hi (i0 * _ysize + j0)
               (nth a (interpol_coeffs INTERPOL_TYPE (fst xi)) 0
                * nth b (interpol_coeffs INTERPOL_TYPE (snd xi)) 0)%Q
    else hi0.
Proof.
  intros cell xi i0 j0 Hx Hy Hxy Hq Hp Hid Hjd Ha Hb.
  rewrite RotationMap_row by assumption.
  now apply point_row_entry.
Qed.

Ltac side :=
  first [ lia
        | vm_compute; first [ reflexivity | discriminate | intro; discriminate ] ].

Lemma stencil_entries_witness :
  nth (1 * 4 + 2) (nth (flat 4 2 1) hm44 []) hi0
  = mk_hi 6 (nth 1 (interpol_coeffs 4
                      (fst (source_offset 1 4 4 (3 # 5) (- 4 # 5) 2 1))) 0
             * nth 2 (interpol_coeffs 4
                        (snd (source_offset 1 4 4 (3 # 5) (- 4 # 5) 2 1))) 0)%Q
  /\ nth (0 * 4 + 3) (nth (flat 4 0 0) hm44 []) hi0 = hi0.
Proof.
  unfold hm44. split.
  - pose proof (stencil_entries 4 1 4 4 (3 # 5) (- 4 # 5) 2 1 1 2) as H.
    cbv zeta in H. rewrite H by side.
    vm_compute. reflexivity.
  - pose proof (stencil_entries 4 1 4 4 (3 # 5) (- 4 # 5) 0 0 0 3) as H.
    cbv zeta in H. rewrite H by side.
    vm_compute. reflexivity.
Defined.

End RotationClaims.

(** * RotationMap.cpp: the identity transform *)

Module IdentityFacts.

Import RotationMap Spec RotationFacts KernelFacts ApplyFacts.

Lemma Qtrunc_inject (x : Q) (z : Z) : (x == inject_Z z)%Q -> Qtrunc x = z.
Proof.
  unfold Qeq, Qtrunc. simpl. intros H.
  rewrite Z.mul_1_r in H. rewrite H.
  apply Z.quot_mul. discriminate.
Qed.



(** Lines 94-130 at distance 0: weight 1 on the cell itself. *)
Lemma coeffs_at_zero (N : nat) (x : Q) (a : nat) :
  (x == 0)%Q -> (1 <= N <= 4)%nat -> (a < N)%nat ->
  (nth a (interpol_coeffs N x) 0
   == if Z.of_nat a =? half_width N then 1 else 0)%Q.
Proof.
  intros Hx HN Ha.
  destruct N as [|[|[|[|[|n]]]]]; try lia.
  - destruct a as [|a]; try lia. reflexivity.
  - destruct a as [|[|a]]; try lia; simpl; rewrite Hx; reflexivity.
  - destruct a as [|[|[|a]]]; try lia; simpl; rewrite Hx; reflexivity.
  - destruct a as [|[|[|[|a]]]]; try lia; simpl; rewrite Hx; reflexivity.
Qed.

Lemma half_width_small (N : nat) :
  (1 <= N <= 4)%nat -> (Z.to_nat (half_width N) < N)%nat.
Proof.
  intros HN. destruct N as [|[|[|[|[|n]]]]]; try lia; vm_compute; lia.
Qed.

Section Identity.

Variable INTERPOL_TYPE : nat.
Variable ROTATION_TYPE : Z.
Variables _xsize _ysize : Z.
Variables cos_dt sin_dt : Q.
Variables q_i p_i : Z.

Local Abbreviation N := INTERPOL_TYPE.
Local Abbreviation hm :=
  (RotationMap N ROTATION_TYPE _xsize _ysize cos_dt sin_dt).

(** The transform maps the target to itself. *)
Hypothesis transform_identity :
  (fst (coords ROTATION_TYPE _xsize _ysize cos_dt sin_dt q_i p_i) == inject_Z q_i)%Q
  /\ (snd (coords ROTATION_TYPE _xsize _ysize cos_dt sin_dt q_i p_i) == inject_Z p_i)%Q.

Hypothesis grid_x : _xsize + Z.of_nat N <= UINT_MOD.
Hypothesis grid_y : _ysize + Z.of_nat N <= UINT_MOD.
Hypothesis grid_xy : _xsize * _ysize <= UINT_MOD.
Hypothesis target_q : 0 <= q_i < _xsize.
Hypothesis target_p : 0 <= p_i < _ysize.



Variable data_in : list Q.




End Identity.

End IdentityFacts.

(** * RotationMap.cpp: identity and boundary *)

Module BoundaryClaims.

Import RotationMap Spec Examples RotationFacts KernelFacts ApplyFacts IdentityFacts.

(** ** C5: the identity transform *)



(** In centred coordinates (rotation type 3) the quotient
    [(2*q_i - _xsize) / _xsize] of lines 61-73 is formed in [int]: at angle
    0 target (1,1) of a 4 by 4 grid has its source in cell (2,2). *)
Lemma centred_rotation_divides_in_int :
  source_cell 3 4 4 1 0 1 1 = (2, 2).
Proof. vm_compute. reflexivity. Qed.

(** ** C2 without the saturation pass *)

Lemma to_uint_off_grid (size t : Z) :
  0 <= size -> size - UINT_MOD <= t < UINT_MOD ->
  t < 0 \/ size <= t ->
  (to_uint (inject_Z t) <? size) = false.
Proof.
  intros Hs Hr Hout. apply Z.ltb_ge. unfold to_uint.
  rewrite (Qtrunc_inject (inject_Z t) t) by reflexivity.
  destruct Hout as [Hneg | Hbig].
  - rewrite wrap_uint_neg by lia. lia.
  - rewrite wrap_uint_small by lia. lia.
Qed.

(** A target whose source cell -- the integral parts of its inverse image
    -- lies off the grid keeps its row of [{0,0}] entries, and the apply
    operator without the saturation pass leaves 0 there. *)
Lemma boundary_target_unsaturated (INTERPOL_TYPE : nat) (ROTATION_TYPE : Z)
      (_xsize _ysize : Z) (cos_dt sin_dt : Q)
      (limits_min limits_max : Q) (data_in data_out : list Q) (q_i p_i : Z) :
  let c := coords ROTATION_TYPE _xsize _ysize cos_dt sin_dt q_i p_i in
  let tq := Qtrunc (fst c) in
  let tp := Qtrunc (snd c) in
  0 <= q_i < _xsize -> 0 <= p_i < _ysize ->
  _xsize - UINT_MOD <= tq < UINT_MOD -> _ysize - UINT_MOD <= tp < UINT_MOD ->
  (tq < 0 \/ _xsize <= tq) \/ (tp < 0 \/ _ysize <= tp) ->
  (Z.to_nat (_xsize * _ysize) <= List.length data_out)%nat ->
  nth (flat _ysize q_i p_i)
      (RotationMap INTERPOL_TYPE ROTATION_TYPE _xsize _ysize cos_dt sin_dt) []
  = repeat hi0 (INTERPOL_TYPE * INTERPOL_TYPE)
  /\ (nth (flat _ysize q_i p_i)
          (RotationMap.apply INTERPOL_TYPE false limits_min limits_max
             (RotationMap INTERPOL_TYPE ROTATION_TYPE _xsize _ysize cos_dt sin_dt)
             (INTERPOL_TYPE * INTERPOL_TYPE) (Z.to_nat (_xsize * _ysize))
             data_in data_out) 0
      == 0)%Q.
Proof.
  intros c tq tp Hq Hp Rq Rp Hout Hlen.
  assert (Hrow : nth (flat _ysize q_i p_i)
                     (RotationMap INTERPOL_TYPE ROTATION_TYPE _xsize _ysize cos_dt sin_dt) []
                 = repeat hi0 (INTERPOL_TYPE * INTERPOL_TYPE)).
  { rewrite RotationMap_row by assumption. unfold point_row.
    subst tq tp c. destruct (coords _ _ _ _ _ _ _) as [qc pc].
    simpl fst in *. simpl snd in *. unfold modf. simpl snd.
    destruct Hout as [Ho | Ho].
    - rewrite (to_uint_off_grid _xsize (Qtrunc qc)) by (assumption || lia).
      reflexivity.
    - rewrite (to_uint_off_grid _ysize (Qtrunc pc)) by (assumption || lia).
      now rewrite andb_false_r. }
  split; [exact Hrow|].
  rewrite apply_nth; [|unfold flat; nia | exact Hlen].
  unfold apply_value.
  rewrite accumulate_row by (rewrite Hrow; apply repeat_length).
  rewrite (accumulate_fold (fun h => sample data_in (index h) * weight h)%Q).
  rewrite Hrow, Qsum_zero; [ring|].
  intros h Hin. apply repeat_spec in Hin. subst h. simpl. ring.
Qed.

End BoundaryClaims.

(** * RotationMap.cpp: further properties of the built map *)

Module MapFacts.

Import RotationMap Spec Fields RotationFacts KernelFacts ApplyFacts IdentityFacts.

Section WellFormed.

Variable INTERPOL_TYPE : nat.
Variable ROTATION_TYPE : Z.
Variables _xsize _ysize : Z.
Variables cos_dt sin_dt : Q.

Local Abbreviation N := INTERPOL_TYPE.
Local Abbreviation hm :=
  (RotationMap N ROTATION_TYPE _xsize _ysize cos_dt sin_dt).

(** Lines 146-152: an entry points inside the field, whatever the kernel
    position. *)
Lemma entry_index_range (id jd : Z) (hmc : list Q) (i1 j1 : nat) :
  0 < _xsize * _ysize <= UINT_MOD -> 0 <= _ysize ->
  0 <= index (entry N _xsize _ysize id jd hmc i1 j1) < _xsize * _ysize.
Proof.
  intros Hxy Hy. unfold entry.
  set (j0 := wrap_uint (jd + Z.of_nat j1 - half_width N)).
  set (i0 := wrap_uint (id + Z.of_nat i1 - half_width N)).
  assert (Hi : 0 <= i0 < UINT_MOD) by (apply Z.mod_pos_bound; reflexivity).
  assert (Hj : 0 <= j0 < UINT_MOD) by (apply Z.mod_pos_bound; reflexivity).
  destruct (i0 <? _xsize) eqn:Ex; destruct (j0 <? _ysize) eqn:Ey; simpl;
    try lia.
  apply Z.ltb_lt in Ex, Ey.
  assert (0 <= i0 * _ysize + j0 < _xsize * _ysize) by nia.
  rewrite wrap_uint_small by lia. lia.
Qed.

Lemma kernel_position (k : nat) :
  (k < N * N)%nat ->
  exists a b, (a < N)%nat /\ (b < N)%nat /\ k = (a * N + b)%nat.
Proof.
  intros Hk. assert (HN : (N <> 0)%nat) by lia.
  exists (k / N)%nat, (k mod N)%nat. repeat split.
  - apply Nat.Div0.div_lt_upper_bound. lia.
  - now apply Nat.mod_upper_bound.
  - rewrite (Nat.div_mod_eq k N) at 1. lia.
Qed.

(** Every row of the built map has [INTERPOL_TYPE^2] entries, and every
    entry points inside the field. *)
Lemma RotationMap_well_formed (q_i p_i : Z) :
  _xsize * _ysize <= UINT_MOD ->
  0 <= q_i < _xsize -> 0 <= p_i < _ysize ->
  List.length (nth (flat _ysize q_i p_i) hm []) = (N * N)%nat
  /\ Forall (fun h => 0 <= index h < _xsize * _ysize)
            (nth (flat _ysize q_i p_i) hm []).
Proof.
  intros Hxy Hq Hp.
  rewrite RotationMap_row by assumption.
  split; [apply point_row_length|].
  assert (Hpos : 0 < _xsize * _ysize) by nia.
  unfold point_row.
  destruct (coords _ _ _ _ _ _ _) as [qc pc].
  destruct (_ && _).
  - apply Forall_forall. intros h Hin.
    apply (In_nth _ _ hi0) in Hin as (k & Hk & <-).
    rewrite write_row_length, repeat_length in Hk.
    destruct (kernel_position k Hk) as (a & b & Ha & Hb & ->).
    rewrite write_row_nth by (auto using repeat_length).
    apply entry_index_range; lia.
  - apply Forall_forall. intros h Hin. apply repeat_spec in Hin. subst h.
    simpl. lia.
Qed.

End WellFormed.

Section ApplyProperties.

Variable INTERPOL_TYPE : nat.
Variables limits_min limits_max : Q.
Variable hm : heritage_map.
Variable _ip : nat.

Local Abbreviation N := INTERPOL_TYPE.

(** Lines 202-220 write the first [_size] cells of the output and nothing
    else; what they write does not depend on what the output held. *)
Lemma apply_frame (sat : bool) (_size : nat) (data_in out1 out2 : list Q) :
  (_size <= List.length out1)%nat -> (_size <= List.length out2)%nat ->
  List.length (RotationMap.apply N sat limits_min limits_max hm _ip _size
                 data_in out1) = List.length out1
  /\ (forall j, (_size <= j)%nat ->
        nth j (RotationMap.apply N sat limits_min limits_max hm _ip _size
                 data_in out1) 0%Q = nth j out1 0%Q)
  /\ (forall i, (i < _size)%nat ->
        nth i (RotationMap.apply N sat limits_min limits_max hm _ip _size
                 data_in out1) 0%Q
        = nth i (RotationMap.apply N sat limits_min limits_max hm _ip _size
                   data_in out2) 0%Q).
Proof.
  intros H1 H2. split; [apply apply_length|]. split.
  - intros j Hj. unfold RotationMap.apply.
    pose (g := fun (k : nat) (_ : Q) =>
                 apply_value N sat limits_min limits_max hm _ip data_in k).
    change (fold_left _ (seq 0 _size) out1)
      with (fold_left (step (fun k : nat => k) g 0%Q) (seq 0 _size) out1).
    apply steps_untouched. intros k Hk. apply in_seq in Hk. lia.
  - intros i Hi. now rewrite !apply_nth.
Qed.

Lemma sample_lincomb (a b : Q) (X Y : list Q) (k : Z) :
  List.length X = List.length Y ->
  (sample (lincomb a X b Y) k == a * sample X k + b * sample Y k)%Q.
Proof.
  intros Hlen. unfold sample, lincomb.
  generalize (Z.to_nat k) as n. clear k.
  revert Y Hlen. induction X as [|x X IH]; intros [|y Y] Hlen n;
    simpl in Hlen; try discriminate.
  - simpl. destruct n; ring.
  - destruct n as [|n]; simpl; [reflexivity|].
    apply IH. now inversion Hlen.
Qed.

Lemma accumulate_linear (a b : Q) (X Y : list Q) (i : nat) :
  List.length X = List.length Y ->
  (accumulate hm _ip (lincomb a X b Y) i
   == a * accumulate hm _ip X i + b * accumulate hm _ip Y i)%Q.
Proof.
  intros Hlen. unfold accumulate.
  assert (H : forall (js : list nat) (az ax ay : Q),
             (az == a * ax + b * ay)%Q ->
             (fold_left
                (fun acc j =>
                   acc + sample (lincomb a X b Y) (index (nth j (nth i hm []) hi0))
                         * weight (nth j (nth i hm []) hi0)) js az
              == a * fold_left
                       (fun acc j =>
                          acc + sample X (index (nth j (nth i hm []) hi0))
                                * weight (nth j (nth i hm []) hi0)) js ax
                 + b * fold_left
                         (fun acc j =>
                            acc + sample Y (index (nth j (nth i hm []) hi0))
                                  * weight (nth j (nth i hm []) hi0)) js ay)%Q).
  { induction js as [|j js IH]; intros az ax ay E; simpl; [exact E|].
    apply IH. rewrite E, sample_lincomb by exact Hlen. ring. }
  apply H. ring.
Qed.

(** The saturation pass leaves alone a sum that lies between two of the
    four samples it reads. *)
Lemma saturate_in_range (data_in : list Q) (i : nat) (x : Q) :
  within x (samples hm data_in i (inner_block N)) ->
  (saturate N limits_min limits_max hm data_in i x == x)%Q.
Proof.
  intros [(s1 & Hs1 & Hlo) (s2 & Hs2 & Hhi)]. unfold saturate.
  pose proof (ceil_above N limits_min limits_max hm data_in i s2 Hs2) as Hc.
  pose proof (flor_below N limits_min limits_max hm data_in i s1 Hs1) as Hf.
  destruct (ceil_flor N limits_min limits_max hm data_in i) as [ceil flor].
  simpl fst in *. simpl snd in *.
  apply clamp_fixed.
  - eapply Qle_trans; eassumption.
  - eapply Qle_trans; eassumption.
Qed.

End ApplyProperties.

End MapFacts.

(** * RotationMap.cpp: partition of unity *)

Module PartitionClaims.

Import RotationMap Spec Examples RotationFacts KernelFacts ApplyFacts MapFacts.

(** C9, as amended.  In exact arithmetic, for every order from 1 to 4:
    the coefficients computed for any fractional distances [xq] and [xp]
    sum to 1 in each dimension; the weights of the row of a target all of
    whose kernel cells are on the grid sum to 1; and where every cell of
    the input holds [c], the sum of lines 203-207 leaves [c] at such a
    target. *)
Theorem weights_sum_to_one (INTERPOL_TYPE : nat) (ROTATION_TYPE : Z)
        (_xsize _ysize : Z) (cos_dt sin_dt : Q) (q_i p_i : Z) (xq xp : Q)
        (limits_min limits_max : Q) (data_in data_out : list Q) (c : Q) :
  let cell := source_cell ROTATION_TYPE _xsize _ysize cos_dt sin_dt q_i p_i in
  (1 <= INTERPOL_TYPE <= 4)%nat ->
  _xsize + Z.of_nat INTERPOL_TYPE <= UINT_MOD ->
  _ysize + Z.of_nat INTERPOL_TYPE <= UINT_MOD ->
  _xsize * _ysize <= UINT_MOD ->
  0 <= q_i < _xsize -> 0 <= p_i < _ysize ->
  half_width INTERPOL_TYPE <= fst cell ->
  fst cell + Z.of_nat INTERPOL_TYPE - 1 - half_width INTERPOL_TYPE < _xsize ->
  half_width INTERPOL_TYPE <= snd cell ->
  snd cell + Z.of_nat INTERPOL_TYPE - 1 - half_width INTERPOL_TYPE < _ysize ->
  (forall k, 0 <= k < _xsize * _ysize -> (sample data_in k == c)%Q) ->
  (Z.to_nat (_xsize * _ysize) <= List.length data_out)%nat ->
  (Qsum (interpol_coeffs INTERPOL_TYPE xq) == 1)%Q
  /\ (Qsum (interpol_coeffs INTERPOL_TYPE xp) == 1)%Q
  /\ (Qsum (map weight
                (nth (flat _ysize q_i p_i)
                     (RotationMap INTERPOL_TYPE ROTATION_TYPE _xsize _ysize
                                  cos_dt sin_dt) []))
      == 1)%Q
  /\ (nth (flat _ysize q_i p_i)
          (RotationMap.apply INTERPOL_TYPE false limits_min limits_max
             (RotationMap INTERPOL_TYPE ROTATION_TYPE _xsize _ysize cos_dt sin_dt)
             (INTERPOL_TYPE * INTERPOL_TYPE) (Z.to_nat (_xsize * _ysize))
             data_in data_out) 0
      == c)%Q.
Proof.
  intros cell HN Hx Hy Hxy Hq Hp Hq0 Hq1 Hp0 Hp1 Hconst Hout.
  split; [now apply interpol_coeffs_sum|].
  split; [now apply interpol_coeffs_sum|].
  assert (Hsum : (Qsum (map weight
                          (nth (flat _ysize q_i p_i)
                               (RotationMap INTERPOL_TYPE ROTATION_TYPE _xsize
                                            _ysize cos_dt sin_dt) []))
                  == 1)%Q).
  { rewrite RotationMap_row by assumption. now apply point_row_weight. }
  split; [exact Hsum|].
  rewrite apply_nth; [|unfold flat; nia | exact Hout].
  unfold apply_value.
  destruct (RotationMap_well_formed INTERPOL_TYPE ROTATION_TYPE _xsize _ysize
              cos_dt sin_dt q_i p_i Hxy Hq Hp) as [Hlen Hidx].
  rewrite accumulate_row by exact Hlen.
  rewrite (accumulate_fold (fun h => sample data_in (index h) * weight h)%Q).
  rewrite Qplus_0_l.
  rewrite (Qsum_map_ext _ (fun h => c * weight h)%Q).
  - rewrite Qsum_map_scale. rewrite Hsum. ring.
  - intros h Hin. rewrite Forall_forall in Hidx.
    rewrite (Hconst (index h) (Hidx h Hin)). reflexivity.
Qed.

Lemma weights_sum_to_one_witness :
  (Qsum (interpol_coeffs 4 (1 # 5)) == 1)%Q
  /\ (Qsum (interpol_coeffs 4 (2 # 5)) == 1)%Q
  /\ (Qsum (map weight (nth (flat 6 3 3) hm66 [])) == 1)%Q
  /\ (nth (flat 6 3 3)
          (RotationMap.apply 4 false FLT_MIN FLT_MAX hm66 (4 * 4)
             (Z.to_nat (6 * 6)) (repeat 7%Q 36) (repeat 0%Q 36)) 0
      == 7)%Q.
Proof.
  assert (Hx : 6 + Z.of_nat 4 <= UINT_MOD) by (vm_compute; discriminate).
  assert (Hxy : 6 * 6 <= UINT_MOD) by (vm_compute; discriminate).
  assert (Hc : forall k, 0 <= k < 6 * 6 -> (sample (repeat 7%Q 36) k == 7)%Q).
  { intros k Hk. unfold sample. rewrite nth_repeat_lt by lia. reflexivity. }
  assert (Hlen : (Z.to_nat (6 * 6) <= List.length (repeat 0%Q 36))%nat)
    by (simpl; lia).
  exact (weights_sum_to_one 4 1 6 6 (3 # 5) (- 4 # 5) 3 3 (1 # 5) (2 # 5)
           FLT_MIN FLT_MAX (repeat 7%Q 36) (repeat 0%Q 36) 7 ltac:(lia) Hx Hx Hxy
           ltac:(lia) ltac:(lia)
           ltac:(vm_compute; discriminate) ltac:(vm_compute; reflexivity)
           ltac:(vm_compute; discriminate) ltac:(vm_compute; reflexivity)
           Hc Hlen).
Defined.

End PartitionClaims.

(** * RotationMap.cpp: targets whose source is a grid point *)

Module GridPointFacts.

Import RotationMap Spec Fields RotationFacts KernelFacts ApplyFacts IdentityFacts MapFacts.

Section GridPoint.

Variable INTERPOL_TYPE : nat.
Variable ROTATION_TYPE : Z.
Variables _xsize _ysize : Z.
Variables cos_dt sin_dt : Q.
Variables q_i p_i : Z.
Variables u w : Z.

Local Abbreviation N := INTERPOL_TYPE.
Local Abbreviation hm :=
  (RotationMap N ROTATION_TYPE _xsize _ysize cos_dt sin_dt).

(** The inverse image of the target is the grid point [(u, w)]. *)
Hypothesis image :
  (fst (coords ROTATION_TYPE _xsize _ysize cos_dt sin_dt q_i p_i) == inject_Z u)%Q
  /\ (snd (coords ROTATION_TYPE _xsize _ysize cos_dt sin_dt q_i p_i) == inject_Z w)%Q.

Hypothesis grid_x : _xsize + Z.of_nat N <= UINT_MOD.
Hypothesis grid_y : _ysize + Z.of_nat N <= UINT_MOD.
Hypothesis grid_xy : _xsize * _ysize <= UINT_MOD.
Hypothesis target_q : 0 <= q_i < _xsize.
Hypothesis target_p : 0 <= p_i < _ysize.
Hypothesis source_u : 0 <= u < _xsize.
Hypothesis source_w : 0 <= w < _ysize.

Lemma source_cell_point :
  source_cell ROTATION_TYPE _xsize _ysize cos_dt sin_dt q_i p_i = (u, w).
Proof.
  destruct image as [Eq Ep].
  unfold source_cell. destruct (coords _ _ _ _ _ _ _) as [qc pc].
  simpl fst in *. simpl snd in *. unfold modf. simpl snd.
  unfold to_uint.
  rewrite (Qtrunc_inject (inject_Z (Qtrunc qc)) (Qtrunc qc)) by reflexivity.
  rewrite (Qtrunc_inject (inject_Z (Qtrunc pc)) (Qtrunc pc)) by reflexivity.
  rewrite (Qtrunc_inject qc u Eq), (Qtrunc_inject pc w Ep).
  rewrite !wrap_uint_small by lia. reflexivity.
Qed.

Lemma source_offset_point :
  (fst (source_offset ROTATION_TYPE _xsize _ysize cos_dt sin_dt q_i p_i) == 0)%Q
  /\ (snd (source_offset ROTATION_TYPE _xsize _ysize cos_dt sin_dt q_i p_i) == 0)%Q.
Proof.
  destruct image as [Eq Ep].
  unfold source_offset. destruct (coords _ _ _ _ _ _ _) as [qc pc].
  simpl fst in *. simpl snd in *. unfold modf. simpl fst.
  rewrite (Qtrunc_inject qc u Eq), (Qtrunc_inject pc w Ep).
  rewrite Eq, Ep. split; ring.
Qed.

Variable data_in : list Q.

Lemma point_term (a b : nat) :
  (1 <= N <= 4)%nat -> (a < N)%nat -> (b < N)%nat ->
  let h := nth (a * N + b) (nth (flat _ysize q_i p_i) hm []) hi0 in
  (sample data_in (index h) * weight h
   == if (Z.of_nat a =? half_width N) && (Z.of_nat b =? half_width N)
      then sample data_in (u * _ysize + w) else 0)%Q.
Proof.
  intros HN Ha Hb h. subst h.
  pose proof source_cell_point as Ec.
  rewrite RotationMap_row by assumption.
  rewrite point_row_entry; rewrite ?Ec; simpl fst; simpl snd;
    try assumption; try lia.
  destruct source_offset_point as [Oq Op].
  pose proof (coeffs_at_zero N _ a Oq HN Ha) as Wa.
  pose proof (coeffs_at_zero N _ b Op HN Hb) as Wb.
  destruct (Z.of_nat a =? half_width N) eqn:Ea;
    destruct (Z.of_nat b =? half_width N) eqn:Eb; simpl andb; cbv iota.
  - apply Z.eqb_eq in Ea, Eb.
    replace (u + Z.of_nat a - half_width N) with u by lia.
    replace (w + Z.of_nat b - half_width N) with w by lia.
    replace (in_grid _xsize _ysize u w) with true.
    2:{ symmetry. unfold in_grid.
        repeat (apply andb_true_iff; split);
          try (apply Z.leb_le; lia); apply Z.ltb_lt; lia. }
    simpl index. simpl weight. rewrite Wa, Wb. ring.
  - destruct (in_grid _ _ _ _); simpl index; simpl weight;
      [rewrite Wb; ring | ring].
  - destruct (in_grid _ _ _ _); simpl index; simpl weight;
      [rewrite Wa; ring | ring].
  - destruct (in_grid _ _ _ _); simpl index; simpl weight;
      [rewrite Wa; ring | ring].
Qed.

Lemma point_accumulate :
  (1 <= N <= 4)%nat ->
  (accumulate hm (N * N) data_in (flat _ysize q_i p_i)
   == sample data_in (u * _ysize + w))%Q.
Proof.
  intros HN.
  pose proof (half_width_small N HN) as Hw.
  pose proof (half_width_bounds N) as (Hw0 & _ & _).
  assert (Hrow : List.length (nth (flat _ysize q_i p_i) hm []) = (N * N)%nat).
  { rewrite RotationMap_row by assumption. apply point_row_length. }
  rewrite accumulate_row by exact Hrow.
  rewrite (accumulate_fold (fun h => sample data_in (index h) * weight h)%Q).
  rewrite Qplus_0_l.
  rewrite (list_as_map_seq hi0 (nth (flat _ysize q_i p_i) hm [])) at 1.
  rewrite map_map, Hrow, Qsum_blocks.
  set (x := sample data_in (u * _ysize + w)).
  rewrite (Qsum_map_ext _
             (fun a => if (a =? Z.to_nat (half_width N))%nat then x else 0%Q)).
  - now apply Qsum_delta.
  - intros a Ha. apply in_seq in Ha.
    rewrite (Qsum_map_ext _
               (fun b => if (b =? Z.to_nat (half_width N))%nat
                         then (if (a =? Z.to_nat (half_width N))%nat then x else 0%Q)
                         else 0%Q)).
    + now apply Qsum_delta.
    + intros b Hb. apply in_seq in Hb.
      rewrite point_term by (assumption || lia).
      fold x.
      replace (Z.of_nat a =? half_width N) with (a =? Z.to_nat (half_width N))%nat.
      2:{ destruct (a =? Z.to_nat (half_width N))%nat eqn:E; symmetry.
          - apply Nat.eqb_eq in E. apply Z.eqb_eq. lia.
          - apply Nat.eqb_neq in E. apply Z.eqb_neq. lia. }
      replace (Z.of_nat b =? half_width N) with (b =? Z.to_nat (half_width N))%nat.
      2:{ destruct (b =? Z.to_nat (half_width N))%nat eqn:E; symmetry.
          - apply Nat.eqb_eq in E. apply Z.eqb_eq. lia.
          - apply Nat.eqb_neq in E. apply Z.eqb_neq. lia. }
      destruct (a =? _)%nat; destruct (b =? _)%nat; reflexivity.
Qed.

Lemma point_inner_sample :
  (3 <= N <= 4)%nat ->
  In (sample data_in (u * _ysize + w))
     (samples hm data_in (flat _ysize q_i p_i) (inner_block N)).
Proof.
  intros HN. unfold samples, inner_block. left.
  f_equal.
  pose proof source_cell_point as Ec.
  rewrite RotationMap_row by assumption.
  rewrite point_row_entry; rewrite ?Ec; simpl fst; simpl snd;
    try assumption; try lia.
  assert (Hh : half_width N = 1).
  { destruct N as [|[|[|[|[|n]]]]]; try lia; reflexivity. }
  rewrite Hh.
  replace (u + Z.of_nat 1 - 1) with u by lia.
  replace (w + Z.of_nat 1 - 1) with w by lia.
  replace (in_grid _xsize _ysize u w) with true; [reflexivity|].
  symmetry. unfold in_grid.
  repeat (apply andb_true_iff; split);
    try (apply Z.leb_le; lia); apply Z.ltb_lt; lia.
Qed.

End GridPoint.

(** Lines 199-220 at a target whose source is the grid point [(u, w)]. *)
Lemma point_apply (INTERPOL_TYPE : nat) (ROTATION_TYPE : Z)
      (_xsize _ysize : Z) (cos_dt sin_dt : Q) (INTERPOL_SATURATING : bool)
      (limits_min limits_max : Q) (data_in data_out : list Q)
      (q_i p_i u w : Z) :
  (fst (coords ROTATION_TYPE _xsize _ysize cos_dt sin_dt q_i p_i) == inject_Z u)%Q
  /\ (snd (coords ROTATION_TYPE _xsize _ysize cos_dt sin_dt q_i p_i) == inject_Z w)%Q ->
  (1 <= INTERPOL_TYPE <= 4)%nat ->
  (INTERPOL_SATURATING = true -> (3 <= INTERPOL_TYPE)%nat) ->
  _xsize + Z.of_nat INTERPOL_TYPE <= UINT_MOD ->
  _ysize + Z.of_nat INTERPOL_TYPE <= UINT_MOD ->
  _xsize * _ysize <= UINT_MOD ->
  0 <= q_i < _xsize -> 0 <= p_i < _ysize ->
  0 <= u < _xsize -> 0 <= w < _ysize ->
  (Z.to_nat (_xsize * _ysize) <= List.length data_out)%nat ->
  (nth (flat _ysize q_i p_i)
       (RotationMap.apply INTERPOL_TYPE INTERPOL_SATURATING limits_min limits_max
          (RotationMap INTERPOL_TYPE ROTATION_TYPE _xsize _ysize cos_dt sin_dt)
          (INTERPOL_TYPE * INTERPOL_TYPE) (Z.to_nat (_xsize * _ysize))
          data_in data_out) 0
   == nth (flat _ysize u w) data_in 0)%Q.
Proof.
  intros Him HN Hsat Hx Hy Hxy Hq Hp Hu Hw Hout.
  rewrite apply_nth; [|unfold flat; nia | exact Hout].
  unfold apply_value.
  pose proof (point_accumulate INTERPOL_TYPE ROTATION_TYPE _xsize _ysize
                cos_dt sin_dt q_i p_i u w Him Hx Hy Hxy Hq Hp Hu Hw data_in HN)
    as Hacc.
  destruct INTERPOL_SATURATING.
  - rewrite saturate_sample; [exact Hacc|].
    exists (sample data_in (u * _ysize + w)). split.
    + apply (point_inner_sample INTERPOL_TYPE ROTATION_TYPE _xsize _ysize
               cos_dt sin_dt q_i p_i u w Him Hx Hy Hxy Hq Hp Hu Hw data_in).
      specialize (Hsat eq_refl). lia.
    + now symmetry.
  - exact Hacc.
Qed.

(** [std::modf]: the two parts add up to the argument, the fractional
    part is smaller than 1 in absolute value and has the sign of the
    argument. *)
Lemma modf_parts (x : Q) :
  (x == snd (modf x) + fst (modf x))%Q
  /\ snd (modf x) = inject_Z (Qtrunc x)
  /\ (-1 < fst (modf x) < 1)%Q
  /\ ((0 <= x)%Q -> (0 <= fst (modf x))%Q /\ 0 <= Qtrunc x)
  /\ ((x <= 0)%Q -> (fst (modf x) <= 0)%Q /\ Qtrunc x <= 0).
Proof.
  unfold modf. simpl fst. simpl snd.
  split; [ring|]. split; [reflexivity|].
  destruct x as [n d]. unfold Qtrunc. simpl Qnum. simpl Qden.
  pose proof (Z.quot_rem' n (Zpos d)) as Hqr.
  pose proof (Z.rem_bound_abs n (Zpos d) ltac:(discriminate)) as Hb.
  assert (Hd : 0 < Zpos d) by reflexivity.
  rewrite (Z.abs_eq (Zpos d)) in Hb by lia.
  unfold Qlt, Qle, Qminus, Qplus, Qopp, inject_Z. simpl Qnum. simpl Qden.
  set (q := Z.quot n (Zpos d)) in *. set (r := Z.rem n (Zpos d)) in *.
  rewrite ?Pos.mul_1_r, ?Z.mul_1_r.
  split; [split; lia|]. split.
  - intros Hx. rewrite Z.mul_0_l in Hx.
    pose proof (Z.rem_nonneg n (Zpos d) ltac:(lia) Hx) as Hr. fold r in Hr.
    split; [lia|]. apply Z.quot_pos; lia.
  - intros Hx. rewrite Z.mul_0_l in Hx.
    pose proof (Z.rem_nonpos n (Zpos d) ltac:(lia) Hx) as Hr. fold r in Hr.
    split; [lia|].
    pose proof (Z.quot_opp_l n (Zpos d) ltac:(lia)) as Ho.
    assert (0 <= Z.quot (- n) (Zpos d)) by (apply Z.quot_pos; lia).
    fold q in Ho. lia.
Qed.

End GridPointFacts.

(** * RotationMap.cpp: properties beyond the design document *)

Module MapExtras.

Import RotationMap Spec Fields Examples RotationFacts KernelFacts ApplyFacts.
Import IdentityFacts MapFacts GridPointFacts BoundaryClaims.



(** X2.  Without the saturation pass [apply] is linear in the input
    field: on the field [a*X + b*Y] it leaves, at every target,
    [a] times what it leaves on [X] plus [b] times what it leaves on
    [Y]. *)
Theorem apply_is_linear (INTERPOL_TYPE : nat) (limits_min limits_max : Q)
        (hm : heritage_map) (_ip _size : nat) (a b : Q)
        (X Y out outX outY : list Q) (i : nat) :
  (i < _size)%nat ->
  (_size <= List.length out)%nat -> (_size <= List.length outX)%nat ->
  (_size <= List.length outY)%nat ->
  List.length X = List.length Y ->
  (nth i (RotationMap.apply INTERPOL_TYPE false limits_min limits_max hm _ip
            _size (lincomb a X b Y) out) 0
   == a * nth i (RotationMap.apply INTERPOL_TYPE false limits_min limits_max hm
                   _ip _size X outX) 0
      + b * nth i (RotationMap.apply INTERPOL_TYPE false limits_min limits_max hm
                     _ip _size Y outY) 0)%Q.
Proof.
  intros Hi Ho Hx Hy Hlen.
  rewrite !apply_nth by assumption. unfold apply_value.
  now apply accumulate_linear.
Qed.

Lemma apply_is_linear_witness :
  (nth 9 (RotationMap.apply 4 false FLT_MIN FLT_MAX hm44 16 16
            (lincomb 2 ramp16 (-3) one_at_6) zeros16) 0
   == 2 * nth 9 (RotationMap.apply 4 false FLT_MIN FLT_MAX hm44 16 16
                   ramp16 zeros16) 0
      + (-3) * nth 9 (RotationMap.apply 4 false FLT_MIN FLT_MAX hm44 16 16
                        one_at_6 zeros16) 0)%Q.
Proof.
  apply (apply_is_linear 4 FLT_MIN FLT_MAX hm44 16 16 2 (-3) ramp16 one_at_6
                         zeros16 zeros16 zeros16 9);
    first [ lia | simpl; lia | reflexivity ].
Defined.

(** X3.  [apply] writes the first [_size] cells of the output buffer and
    no other; the buffer keeps its length, and what is written does not
    depend on what the buffer held before. *)
Theorem apply_writes_first_cells (INTERPOL_TYPE : nat) (INTERPOL_SATURATING : bool)
        (limits_min limits_max : Q) (hm : heritage_map) (_ip _size : nat)
        (data_in out1 out2 : list Q) :
  (_size <= List.length out1)%nat -> (_size <= List.length out2)%nat ->
  List.length (RotationMap.apply INTERPOL_TYPE INTERPOL_SATURATING limits_min
                 limits_max hm _ip _size data_in out1) = List.length out1
  /\ (forall j, (_size <= j)%nat ->
        nth j (RotationMap.apply INTERPOL_TYPE INTERPOL_SATURATING limits_min
                 limits_max hm _ip _size data_in out1) 0%Q = nth j out1 0%Q)
  /\ (forall i, (i < _size)%nat ->
        nth i (RotationMap.apply INTERPOL_TYPE INTERPOL_SATURATING limits_min
                 limits_max hm _ip _size data_in out1) 0%Q
        = nth i (RotationMap.apply INTERPOL_TYPE INTERPOL_SATURATING limits_min
                   limits_max hm _ip _size data_in out2) 0%Q).
Proof. apply apply_frame. Qed.

Lemma apply_writes_first_cells_witness :
  nth 12 (RotationMap.apply 4 true FLT_MIN FLT_MAX hm44 16 10 one_at_6 ramp16) 0%Q
  = nth 12 ramp16 0%Q.
Proof.
  destruct (apply_writes_first_cells 4 true FLT_MIN FLT_MAX hm44 16 10 one_at_6
              ramp16 ramp16 ltac:(simpl; lia) ltac:(simpl; lia)) as (_ & H & _).
  apply H. lia.
Defined.

(** X4.  The saturation pass changes nothing where the sum does not
    overshoot: for a row that holds the four positions the pass reads,
    when the sum of lines 203-207 lies between two of the four samples
    read there, the value left with saturation compiled in equals the
    value left without it. *)
Theorem saturation_keeps_values_in_range (INTERPOL_TYPE : nat)
        (limits_min limits_max : Q) (hm : heritage_map) (_ip _size : nat)
        (data_in out1 out2 : list Q) (i : nat) :
  (i < _size)%nat ->
  (_size <= List.length out1)%nat -> (_size <= List.length out2)%nat ->
  (2 * INTERPOL_TYPE + 2 < List.length (nth i hm []))%nat ->
  within (accumulate hm _ip data_in i)
         (samples hm data_in i (inner_block INTERPOL_TYPE)) ->
  (nth i (RotationMap.apply INTERPOL_TYPE true limits_min limits_max hm _ip
            _size data_in out1) 0
   == nth i (RotationMap.apply INTERPOL_TYPE false limits_min limits_max hm _ip
               _size data_in out2) 0)%Q.
Proof.
  intros Hi H1 H2 _ Hw.
  rewrite !apply_nth by assumption. unfold apply_value.
  now apply saturate_in_range.
Qed.

Lemma saturation_keeps_values_in_range_witness :
  (nth 9 (RotationMap.apply 4 true FLT_MIN FLT_MAX hm44 16 16 one_at_6 zeros16) 0
   == nth 9 (RotationMap.apply 4 false FLT_MIN FLT_MAX hm44 16 16 one_at_6
               zeros16) 0)%Q.
Proof.
  apply (saturation_keeps_values_in_range 4 FLT_MIN FLT_MAX hm44 16 16 one_at_6
                                          zeros16 zeros16 9).
  - lia.
  - simpl. lia.
  - simpl. lia.
  - vm_compute. lia.
  - split.
    + exists 0%Q. split; [vm_compute; auto | vm_compute; discriminate].
    + exists 1%Q. split; [vm_compute; auto | vm_compute; discriminate].
Defined.

(** X5.  When the inverse image of a target is a grid point [(u, w)] of
    the grid -- both coordinates integral -- [apply] copies the input
    value of that point to the target, for every order from 1 to 4 (with
    the saturation pass for orders 3 and 4). *)
Theorem grid_point_source_copied (INTERPOL_TYPE : nat) (ROTATION_TYPE : Z)
        (_xsize _ysize : Z) (cos_dt sin_dt : Q) (INTERPOL_SATURATING : bool)
        (limits_min limits_max : Q) (data_in data_out : list Q)
        (q_i p_i u w : Z) :
  let c := coords ROTATION_TYPE _xsize _ysize cos_dt sin_dt q_i p_i in
  (fst c == inject_Z u)%Q /\ (snd c == inject_Z w)%Q ->
  (1 <= INTERPOL_TYPE <= 4)%nat ->
  (INTERPOL_SATURATING = true -> (3 <= INTERPOL_TYPE)%nat) ->
  _xsize + Z.of_nat INTERPOL_TYPE <= UINT_MOD ->
  _ysize + Z.of_nat INTERPOL_TYPE <= UINT_MOD ->
  _xsize * _ysize <= UINT_MOD ->
  0 <= q_i < _xsize -> 0 <= p_i < _ysize ->
  0 <= u < _xsize -> 0 <= w < _ysize ->
  (Z.to_nat (_xsize * _ysize) <= List.length data_out)%nat ->
  (nth (flat _ysize q_i p_i)
       (RotationMap.apply INTERPOL_TYPE INTERPOL_SATURATING limits_min limits_max
          (RotationMap INTERPOL_TYPE ROTATION_TYPE _xsize _ysize cos_dt sin_dt)
          (INTERPOL_TYPE * INTERPOL_TYPE) (Z.to_nat (_xsize * _ysize))
          data_in data_out) 0
   == nth (flat _ysize u w) data_in 0)%Q.
Proof.
  intros c. apply point_apply.
Qed.

Lemma grid_point_source_copied_witness :
  (nth (flat 4 1 2)
       (RotationMap.apply 4 true FLT_MIN FLT_MAX half_turn44 (4 * 4)
          (Z.to_nat (4 * 4)) ramp16 zeros16) 0
   == nth (flat 4 3 2) ramp16 0)%Q.
Proof.
  assert (Him : (fst (coords 1 4 4 (-1) 0 1 2) == inject_Z 3)%Q
                /\ (snd (coords 1 4 4 (-1) 0 1 2) == inject_Z 2)%Q)
    by (split; vm_compute; reflexivity).
  assert (Hx : 4 + Z.of_nat 4 <= UINT_MOD) by (vm_compute; discriminate).
  assert (Hxy : 4 * 4 <= UINT_MOD) by (vm_compute; discriminate).
  assert (Hlen : (Z.to_nat (4 * 4) <= List.length zeros16)%nat) by (simpl; lia).
  exact (grid_point_source_copied 4 1 4 4 (-1) 0 true FLT_MIN FLT_MAX ramp16
           zeros16 1 2 3 2 Him ltac:(lia) ltac:(intros _; lia) Hx Hx Hxy
           ltac:(lia) ltac:(lia) ltac:(lia) ltac:(lia) Hlen).
Defined.

(** X8.  The builder splits a coordinate with [std::modf], towards zero:
    the fractional distance of a target is the coordinate minus its
    integral part, lies strictly between -1 and 1, is at least 0 for a
    coordinate that is at least 0 and at most 0 for one that is at most
    0.  Target (0,0) of [hm44] has the coordinate -4/5, source cell 0 and
    fractional distance -4/5. *)
Theorem offsets_follow_truncation (ROTATION_TYPE : Z) (_xsize _ysize : Z)
        (cos_dt sin_dt : Q) (q_i p_i : Z) :
  let c := coords ROTATION_TYPE _xsize _ysize cos_dt sin_dt q_i p_i in
  let xi := source_offset ROTATION_TYPE _xsize _ysize cos_dt sin_dt q_i p_i in
  ((fst c == inject_Z (Qtrunc (fst c)) + fst xi)%Q
   /\ (-1 < fst xi < 1)%Q
   /\ ((0 <= fst c)%Q -> (0 <= fst xi)%Q)
   /\ ((fst c <= 0)%Q -> (fst xi <= 0)%Q))
  /\ ((snd c == inject_Z (Qtrunc (snd c)) + snd xi)%Q
      /\ (-1 < snd xi < 1)%Q
      /\ ((0 <= snd c)%Q -> (0 <= snd xi)%Q)
      /\ ((snd c <= 0)%Q -> (snd xi <= 0)%Q))
  /\ ((fst (coords 1 4 4 (3 # 5) (- 4 # 5) 0 0) == - (4 # 5))%Q
      /\ fst (source_cell 1 4 4 (3 # 5) (- 4 # 5) 0 0) = 0
      /\ (fst (source_offset 1 4 4 (3 # 5) (- 4 # 5) 0 0) == - (4 # 5))%Q).
Proof.
  intros c xi. subst c xi. unfold source_offset.
  destruct (coords ROTATION_TYPE _xsize _ysize cos_dt sin_dt q_i p_i) as [qc pc].
  simpl fst. simpl snd.
  destruct (modf_parts qc) as (A1 & A2 & A3 & A4 & A5).
  destruct (modf_parts pc) as (B1 & B2 & B3 & B4 & B5).
  rewrite A2 in A1. rewrite B2 in B1.
  split; [|split].
  - split; [exact A1|]. split; [exact A3|].
    split; intros H; [apply (A4 H) | apply (A5 H)].
  - split; [exact B1|]. split; [exact B3|].
    split; intros H; [apply (B4 H) | apply (B5 H)].
  - repeat split; vm_compute; reflexivity.
Qed.

End MapExtras.

(** * The aligned allocator *)

Module MemFacts.

Import ArrayH ArrayMem.

Lemma wrap_size_small (z : Z) : 0 <= z < SIZE_MOD -> wrap_size z = z.
Proof. intros H. unfold wrap_size. apply Z.mod_small. exact H. Qed.

Lemma pow2_pos (k : Z) : 0 <= k -> 0 < 2 ^ k.
Proof. intros H. apply Z.pow_pos_nonneg; lia. Qed.

Lemma pow2_below (k : Z) : 0 <= k < 64 -> 2 ^ k < SIZE_MOD.
Proof. intros H. unfold SIZE_MOD. apply Z.pow_lt_mono_r; lia. Qed.

(** [~(alignment-1)] keeps the bits from [k] upwards. *)
Lemma high_mask (k : Z) :
  0 <= k <= 64 -> SIZE_MOD - 1 - (2 ^ k - 1) = Z.shiftl (Z.ones (64 - k)) k.
Proof.
  intros Hk. rewrite Z.shiftl_mul_pow2 by lia. rewrite Z.ones_equiv.
  assert (E : SIZE_MOD = 2 ^ (64 - k) * 2 ^ k).
  { unfold SIZE_MOD. rewrite <- Z.pow_add_r by lia. f_equal. lia. }
  rewrite E. unfold Z.pred. ring.
Qed.

Lemma clear_low_bits (x k : Z) :
  0 <= k <= 64 -> 0 <= x < SIZE_MOD ->
  Z.land x (SIZE_MOD - 1 - (2 ^ k - 1)) = x - x mod 2 ^ k.
Proof.
  intros Hk Hx. rewrite high_mask by exact Hk.
  assert (E : x - x mod 2 ^ k = Z.ldiff x (Z.ones k)).
  { rewrite Z.ldiff_ones_r by lia.
    rewrite Z.shiftl_mul_pow2, Z.shiftr_div_pow2 by lia.
    pose proof (pow2_pos k ltac:(lia)) as Hp.
    pose proof (Z.div_mod x (2 ^ k) ltac:(lia)). lia. }
  rewrite E. apply Z.bits_inj'. intros n Hn.
  rewrite Z.land_spec, Z.ldiff_spec.
  destruct (Z.lt_ge_cases n k) as [Hlow|Hhigh].
  - rewrite Z.shiftl_spec_low by lia. rewrite Z.ones_spec_low by lia.
    now rewrite !andb_false_r.
  - rewrite Z.shiftl_spec by lia. rewrite (Z.ones_spec_high k n) by lia.
    simpl negb. rewrite andb_true_r.
    destruct (Z.lt_ge_cases n 64) as [Hin|Hout].
    + rewrite Z.ones_spec_low by lia. apply andb_true_r.
    + rewrite Z.ones_spec_high by lia. rewrite andb_false_r.
      rewrite <- (Z.mod_small x (2 ^ 64)) by exact Hx.
      symmetry. apply Z.mod_pow2_bits_high. lia.
Qed.

(** A power of two from 8 upwards passes the test of the allocator. *)
Lemma power_of_two_passes (k : Z) :
  3 <= k < 64 ->
  negb (2 ^ k mod sizeof_ptr =? 0)
  || negb (Z.land (2 ^ k) (wrap_size (2 ^ k - 1)) =? 0) = false.
Proof.
  intros Hk.
  pose proof (pow2_pos k ltac:(lia)) as Hp.
  pose proof (pow2_below k ltac:(lia)) as Hb.
  assert (E8 : 2 ^ k mod sizeof_ptr = 0).
  { unfold sizeof_ptr. replace k with ((k - 3) + 3) by lia.
    rewrite Z.pow_add_r by lia. change (2 ^ 3) with 8. apply Z.mod_mul. lia. }
  rewrite E8. rewrite wrap_size_small by lia.
  replace (2 ^ k - 1) with (Z.ones k) by (rewrite Z.ones_equiv; lia).
  rewrite Z.land_ones by lia. rewrite Z.mod_same by lia. reflexivity.
Qed.

(** The arithmetic of lines 76-81 for an alignment [2^k]. *)
Lemma aligned_pointer_facts (malloc : Z -> Z) (m : memory) (k size : Z) :
  let alignment := 2 ^ k in
  let p0 := malloc (size + alignment) in
  3 <= k < 64 -> 0 <= size -> 0 < p0 -> p0 + (size + alignment) < SIZE_MOD ->
  exists p,
    posix_memalign0 malloc m alignment size
    = (aligned_at p p0, poke m (p - sizeof_ptr) p0)
    /\ p mod alignment = 0
    /\ p0 < p <= p0 + alignment
    /\ p + size <= p0 + (size + alignment)
    /\ (p0 mod sizeof_ptr = 0 -> p0 <= p - sizeof_ptr)
    /\ free0 (poke m (p - sizeof_ptr) p0) p = Some p0.
Proof.
  intros alignment p0 Hk Hsize Hp0 Hfit.
  pose proof (pow2_pos k ltac:(lia)) as Ha. fold alignment in Ha.
  set (p := p0 + alignment - (p0 + alignment) mod alignment).
  assert (Hrun : posix_memalign0 malloc m alignment size
                 = (aligned_at p p0, poke m (p - sizeof_ptr) p0)).
  { unfold posix_memalign0. fold alignment.
    unfold alignment at 1 2 3. rewrite power_of_two_passes by exact Hk.
    fold alignment.
    rewrite (wrap_size_small (size + alignment)) by lia. fold p0.
    destruct (p0 =? 0) eqn:E0; [apply Z.eqb_eq in E0; lia|].
    rewrite (wrap_size_small (p0 + alignment)) by lia.
    rewrite (wrap_size_small (alignment - 1)) by lia.
    cbv zeta. unfold alignment.
    rewrite !clear_low_bits by (fold alignment; lia). reflexivity. }
  pose proof (Z.mod_pos_bound (p0 + alignment) alignment Ha) as Hm.
  pose proof (Z.div_mod (p0 + alignment) alignment ltac:(lia)) as Hdm.
  assert (Hmod : (p0 + alignment) mod alignment = p0 mod alignment).
  { replace (p0 + alignment) with (p0 + 1 * alignment) by lia.
    apply Z_mod_plus_full. }
  pose proof (Z.mod_pos_bound p0 alignment Ha) as Hm0.
  assert (Hp : p = alignment * ((p0 + alignment) / alignment))
    by (unfold p; lia).
  exists p. split; [exact Hrun|].
  split.
  { rewrite Hp. rewrite Z.mul_comm. apply Z.mod_mul. lia. }
  split; [unfold p; rewrite Hmod; lia|].
  split; [unfold p; lia|].
  split.
  { intros H8. unfold sizeof_ptr in *.
    assert (Ha8 : exists a', alignment = 8 * a').
    { exists (2 ^ (k - 3)). unfold alignment.
      replace k with (3 + (k - 3)) at 1 by lia.
      rewrite Z.pow_add_r by lia. reflexivity. }
    destruct Ha8 as [a' Ha8].
    pose proof (Z.div_mod p0 8 ltac:(lia)) as H0. rewrite H8 in H0.
    assert (p0 < p) by (unfold p; rewrite Hmod; lia).
    rewrite Hp, Ha8 in *. nia. }
  unfold free0, poke.
  destruct (p =? 0) eqn:E0.
  { apply Z.eqb_eq in E0. unfold p in E0. rewrite Hmod in E0. lia. }
  rewrite Z.eqb_refl. reflexivity.
Qed.

(** The call with the store checked, in terms of the call without. *)
Lemma checked_call (malloc : Z -> Z) (m : memory) (alignment size : Z) :
  posix_memalign0_checked malloc m alignment size =
  match posix_memalign0 malloc m alignment size with
  | (aligned_at p p0, m') =>
      if inside_block p0 (wrap_size (size + alignment)) (p - sizeof_ptr)
      then Normal (aligned_at p p0, m') else Undefined
  | r => Normal r
  end.
Proof.
  unfold posix_memalign0_checked, posix_memalign0.
  destruct (negb (alignment mod sizeof_ptr =? 0)
            || negb (Z.land alignment (wrap_size (alignment - 1)) =? 0));
    [reflexivity|].
  cbv zeta.
  destruct (malloc (wrap_size (size + alignment)) =? 0) eqn:E0; [reflexivity|].
  apply Z.eqb_neq in E0.
  destruct (inside_block _ _ _); reflexivity.
Qed.

End MemFacts.

Module MemExtras.

Import ArrayH ArrayMem MemFacts.

(** X9.  [posix_memalign0] with an alignment [2^k], [8 <= 2^k < 2^64]: when
    [malloc] gives a block at [p0] that ends inside the address space, the
    call returns 0 with a pointer [p] that is a multiple of the alignment
    and lies in [(p0, p0 + alignment]], so the [size] bytes from [p] are
    inside the block; [p0] is kept in the cell just below [p], which is
    inside the block as well when [malloc] aligns to the pointer size; and
    [free0(p)] hands exactly [p0] to [free]. *)
Theorem aligned_pointer_inside_block
        (malloc : Z -> Z) (m : memory) (k size : Z) :
  let alignment := 2 ^ k in
  let p0 := malloc (size + alignment) in
  3 <= k < 64 -> 0 <= size -> 0 < p0 -> p0 + (size + alignment) < SIZE_MOD ->
  exists p,
    posix_memalign0 malloc m alignment size
    = (aligned_at p p0, poke m (p - sizeof_ptr) p0)
    /\ p mod alignment = 0
    /\ p0 < p <= p0 + alignment
    /\ p + size <= p0 + (size + alignment)
    /\ (p0 mod sizeof_ptr = 0 -> p0 <= p - sizeof_ptr)
    /\ free0 (poke m (p - sizeof_ptr) p0) p = Some p0.
Proof. exact (aligned_pointer_facts malloc m k size). Qed.

Lemma aligned_pointer_inside_block_witness :
  exists p,
    posix_memalign0 (fun _ => 1000) (fun _ => 0) 16 100
    = (aligned_at p 1000, poke (fun _ => 0) (p - sizeof_ptr) 1000)
    /\ p mod 16 = 0
    /\ 1000 < p <= 1016
    /\ free0 (poke (fun _ => 0) (p - sizeof_ptr) 1000) p = Some 1000.
Proof.
  destruct (aligned_pointer_inside_block (fun _ => 1000) (fun _ => 0) 4 100)
    as (p & Hrun & Hmod & Hin & _ & _ & Hfree).
  - lia.
  - lia.
  - lia.
  - vm_compute. reflexivity.
  - exists p. split; [exact Hrun|]. split; [exact Hmod|].
    split; [exact Hin | exact Hfree].
Defined.

(** X10.  [posix_memalign0] does not reject the alignment 0: the test of
    line 76 passes, and when [malloc] gives a block the pointer computed
    in line 80 is null, so that the store of line 81 goes to the cell below
    address 0, outside the block: the call has no defined behaviour.  For
    an alignment [2^k], [8 <= 2^k < 2^64], and a [malloc] that aligns to
    the pointer size the store is inside the block and the call
    returns. *)
Theorem zero_alignment_not_rejected (malloc : Z -> Z) (m : memory) :
  (forall size,
      0 <= size < SIZE_MOD -> 0 < malloc size ->
      posix_memalign0_checked malloc m 0 size = Undefined)
  /\ (forall k size,
         3 <= k < 64 -> 0 <= size ->
         0 < malloc (size + 2 ^ k) ->
         malloc (size + 2 ^ k) mod sizeof_ptr = 0 ->
         malloc (size + 2 ^ k) + (size + 2 ^ k) < SIZE_MOD ->
         posix_memalign0_checked malloc m (2 ^ k) size
         = Normal (posix_memalign0 malloc m (2 ^ k) size)).
Proof.
  split.
  - intros size Hsize Hok. unfold posix_memalign0_checked.
    change (negb (0 mod sizeof_ptr =? 0)
            || negb (Z.land 0 (wrap_size (0 - 1)) =? 0)) with false.
    cbv beta iota zeta. rewrite Z.add_0_r.
    rewrite (wrap_size_small size) by exact Hsize.
    destruct (malloc size =? 0) eqn:E; [apply Z.eqb_eq in E; lia|].
    rewrite Z.add_0_r.
    change (SIZE_MOD - 1 - wrap_size (0 - 1)) with 0.
    rewrite Z.land_0_r. unfold inside_block.
    destruct (malloc size <=? 0 - sizeof_ptr) eqn:E1;
      [apply Z.leb_le in E1; unfold sizeof_ptr in E1; lia|].
    reflexivity.
  - intros k size Hk Hsize Hp0 H8 Hfit.
    destruct (aligned_pointer_facts malloc m k size Hk Hsize Hp0 Hfit)
      as (p & Hrun & _ & Hin & _ & Hcell & _).
    specialize (Hcell H8).
    pose proof (pow2_pos k ltac:(lia)) as Ha.
    rewrite checked_call, Hrun.
    rewrite (wrap_size_small (size + 2 ^ k)) by lia.
    unfold inside_block.
    replace (malloc (size + 2 ^ k) <=? p - sizeof_ptr) with true
      by (symmetry; apply Z.leb_le; exact Hcell).
    replace (p - sizeof_ptr + sizeof_ptr <=? malloc (size + 2 ^ k) + (size + 2 ^ k))
      with true by (symmetry; apply Z.leb_le; lia).
    reflexivity.
Qed.

Lemma zero_alignment_not_rejected_witness :
  posix_memalign0_checked (fun _ => 4096) (fun _ => 0) 0 64 = Undefined
  /\ posix_memalign0_checked (fun _ => 4096) (fun _ => 0) 16 64
     = Normal (posix_memalign0 (fun _ => 4096) (fun _ => 0) 16 64).
Proof.
  destruct (zero_alignment_not_rejected (fun _ => 4096) (fun _ => 0))
    as [H0 H1].
  split.
  - apply H0; [vm_compute; split; [discriminate | reflexivity] | reflexivity].
  - apply (H1 4 64); try lia; try reflexivity.
Defined.

End MemExtras.

(** * Ownership of the memory of an array *)

Module OwnershipFacts.

Import ArrayH ArrayMem.

Section Facts.

Variable T : Type.
Variable NDEBUG : bool.
Variable fresh : T.
Variable sizeof_T : Z.
Variable memalign : Z -> Z -> memalign_result.

Local Abbreviation Deallocate := (Deallocate T).
Local Abbreviation Activate := (Activate T fresh sizeof_T memalign).
Local Abbreviation Allocate := (Allocate T NDEBUG fresh sizeof_T memalign).
Local Abbreviation Reallocate := (Reallocate T NDEBUG fresh sizeof_T memalign).

Lemma Deallocate_not_owner (A : array1 T) :
  test T A allocated = 0 -> Deallocate A = (A, []).
Proof.
  intros H. unfold ArrayMem.Deallocate. rewrite H. reflexivity.
Qed.

Lemma Deallocate_owner (A : array1 T) :
  test T A allocated <> 0 ->
  Deallocate A
  = (mk_array1 T [] (_size T A) unallocated,
     [if negb (test T A aligned =? 0) then ev_deleteAlign (_size T A)
      else ev_delete]).
Proof.
  intros H. unfold ArrayMem.Deallocate.
  destruct (test T A allocated =? 0) eqn:E; [apply Z.eqb_eq in E; contradiction|].
  reflexivity.
Qed.

(** What [Deallocate] leaves: no ownership, and no alignment flag unless
    one was set on an array that did not own its memory. *)
Lemma after_Deallocate (A : array1 T) :
  let A1 := fst (Deallocate A) in
  test T A1 allocated = 0
  /\ (test T A aligned = 0 \/ test T A allocated <> 0 -> test T A1 aligned = 0)
  /\ _size T A1 = _size T A.
Proof.
  unfold ArrayMem.Deallocate.
  destruct (test T A allocated =? 0) eqn:E; simpl.
  - apply Z.eqb_eq in E. split; [exact E|]. split; [|reflexivity].
    intros [H|H]; [exact H | contradiction].
  - split; [reflexivity|]. split; reflexivity.
Qed.

Lemma Allocate_not_owner (n align : Z) (A : array1 T) :
  test T A allocated = 0 ->
  Allocate n align A = Activate align (Dimension T n A).
Proof.
  intros H. unfold ArrayMem.Allocate, __checkActivate, CheckActivate.
  destruct NDEBUG; [reflexivity|].
  rewrite Deallocate_not_owner by exact H.
  destruct (Activate align (Dimension T n A)); reflexivity.
Qed.

Lemma test_set_same (A : array1 T) (flag : Z) :
  flag <> 0 -> test T (set T A flag) flag <> 0.
Proof.
  intros Hf. unfold test, set. simpl.
  rewrite Z.land_lor_distr_l, Z.land_diag.
  intros H. apply Z.lor_eq_0_iff in H. destruct H; contradiction.
Qed.

Lemma Activate_plain (A : array1 T) :
  Activate 0 A
  = (Normal (set T (with_block T A (repeat fresh (Z.to_nat (_size T A))))
                 allocated),
     [ev_new (_size T A)]).
Proof. reflexivity. Qed.

Lemma Activate_aligned (A : array1 T) (align p p0 : Z) :
  align <> 0 ->
  memalign align (wrap_size (_size T A * sizeof_T)) = aligned_at p p0 ->
  Activate align A
  = (Normal (set T (with_block T A (repeat fresh (Z.to_nat (_size T A))))
                 (Z.lor allocated aligned)),
     [ev_newAlign (_size T A) align]).
Proof.
  intros Ha Hm. unfold ArrayMem.Activate, newAlign.
  destruct (align =? 0) eqn:E; [apply Z.eqb_eq in E; contradiction|].
  simpl negb. cbv iota. rewrite Hm. reflexivity.
Qed.

Lemma Activate_invalid (A : array1 T) (align : Z) :
  align <> 0 ->
  memalign align (wrap_size (_size T A * sizeof_T)) = EINVAL ->
  Activate align A
  = (Thrown [Str "ERROR: "; Str "Invalid alignment requested"; Str "."], []).
Proof.
  intros Ha Hm. unfold ArrayMem.Activate, newAlign.
  destruct (align =? 0) eqn:E; [apply Z.eqb_eq in E; contradiction|].
  simpl negb. cbv iota. rewrite Hm. reflexivity.
Qed.

(** The flags after an allocation on an array that did not own memory. *)
Lemma flags_after_plain (A : array1 T) (blk : list T) :
  test T A allocated = 0 -> test T A aligned = 0 ->
  let A' := set T (with_block T A blk) allocated in
  test T A' allocated <> 0 /\ test T A' aligned = 0.
Proof.
  intros H1 H4 A'. split.
  - apply test_set_same. discriminate.
  - unfold A', test, set in *. simpl in *.
    rewrite Z.land_lor_distr_l, H4. reflexivity.
Qed.

Lemma flags_after_aligned (A : array1 T) (blk : list T) :
  let A' := set T (with_block T A blk) (Z.lor allocated aligned) in
  test T A' allocated <> 0 /\ test T A' aligned <> 0.
Proof.
  intros A'. unfold A', test, set. simpl.
  rewrite !Z.land_lor_distr_l. split.
  - change (Z.land (Z.lor allocated aligned) allocated) with 1.
    intros H. apply Z.lor_eq_0_iff in H. destruct H; discriminate.
  - change (Z.land (Z.lor allocated aligned) aligned) with 4.
    intros H. apply Z.lor_eq_0_iff in H. destruct H; discriminate.
Qed.

End Facts.

End OwnershipFacts.

Module OwnershipExtras.

Import ArrayH ArrayMem OwnershipFacts.

(** X11.  [Reallocate(n, align)] on an array whose alignment flag is not
    left over from memory it no longer owns: the old block, if owned, is
    released first, then [n] elements are taken with [new []] when [align]
    is 0 and with the aligned allocator otherwise; the array then has
    [n] elements and a later [Deallocate] releases them with [delete []]
    in the first case and with [deleteAlign] in the second. *)
Theorem release_matches_allocation
        (T : Type) (NDEBUG : bool) (fresh : T) (sizeof_T : Z)
        (memalign : Z -> Z -> memalign_result)
        (A : array1 T) (n align : Z) :
  test T A aligned = 0 \/ test T A allocated <> 0 ->
  (align <> 0 ->
   exists p p0, memalign align (wrap_size (n * sizeof_T)) = aligned_at p p0) ->
  exists A',
    Reallocate T NDEBUG fresh sizeof_T memalign n align A
    = (Normal A',
       snd (Deallocate T A)
       ++ [if align =? 0 then ev_new n else ev_newAlign n align])
    /\ _size T A' = n
    /\ v T A' = repeat fresh (Z.to_nat n)
    /\ Deallocate T A'
       = (mk_array1 T [] n unallocated,
          [if align =? 0 then ev_delete else ev_deleteAlign n]).
Proof.
  intros Hflag Hmem. unfold Reallocate.
  destruct (after_Deallocate T A) as (H1 & H4 & _).
  specialize (H4 Hflag).
  destruct (Deallocate T A) as [A1 e1]. simpl in H1, H4. simpl snd.
  rewrite Allocate_not_owner by exact H1.
  destruct (align =? 0) eqn:E.
  - apply Z.eqb_eq in E. subst align. rewrite Activate_plain.
    set (blk := repeat fresh (Z.to_nat (_size T (Dimension T n A1)))).
    destruct (flags_after_plain T (Dimension T n A1) blk H1 H4) as [Ha Hb].
    eexists. split; [reflexivity|]. split; [reflexivity|].
    split; [reflexivity|].
    rewrite Deallocate_owner by exact Ha. rewrite Hb. reflexivity.
  - apply Z.eqb_neq in E. destruct (Hmem E) as (p & p0 & Hp).
    rewrite (Activate_aligned T fresh sizeof_T memalign (Dimension T n A1)
               align p p0 E Hp).
    set (blk := repeat fresh (Z.to_nat (_size T (Dimension T n A1)))).
    destruct (flags_after_aligned T (Dimension T n A1) blk) as [Ha Hb].
    eexists. split; [reflexivity|]. split; [reflexivity|].
    split; [reflexivity|].
    rewrite Deallocate_owner by exact Ha.
    apply Z.eqb_neq in Hb. rewrite Hb. reflexivity.
Qed.

Lemma release_matches_allocation_witness :
  exists A',
    Reallocate Z false 0 4
      (fun a s => fst (posix_memalign0 (fun _ => 4096) (fun _ => 0) a s))
      2 16 (mk_array1 Z [1; 2; 3] 3 5)
    = (Normal A', [ev_deleteAlign 3; ev_newAlign 2 16])
    /\ Deallocate Z A' = (mk_array1 Z [] 2 unallocated, [ev_deleteAlign 2]).
Proof.
  destruct (release_matches_allocation Z false 0 4
              (fun a s => fst (posix_memalign0 (fun _ => 4096) (fun _ => 0) a s))
              (mk_array1 Z [1; 2; 3] 3 5) 2 16)
    as (A' & Hrun & _ & _ & Hrel).
  - right. vm_compute. discriminate.
  - intros _. exists 4112, 4096. vm_compute. reflexivity.
  - exists A'. split; [exact Hrun | exact Hrel].
Defined.

(** X12.  [Allocate(n, align)] with an alignment that is not a multiple
    of the size of a pointer, the aligned memory coming from
    [posix_memalign0]: the call ends in the fault
    "ERROR: Invalid alignment requested." and takes no memory; with
    argument checking compiled in, memory the array owned has been
    released before the fault. *)
Theorem invalid_alignment_faults
        (T : Type) (NDEBUG : bool) (fresh : T) (sizeof_T : Z)
        (malloc : Z -> Z) (m : memory) (A : array1 T) (n align : Z) :
  align mod sizeof_ptr <> 0 ->
  Allocate T NDEBUG fresh sizeof_T
           (fun a s => fst (posix_memalign0 malloc m a s)) n align A
  = (Thrown [Str "ERROR: "; Str "Invalid alignment requested"; Str "."],
     if NDEBUG then [] else snd (Deallocate T (Dimension T n A))).
Proof.
  intros Hbad.
  assert (Hnz : align <> 0) by (intros ->; apply Hbad; reflexivity).
  assert (Hrc : forall s, fst (posix_memalign0 malloc m align s) = EINVAL).
  { intros s. unfold posix_memalign0.
    destruct (align mod sizeof_ptr =? 0) eqn:E;
      [apply Z.eqb_eq in E; contradiction|]. reflexivity. }
  unfold Allocate, __checkActivate, CheckActivate.
  destruct NDEBUG.
  - apply Activate_invalid; [exact Hnz | apply Hrc].
  - destruct (Deallocate T (Dimension T n A)) as [A1 e1]. simpl snd.
    rewrite Activate_invalid; [|exact Hnz | apply Hrc].
    rewrite app_nil_r. reflexivity.
Qed.

Lemma invalid_alignment_faults_witness :
  Allocate Z false 0 4
           (fun a s => fst (posix_memalign0 (fun _ => 4096) (fun _ => 0) a s))
           2 12 (mk_array1 Z [1; 2; 3] 3 allocated)
  = (Thrown [Str "ERROR: "; Str "Invalid alignment requested"; Str "."],
     [ev_delete]).
Proof.
  apply (invalid_alignment_faults Z false 0 4 (fun _ => 4096) (fun _ => 0)
           (mk_array1 Z [1; 2; 3] 3 allocated) 2 12).
  vm_compute. discriminate.
Defined.

(** X13.  [Dimension(n, v0)] on an array that owns aligned memory points
    the array at [v0] without releasing the memory owned, and leaves the
    alignment flag set; a following [Allocate(k)] with the default
    alignment takes its memory with [new []], and [Deallocate] then
    releases that memory with [deleteAlign]. *)
Theorem alignment_flag_left_over
        (T : Type) (NDEBUG : bool) (fresh : T) (sizeof_T : Z)
        (memalign : Z -> Z -> memalign_result)
        (A : array1 T) (n k : Z) (v0 : list T) :
  test T A allocated <> 0 -> test T A aligned <> 0 ->
  let A1 := Dimension_at T n v0 A in
  Deallocate T A1 = (A1, [])
  /\ exists A2,
      Allocate T NDEBUG fresh sizeof_T memalign k 0 A1 = (Normal A2, [ev_new k])
      /\ Deallocate T A2 = (mk_array1 T [] k unallocated, [ev_deleteAlign k]).
Proof.
  intros _ H4 A1.
  assert (E1 : test T A1 allocated = 0).
  { unfold A1, Dimension_at, clear, test. simpl.
    rewrite <- Z.land_assoc. change (Z.land (Z.lnot allocated) allocated) with 0.
    apply Z.land_0_r. }
  assert (E4 : test T A1 aligned = test T A aligned).
  { unfold A1, Dimension_at, clear, test. simpl.
    rewrite <- Z.land_assoc. reflexivity. }
  split; [apply Deallocate_not_owner; exact E1|].
  rewrite Allocate_not_owner by exact E1. rewrite Activate_plain.
  eexists. split; [reflexivity|].
  set (blk := repeat fresh (Z.to_nat (_size T (Dimension T k A1)))).
  rewrite Deallocate_owner by (apply test_set_same; discriminate).
  assert (E : test T (set T (with_block T (Dimension T k A1) blk) allocated)
                   aligned
              = test T A aligned).
  { rewrite <- E4. unfold test, set. simpl.
    rewrite Z.land_lor_distr_l. change (Z.land allocated aligned) with 0.
    apply Z.lor_0_r. }
  rewrite E. apply Z.eqb_neq in H4. rewrite H4. reflexivity.
Qed.

Lemma alignment_flag_left_over_witness :
  exists A2,
    Allocate Z false 0 4 (fun _ _ => ENOMEM) 2 0
             (Dimension_at Z 1 [9] (mk_array1 Z [1; 2; 3] 3 5))
    = (Normal A2, [ev_new 2])
    /\ Deallocate Z A2 = (mk_array1 Z [] 2 unallocated, [ev_deleteAlign 2]).
Proof.
  destruct (alignment_flag_left_over Z false 0 4 (fun _ _ => ENOMEM)
              (mk_array1 Z [1; 2; 3] 3 5) 1 2 [9]) as [_ H].
  - vm_compute. discriminate.
  - vm_compute. discriminate.
  - exact H.
Defined.

(** X14.  [Hold()] on an array that owns its memory replaces the state by
    [temporary], which drops the ownership flag: [Purge()] then makes no
    call to the allocator and leaves the array unallocated, block and size
    as they were, and [Deallocate] after it releases nothing either.
    [Hold()] on an array that owns no memory changes nothing. *)
Theorem held_memory_not_released (T : Type) (A : array1 T) :
  (test T A allocated <> 0 ->
   Hold T A = with_state T A temporary
   /\ Purge T (Hold T A) = (with_state T A unallocated, [])
   /\ Deallocate T (fst (Purge T (Hold T A))) = (with_state T A unallocated, []))
  /\ (test T A allocated = 0 -> Hold T A = A).
Proof.
  split.
  - intros H. assert (E : Hold T A = with_state T A temporary).
    { unfold Hold. destruct (test T A allocated =? 0) eqn:E0;
        [apply Z.eqb_eq in E0; contradiction | reflexivity]. }
    rewrite E. split; [reflexivity|]. split; reflexivity.
  - intros H. unfold Hold. rewrite H. reflexivity.
Qed.

Lemma held_memory_not_released_witness :
  Purge Z (Hold Z (mk_array1 Z [1; 2; 3] 3 allocated))
  = (mk_array1 Z [1; 2; 3] 3 unallocated, []).
Proof.
  destruct (held_memory_not_released Z (mk_array1 Z [1; 2; 3] 3 allocated))
    as [H _].
  destruct H as (_ & H & _).
  - vm_compute. discriminate.
  - exact H.
Defined.

End OwnershipExtras.

(** * Copying between arrays *)

Module CopyFacts.

Import ArrayH ArrayMem Spec ArrayFacts CompoundFacts OwnershipFacts.

Section Facts.

Variable T : Type.

Lemma copy_loop_ok :
  forall (rest_s done_s done_d rest_d tail_s : list T),
    List.length done_s = List.length done_d ->
    (List.length rest_s <= List.length rest_d)%nat ->
    copy_loop T (seq (List.length done_d) (List.length rest_s))
              (done_s ++ rest_s ++ tail_s) (done_d ++ rest_d)
    = Normal (done_d ++ rest_s ++ skipn (List.length rest_s) rest_d).
Proof.
  induction rest_s as [|x rs IH]; intros done_s done_d rest_d tail_s Hd Hr.
  - reflexivity.
  - destruct rest_d as [|y rd]; [simpl in Hr; lia|].
    assert (Hx : nth_error (done_s ++ (x :: rs) ++ tail_s) (List.length done_d)
                 = Some x).
    { rewrite nth_error_app2 by lia. rewrite Hd, Nat.sub_diag. reflexivity. }
    assert (Hin : (List.length done_d <? List.length (done_d ++ y :: rd))%nat
                  = true)
      by (apply Nat.ltb_lt; rewrite length_app; simpl; lia).
    change (seq (List.length done_d) (List.length (x :: rs)))
      with (List.length done_d :: seq (S (List.length done_d)) (List.length rs)).
    cbn [copy_loop]. rewrite Hx, Hin, upd_app_here.
    assert (Es : done_s ++ (x :: rs) ++ tail_s = (done_s ++ [x]) ++ rs ++ tail_s)
      by (rewrite <- app_assoc; reflexivity).
    assert (Ed : done_d ++ x :: rd = (done_d ++ [x]) ++ rd)
      by (rewrite <- app_assoc; reflexivity).
    assert (El : S (List.length done_d) = List.length (done_d ++ [x]))
      by (rewrite length_app; simpl; lia).
    rewrite Es, Ed, El. rewrite IH.
    + rewrite <- app_assoc. reflexivity.
    + rewrite !length_app. simpl. lia.
    + simpl in Hr. lia.
Qed.

(** The loop over [n] positions moves the first [n] elements. *)
Lemma copy_loop_all (n : nat) (src dst : list T) :
  (n <= List.length src)%nat -> (n <= List.length dst)%nat ->
  copy_loop T (seq 0 n) src dst = Normal (firstn n src ++ skipn n dst).
Proof.
  intros Hs Hd.
  pose proof (copy_loop_ok (firstn n src) [] [] dst (skipn n src)) as H.
  rewrite length_firstn, Nat.min_l in H by exact Hs.
  simpl in H. rewrite firstn_skipn in H. apply H; [reflexivity | exact Hd].
Qed.

Lemma copy_loop_app (l1 l2 : list nat) (src dst : list T) :
  copy_loop T (l1 ++ l2) src dst =
  match copy_loop T l1 src dst with
  | Normal d => copy_loop T l2 src d
  | Thrown w => Thrown w
  | Undefined => Undefined
  end.
Proof.
  revert dst. induction l1 as [|i l1 IH]; intros dst; simpl; [reflexivity|].
  destruct (nth_error src i); [|reflexivity].
  destruct (i <? List.length dst)%nat; [apply IH | reflexivity].
Qed.

(** A source shorter than the count is read past its end. *)
Lemma copy_loop_short (n : nat) (src dst : list T) :
  (List.length src < n)%nat -> (List.length src <= List.length dst)%nat ->
  copy_loop T (seq 0 n) src dst = Undefined.
Proof.
  intros Hs Hd.
  replace n with (List.length src + (n - List.length src))%nat by lia.
  rewrite seq_app, copy_loop_app.
  rewrite copy_loop_all by lia.
  destruct (n - List.length src)%nat as [|k] eqn:E; [lia|].
  simpl.
  replace (nth_error src (List.length src)) with (@None T)
    by (symmetry; apply nth_error_None; lia).
  reflexivity.
Qed.

Lemma Load_all (a : list T) (A : array1 T) :
  let n := Z.to_nat (_size T A) in
  (n <= List.length a)%nat -> (n <= List.length (v T A))%nat ->
  Load T a A = Normal (with_block T A (firstn n a ++ skipn n (v T A))).
Proof.
  intros n Ha Hv. unfold Load, indices. fold n.
  rewrite copy_loop_all by assumption. reflexivity.
Qed.

(** Copying a whole block over a block of the same length. *)
Lemma Load_whole (a : list T) (A : array1 T) :
  Z.of_nat (List.length a) = _size T A ->
  List.length (v T A) = List.length a ->
  Load T a A = Normal (with_block T A a).
Proof.
  intros Ha Hv.
  rewrite Load_all by (rewrite <- Ha, Nat2Z.id; lia).
  rewrite <- Ha, Nat2Z.id. rewrite firstn_all.
  rewrite skipn_all2 by lia. rewrite app_nil_r. reflexivity.
Qed.

End Facts.

End CopyFacts.

Module CopyExtras.

Import ArrayH ArrayMem Spec ArrayFacts CompoundFacts OwnershipFacts CopyFacts.

(** X15.  [Load(const T *a)] followed by [Store(T *b)] on an array of [n]
    elements, the three blocks holding at least [n] elements each: [Load]
    leaves the size and the state of the array as they were, and [Store]
    writes the first [n] elements of [a] to the first [n] places of [b],
    leaving the rest of [b] as it was. *)
Theorem load_then_store (T : Type) (A : array1 T) (a b : list T) :
  let n := Z.to_nat (_size T A) in
  (n <= List.length a)%nat -> (n <= List.length (v T A))%nat ->
  (n <= List.length b)%nat ->
  exists A',
    Load T a A = Normal A'
    /\ _size T A' = _size T A /\ state T A' = state T A
    /\ firstn n (v T A') = firstn n a
    /\ Store T b A' = Normal (firstn n a ++ skipn n b).
Proof.
  intros n Ha Hv Hb.
  exists (with_block T A (firstn n a ++ skipn n (v T A))).
  split; [apply Load_all; assumption|].
  split; [reflexivity|]. split; [reflexivity|].
  assert (Hf : firstn n (firstn n a ++ skipn n (v T A)) = firstn n a).
  { rewrite firstn_app, firstn_firstn, Nat.min_id.
    rewrite length_firstn, Nat.min_l by exact Ha.
    rewrite Nat.sub_diag. simpl. apply app_nil_r. }
  split; [exact Hf|].
  unfold Store, indices. simpl _size. fold n.
  rewrite copy_loop_all.
  - simpl v. rewrite Hf. reflexivity.
  - simpl v. rewrite length_app, length_firstn. lia.
  - exact Hb.
Qed.

Lemma load_then_store_witness :
  exists A',
    Load Z [7; 8; 9] (mk_array1 Z [1; 2] 2 allocated) = Normal A'
    /\ Store Z [0; 0; 0; 0] A' = Normal [7; 8; 0; 0].
Proof.
  destruct (load_then_store Z (mk_array1 Z [1; 2] 2 allocated)
              [7; 8; 9] [0; 0; 0; 0])
    as (A' & H1 & _ & _ & _ & H2).
  - simpl. lia.
  - simpl. lia.
  - simpl. lia.
  - exists A'. split; [exact H1 | exact H2].
Defined.

(** X16.  [array1::operator = (const array1&)] between arrays that share
    no memory, the right operand [A] holding as many elements as its
    size says: the assignment never faults.  When the sizes agree (the
    left block then holding that many elements) the elements of [A] are
    copied and no call to the allocator is made for the left operand;
    when they differ the left operand releases what it owns, takes
    [A.Size()] elements with [new []] and then owns them, whatever its
    alignment was.  In both cases the left operand ends with the size
    and the elements of [A], and [A] is purged. *)
Theorem array1_assignment_resizes
        (T : Type) (NDEBUG : bool) (fresh : T) (sizeof_T : Z)
        (memalign : Z -> Z -> memalign_result) (this A : array1 T) :
  Z.of_nat (List.length (v T A)) = _size T A ->
  (_size T this = _size T A -> List.length (v T this) = List.length (v T A)) ->
  exists this',
    array1_assign T NDEBUG fresh sizeof_T memalign this A
    = (Normal (this', fst (Purge T A)),
       (if _size T this =? _size T A then []
        else snd (Deallocate T this) ++ [ev_new (_size T A)])
       ++ snd (Purge T A))
    /\ _size T this' = _size T A
    /\ v T this' = v T A
    /\ (_size T this = _size T A -> state T this' = state T this)
    /\ (_size T this <> _size T A -> test T this' allocated <> 0).
Proof.
  intros HA Hsame. unfold array1_assign.
  destruct (_size T this =? _size T A) eqn:E.
  - apply Z.eqb_eq in E. simpl negb. cbv iota.
    rewrite Load_whole; [| lia | exact (Hsame E)].
    destruct (Purge T A) as [A1 e3]. simpl fst. simpl snd.
    exists (with_block T this (v T A)).
    split; [reflexivity|]. split; [exact E|]. split; [reflexivity|].
    split; [reflexivity|]. intros H. contradiction.
  - apply Z.eqb_neq in E. simpl negb. cbv iota.
    destruct (after_Deallocate T this) as (H1 & _ & _).
    destruct (Deallocate T this) as [t1 d]. simpl in H1. simpl snd.
    rewrite (Allocate_not_owner T NDEBUG fresh sizeof_T memalign) by exact H1.
    rewrite Activate_plain.
    set (t2 := set T (with_block T (Dimension T (_size T A) t1)
                        (repeat fresh (Z.to_nat (_size T (Dimension T (_size T A) t1)))))
                   allocated).
    rewrite (Load_whole T (v T A) t2);
      [| exact HA
       | unfold t2; simpl; rewrite repeat_length, <- HA; apply Nat2Z.id].
    destruct (Purge T A) as [A1 e3]. simpl fst. simpl snd.
    exists (with_block T t2 (v T A)).
    split; [reflexivity|]. split; [reflexivity|]. split; [reflexivity|].
    split; [intros H; contradiction|]. intros _.
    apply (test_set_same T (with_block T (Dimension T (_size T A) t1) (v T A))
             allocated). discriminate.
Qed.

Lemma array1_assignment_resizes_witness :
  exists this',
    array1_assign Z false 0 4 (fun _ _ => ENOMEM)
                  (mk_array1 Z [1; 2; 3] 3 5) (mk_array1 Z [7; 8] 2 temporary)
    = (Normal (this', mk_array1 Z [7; 8] 2 unallocated),
       [ev_deleteAlign 3; ev_new 2])
    /\ v Z this' = [7; 8] /\ _size Z this' = 2.
Proof.
  destruct (array1_assignment_resizes Z false 0 4 (fun _ _ => ENOMEM)
              (mk_array1 Z [1; 2; 3] 3 5) (mk_array1 Z [7; 8] 2 temporary))
    as (this' & Hrun & Hs & Hv & _ & _).
  - reflexivity.
  - simpl. discriminate.
  - exists this'. split; [exact Hrun|]. split; [exact Hv | exact Hs].
Defined.

(** X17.  [array2::operator = (const array2&)].  With argument checking
    compiled in, a right operand whose first dimension differs ends the
    call in the fault "Array2 index 1 is incompatible in assignment
    (a != b)" that shows both values, one whose second dimension alone
    differs in the same fault for index 2, and nothing is copied or
    purged; when both dimensions agree the elements of the right operand
    are copied over those of the left and the right operand is purged.
    With argument checking compiled out nothing is compared, and a right
    operand that holds fewer elements than the left is read past its
    end. *)
Theorem array2_assignment_checks_shape (T : Type) (this A : array2 T) :
  let a1 := wrap_int (nx T this) in
  let b1 := wrap_int (nx T A) in
  let a2 := wrap_int (ny T this) in
  let b2 := wrap_int (ny T A) in
  (a1 <> b1 ->
   array2_assign T false this A
   = (Thrown [Str "ERROR: "; Str "Array"; Num 2; Str " index "; Num 1; Str " ";
              Str "is incompatible in assignment ("; Num a1; Str " != ";
              Num b1; Str ")"; Str "."], []))
  /\ (a1 = b1 -> a2 <> b2 ->
      array2_assign T false this A
      = (Thrown [Str "ERROR: "; Str "Array"; Num 2; Str " index "; Num 2; Str " ";
                 Str "is incompatible in assignment ("; Num a2; Str " != ";
                 Num b2; Str ")"; Str "."], []))
  /\ (forall NDEBUG : bool,
         a1 = b1 -> a2 = b2 ->
         Z.of_nat (List.length (v T (base T A))) = _size T (base T this) ->
         List.length (v T (base T this)) = List.length (v T (base T A)) ->
         array2_assign T NDEBUG this A
         = (Normal (with_base T this (with_block T (base T this) (v T (base T A))),
                    with_base T A (fst (Purge T (base T A)))),
            snd (Purge T (base T A))))
  /\ (0 <= _size T (base T this) ->
      Z.of_nat (List.length (v T (base T A))) < _size T (base T this) ->
      Z.of_nat (List.length (v T (base T this))) = _size T (base T this) ->
      array2_assign T true this A = (Undefined, [])).
Proof.
  intros a1 b1 a2 b2. split; [|split; [|split]].
  - intros H. unfold array2_assign, __checkEqual, CheckEqual.
    fold a1 b1.
    destruct (a1 =? b1) eqn:E; [apply Z.eqb_eq in E; contradiction|].
    reflexivity.
  - intros H1 H2. unfold array2_assign, __checkEqual, CheckEqual.
    fold a1 b1 a2 b2.
    rewrite H1, Z.eqb_refl. simpl negb. cbv iota.
    destruct (a2 =? b2) eqn:E; [apply Z.eqb_eq in E; contradiction|].
    reflexivity.
  - intros NDEBUG H1 H2 Hlen Hblk.
    unfold array2_assign, __checkEqual, CheckEqual.
    fold a1 b1 a2 b2. rewrite H1, H2, !Z.eqb_refl. simpl negb.
    destruct NDEBUG; cbv iota;
      (rewrite Load_whole by assumption);
      destruct (Purge T (base T A)) as [A1 e]; reflexivity.
  - intros H0 Hshort Hthis.
    unfold array2_assign, __checkEqual. cbv iota.
    unfold Load, indices.
    rewrite copy_loop_short by lia. reflexivity.
Qed.

Lemma array2_assignment_checks_shape_witness :
  array2_assign Z false
    (mk_array2 Z (mk_array1 Z [1; 2; 3; 4; 5; 6] 6 allocated) 2 3)
    (mk_array2 Z (mk_array1 Z [1; 2; 3; 4; 5; 6] 6 allocated) 3 2)
  = (Thrown [Str "ERROR: "; Str "Array"; Num 2; Str " index "; Num 1; Str " ";
             Str "is incompatible in assignment ("; Num 2; Str " != ";
             Num 3; Str ")"; Str "."], []).
Proof.
  destruct (array2_assignment_checks_shape Z
    (mk_array2 Z (mk_array1 Z [1; 2; 3; 4; 5; 6] 6 allocated) 2 3)
    (mk_array2 Z (mk_array1 Z [1; 2; 3; 4; 5; 6] 6 allocated) 3 2))
    as (H & _ & _ & _).
  apply H. vm_compute. discriminate.
Defined.

End CopyExtras.

(** * Members that read or rewrite the elements *)

Module MemberFacts.

Import ArrayH ArrayMem Spec ArrayFacts CompoundFacts ScalarFacts.

Section Facts.

Variable T : Type.

Lemma check_in_range (b : bool) (i n dim m : Z) :
  0 <= i < n -> __check b i n dim m = Normal tt.
Proof.
  intros H. unfold __check. destruct b; [reflexivity|].
  apply Check_in_range. exact H.
Qed.

Lemma checkSize_passes (b : bool) (A : array1 T) :
  test T A allocated <> 0 \/ _size T A <> 0 -> __checkSize T b A = Normal tt.
Proof.
  intros H. destruct b; [reflexivity | apply CheckSize_passes; exact H].
Qed.

Lemma array1_scalar_build (b : bool) (f : T -> T) (A : array1 T) :
  test T A allocated <> 0 \/ _size T A <> 0 ->
  array1_scalar T b f A = array1_scalar T false f A.
Proof.
  intros H. unfold array1_scalar.
  rewrite (checkSize_passes b), (checkSize_passes false) by exact H.
  reflexivity.
Qed.

Lemma array2_scalar_build (b : bool) (fuel : nat) (f : T -> T) (A : array2 T) :
  test T (base T A) allocated <> 0 \/ _size T (base T A) <> 0 ->
  array2_scalar T b fuel f A = array2_scalar T false fuel f A.
Proof.
  intros H. unfold array2_scalar.
  rewrite (checkSize_passes b), (checkSize_passes false) by exact H.
  reflexivity.
Qed.

Section Extremum.

Variable better : T -> T -> bool.
Hypothesis irreflexive : forall x, better x x = false.
Hypothesis transitive :
  forall x y z, better x y = true -> better y z = true -> better x z = true.

Lemma keep_better (x m : T) :
  let m1 := if better x m then x else m in
  better x m1 = false /\ better m m1 = false
  /\ forall y, better y m = false -> better y m1 = false.
Proof.
  destruct (better x m) eqn:E; simpl.
  - split; [apply irreflexive|]. split.
    + destruct (better m x) eqn:E'; [|reflexivity].
      rewrite <- (irreflexive m). symmetry. apply (transitive m x m E' E).
    + intros y Hy. destruct (better y x) eqn:E'; [|reflexivity].
      rewrite <- Hy. symmetry. apply (transitive y x m E' E).
  - split; [exact E|]. split; [apply irreflexive|]. intros y Hy. exact Hy.
Qed.

Lemma extremum_loop_spec (blk : list T) :
  forall (ixs : list nat) (m : T),
    (forall i, In i ixs -> (i < List.length blk)%nat) ->
    In m blk ->
    exists m',
      extremum_loop T better ixs blk m = Normal m'
      /\ In m' blk
      /\ (forall y, better y m = false -> better y m' = false)
      /\ (forall i x, In i ixs -> nth_error blk i = Some x -> better x m' = false).
Proof.
  induction ixs as [|i ixs IH]; intros m Hin Hm.
  - exists m. split; [reflexivity|]. split; [exact Hm|].
    split; [auto|]. intros i x [].
  - simpl. destruct (nth_error blk i) as [x|] eqn:Ex.
    2:{ apply nth_error_None in Ex. specialize (Hin i (or_introl eq_refl)). lia. }
    destruct (keep_better x m) as (K1 & K2 & K3).
    destruct (IH (if better x m then x else m)) as (m' & Hrun & Hin' & Hle & Hall).
    + intros j Hj. apply Hin. right. exact Hj.
    + destruct (better x m); [eapply nth_error_In; exact Ex | exact Hm].
    + exists m'. split; [exact Hrun|]. split; [exact Hin'|]. split.
      * intros y Hy. apply Hle. apply K3. exact Hy.
      * intros j y [Hj|Hj] Ey.
        -- subst j. rewrite Ex in Ey. injection Ey as <-. apply Hle. exact K1.
        -- apply (Hall j y Hj Ey).
Qed.

Lemma extremum_spec (what : string) (A : array1 T) :
  Z.of_nat (List.length (v T A)) = _size T A ->
  (_size T A = 0 ->
   extremum T what better A = Thrown [Str "ERROR: "; Str what; Str "."])
  /\ (_size T A <> 0 ->
      exists m,
        extremum T what better A = Normal m
        /\ In m (v T A)
        /\ forall x, In x (v T A) -> better x m = false).
Proof.
  intros Hlen. split.
  - intros H0. unfold extremum. rewrite H0. reflexivity.
  - intros Hn. unfold extremum.
    destruct (_size T A =? 0) eqn:E; [apply Z.eqb_eq in E; contradiction|].
    destruct (v T A) as [|m0 rest] eqn:Ev; [simpl in Hlen; lia|].
    simpl nth_error. cbv iota.
    destruct (extremum_loop_spec (m0 :: rest)
                (seq 1 (Z.to_nat (_size T A) - 1)) m0)
      as (m & Hrun & Hin & Hle & Hall).
    + intros i Hi. apply in_seq in Hi. rewrite <- Hlen, Nat2Z.id in Hi. lia.
    + left. reflexivity.
    + exists m. split; [exact Hrun|]. split; [exact Hin|].
      intros x Hx. apply In_nth_error in Hx. destruct Hx as [j Hj].
      destruct j as [|j].
      * simpl in Hj. injection Hj as <-. apply Hle. apply irreflexive.
      * apply (Hall (S j) x); [|exact Hj].
        apply in_seq. rewrite <- Hlen, Nat2Z.id.
        assert (S j < List.length (m0 :: rest))%nat
          by (apply nth_error_Some; congruence).
        lia.
Qed.

End Extremum.

(** The elements of a block filled with one value. *)
Lemma nth_error_filled (z : T) (l : list T) (j : nat) :
  (j < List.length l)%nat -> nth_error (map (fun _ => z) l) j = Some z.
Proof.
  intros H. rewrite nth_error_map.
  destruct (nth_error l j) eqn:E; [reflexivity|].
  apply nth_error_None in E. lia.
Qed.

Lemma deref_skipn (blk : list T) (k i : Z) :
  0 <= k -> 0 <= i ->
  deref T (skipn (Z.to_nat k) blk) i = deref T blk (k + i).
Proof.
  intros Hk Hi. unfold deref.
  destruct (i <? 0) eqn:E1; [apply Z.ltb_lt in E1; lia|].
  destruct (k + i <? 0) eqn:E2; [apply Z.ltb_lt in E2; lia|].
  rewrite nth_error_skipn. rewrite Z2Nat.inj_add by lia. reflexivity.
Qed.

End Facts.

End MemberFacts.

Module MemberExtras.

Import ArrayH ArrayMem Spec ArrayFacts CompoundFacts ScalarFacts MemberFacts.

(** X18.  [Min()] and [Max()] on an array that holds as many elements as
    its size says, for an element type whose [<] and [>] are strict
    orders: on an empty array both end in the fault "ERROR: Cannot take
    minimum (maximum) of empty array.", with argument checking compiled
    out as well; otherwise [Min()] returns an element of the array that
    no element is less than, and [Max()] one that no element is greater
    than. *)
Theorem extremes_of_array
        (T : Type) (ltb gtb : T -> T -> bool) (A : array1 T) :
  (forall x, ltb x x = false) ->
  (forall x y z, ltb x y = true -> ltb y z = true -> ltb x z = true) ->
  (forall x, gtb x x = false) ->
  (forall x y z, gtb x y = true -> gtb y z = true -> gtb x z = true) ->
  Z.of_nat (List.length (v T A)) = _size T A ->
  (_size T A = 0 ->
   Min T ltb A
   = Thrown [Str "ERROR: "; Str "Cannot take minimum of empty array"; Str "."]
   /\ Max T gtb A
      = Thrown [Str "ERROR: "; Str "Cannot take maximum of empty array"; Str "."])
  /\ (_size T A <> 0 ->
      (exists m, Min T ltb A = Normal m /\ In m (v T A)
                 /\ forall x, In x (v T A) -> ltb x m = false)
      /\ (exists m, Max T gtb A = Normal m /\ In m (v T A)
                    /\ forall x, In x (v T A) -> gtb x m = false)).
Proof.
  intros Hl1 Hl2 Hg1 Hg2 Hlen.
  destruct (extremum_spec T ltb Hl1 Hl2
              "Cannot take minimum of empty array" A Hlen) as [Hmin0 Hmin].
  destruct (extremum_spec T gtb Hg1 Hg2
              "Cannot take maximum of empty array" A Hlen) as [Hmax0 Hmax].
  split.
  - intros H0. split; [exact (Hmin0 H0) | exact (Hmax0 H0)].
  - intros Hn. split; [exact (Hmin Hn) | exact (Hmax Hn)].
Qed.

Lemma extremes_of_array_witness :
  (exists m, Min Z Z.ltb (mk_array1 Z [3; 1; 2] 3 allocated) = Normal m
             /\ In m [3; 1; 2] /\ forall x, In x [3; 1; 2] -> (x <? m) = false)
  /\ (exists m, Max Z Z.gtb (mk_array1 Z [3; 1; 2] 3 allocated) = Normal m
                /\ In m [3; 1; 2] /\ forall x, In x [3; 1; 2] -> (x >? m) = false).
Proof.
  destruct (extremes_of_array Z Z.ltb Z.gtb (mk_array1 Z [3; 1; 2] 3 allocated))
    as [_ H].
  - intros x. apply Z.ltb_irrefl.
  - intros x y z H1 H2. apply Z.ltb_lt in H1, H2. apply Z.ltb_lt. lia.
  - intros x. rewrite Z.gtb_ltb. apply Z.ltb_irrefl.
  - intros x y z H1 H2. rewrite Z.gtb_ltb in *.
    apply Z.ltb_lt in H1, H2. apply Z.ltb_lt. lia.
  - reflexivity.
  - apply H. simpl. discriminate.
Defined.

(** X19.  [Identity()] on an [nx] by [ny] array that holds its [nx*ny]
    elements, with [nx <= ny+1]: the call returns, and afterwards the
    element in row [r] and column [c] is 1 when [r = c] and 0 otherwise.
    On an array with [nx >= ny+2] the element in row [ny+1], column 0 is 1
    as well. *)
Theorem identity_sets_diagonal
        (T : Type) (NDEBUG : bool) (zero one : T) (A : array2 T) (fuel : nat) :
  let n := _size T (base T A) in
  Z.of_nat (List.length (v T (base T A))) = n ->
  n = nx T A * ny T A -> 0 <= nx T A -> 0 <= ny T A ->
  n + ny T A + 1 < UINT_MOD ->
  test T (base T A) allocated <> 0 \/ n <> 0 ->
  n <= Z.of_nat fuel ->
  exists blk',
    Identity T NDEBUG fuel zero one A
    = Some (with_base T A (with_block T (base T A) blk'), Normal tt)
    /\ (nx T A <= ny T A + 1 ->
        forall r c, 0 <= r < nx T A -> 0 <= c < ny T A ->
                    nth_error blk' (Z.to_nat (r * ny T A + c))
                    = Some (if r =? c then one else zero))
    /\ (ny T A + 2 <= nx T A -> 0 < ny T A ->
        nth_error blk' (Z.to_nat ((ny T A + 1) * ny T A + 0)) = Some one).
Proof.
  intros n Hlen Hn Hnx Hny Hnowrap Hcs Hfuel.
  unfold Identity, Load_value.
  rewrite array1_scalar_build by exact Hcs.
  rewrite array1_scalar_spec by assumption.
  set (filled := map (fun _ : T => zero) (v T (base T A))).
  set (A0 := with_base T A (with_block T (base T A) filled)).
  rewrite (array2_scalar_build T NDEBUG fuel (fun _ => one) A0) by exact Hcs.
  destruct (array2_scalar_spec T (fun _ => one) A0 fuel)
    as (blk' & Hrun & Hl & Hpt).
  - unfold A0, filled. simpl. rewrite length_map. exact Hlen.
  - exact Hny.
  - exact Hnowrap.
  - exact Hcs.
  - exact Hfuel.
  - exists blk'. split; [exact Hrun|].
    assert (Hcell : forall j : nat,
               Z.of_nat j < n ->
               nth_error blk' j
               = Some (if Z.of_nat j mod (ny T A + 1) =? 0 then one else zero)).
    { intros j Hj. rewrite Hpt. simpl.
      unfold filled. rewrite nth_error_filled by lia.
      destruct (Z.of_nat j mod (ny T A + 1) =? 0); reflexivity. }
    split.
    + intros Hshape r c Hr Hc.
      rewrite Hcell by (rewrite Z2Nat.id by nia; nia).
      rewrite Z2Nat.id by nia.
      pose proof (diagonal_positions (nx T A) (ny T A) r c Hshape Hr Hc) as Hd.
      destruct (r =? c) eqn:E.
      * apply Z.eqb_eq in E. apply Hd in E. rewrite E. reflexivity.
      * apply Z.eqb_neq in E.
        destruct ((r * ny T A + c) mod (ny T A + 1) =? 0) eqn:E';
          [|reflexivity].
        apply Z.eqb_eq in E'. apply Hd in E'. contradiction.
    + intros Hwide Hpos.
      rewrite Hcell by (rewrite Z2Nat.id by nia; nia).
      rewrite Z2Nat.id by nia.
      rewrite Z.add_0_r, Z.mul_comm, Z.mod_mul by lia. reflexivity.
Qed.

Lemma identity_sets_diagonal_witness :
  exists blk',
    Identity Z false 6 0 1
             (mk_array2 Z (mk_array1 Z [5; 5; 5; 5; 5; 5] 6 allocated) 2 3)
    = Some (mk_array2 Z (mk_array1 Z blk' 6 allocated) 2 3, Normal tt)
    /\ nth_error blk' 4 = Some 1 /\ nth_error blk' 5 = Some 0.
Proof.
  destruct (identity_sets_diagonal Z false 0 1
              (mk_array2 Z (mk_array1 Z [5; 5; 5; 5; 5; 5] 6 allocated) 2 3) 6%nat)
    as (blk' & Hrun & Hdiag & _).
  - reflexivity.
  - reflexivity.
  - simpl. lia.
  - simpl. lia.
  - vm_compute. reflexivity.
  - left. vm_compute. discriminate.
  - simpl. lia.
  - exists blk'. split; [exact Hrun|].
    assert (Hshape : nx Z (mk_array2 Z (mk_array1 Z [5; 5; 5; 5; 5; 5] 6 allocated) 2 3)
                     <= ny Z (mk_array2 Z (mk_array1 Z [5; 5; 5; 5; 5; 5] 6 allocated) 2 3) + 1)
      by (simpl; lia).
    split.
    + apply (Hdiag Hshape 1 1); simpl; lia.
    + apply (Hdiag Hshape 1 2); simpl; lia.
Defined.

(** X20.  [array2::operator [] (ix)] for a row [ix] of an [nx] by [ny]
    array that holds its [nx*ny] elements, [nx*ny] within [int]: the
    result is an array of [ny] elements that owns no memory, so that
    releasing it makes no call to the allocator, and its element [iy] is
    the element [(ix, iy)] of the array, for every column [iy]. *)
Theorem row_is_view (T : Type) (NDEBUG : bool) (A : array2 T) (ix : Z) :
  Z.of_nat (List.length (v T (base T A))) = nx T A * ny T A ->
  0 <= ny T A -> nx T A * ny T A <= INT_MAX -> nx T A <= INT_MAX ->
  0 <= ix < nx T A ->
  exists R,
    array2_row T NDEBUG A ix = Normal R
    /\ _size T R = ny T A
    /\ Deallocate T R = (R, [])
    /\ forall iy, 0 <= iy < ny T A ->
         exists x,
           array1_at T NDEBUG R iy = Normal x
           /\ array2_at2 T NDEBUG A ix iy = Normal x
           /\ nth_error (v T (base T A)) (Z.to_nat (ix * ny T A + iy)) = Some x.
Proof.
  intros Hlen Hny Hmax Hnx Hix.
  assert (Hint : forall z, 0 <= z <= INT_MAX -> wrap_int z = z).
  { intros z Hz. apply wrap_int_small. unfold INT_MIN, INT_MAX in *. lia. }
  assert (Huint : forall z, 0 <= z <= INT_MAX -> wrap_uint z = z).
  { intros z Hz. apply wrap_uint_small. unfold UINT_MOD, INT_MAX in *. lia. }
  assert (Hrow : 0 <= ix * ny T A <= INT_MAX) by nia.
  unfold array2_row.
  rewrite (Hint (nx T A)) by lia.
  rewrite check_in_range by exact Hix. simpl bind.
  rewrite (Huint (ix * ny T A)) by exact Hrow.
  eexists. split; [reflexivity|]. split; [reflexivity|].
  split; [reflexivity|].
  intros iy Hiy.
  assert (Hcell : 0 <= ix * ny T A + iy < nx T A * ny T A) by nia.
  destruct (nth_error (v T (base T A)) (Z.to_nat (ix * ny T A + iy)))
    as [x|] eqn:Ex.
  2:{ apply nth_error_None in Ex. lia. }
  exists x.
  assert (Hd : deref T (v T (base T A)) (ix * ny T A + iy) = Normal x).
  { unfold deref.
    destruct (ix * ny T A + iy <? 0) eqn:E; [apply Z.ltb_lt in E; lia|].
    rewrite Ex. reflexivity. }
  split; [|split; [|reflexivity]].
  - unfold array1_at, Dimension_at, clear. simpl _size. simpl v.
    assert (Hny' : ny T A <= INT_MAX) by nia.
    rewrite (Hint (ny T A)) by lia.
    rewrite check_in_range by exact Hiy. simpl bind.
    rewrite deref_skipn by lia. exact Hd.
  - unfold array2_at2.
    assert (Hny' : ny T A <= INT_MAX) by nia.
    rewrite (Hint (nx T A)), (Hint (ny T A)) by lia.
    rewrite !check_in_range by assumption. simpl bind.
    rewrite (Huint (ix * ny T A + iy)) by lia. exact Hd.
Qed.

Lemma row_is_view_witness :
  exists R,
    array2_row Z false
               (mk_array2 Z (mk_array1 Z [1; 2; 3; 4; 5; 6] 6 allocated) 2 3) 1
    = Normal R
    /\ exists x, array1_at Z false R 2 = Normal x
                 /\ nth_error [1; 2; 3; 4; 5; 6] 5 = Some x.
Proof.
  destruct (row_is_view Z false
              (mk_array2 Z (mk_array1 Z [1; 2; 3; 4; 5; 6] 6 allocated) 2 3) 1)
    as (R & Hrun & _ & _ & Hcell).
  - reflexivity.
  - simpl. lia.
  - vm_compute. discriminate.
  - vm_compute. discriminate.
  - simpl. lia.
  - exists R. split; [exact Hrun|].
    destruct (Hcell 2) as (x & H1 & _ & H3); [simpl; lia|].
    exists x. split; [exact H1 | exact H3].
Defined.

(** X21.  [operator /= (T a)] multiplies every element by [1/a], the
    quotient being formed first in the element type.  For an array of
    [int] that is not empty or owns its memory, and holds as many
    elements as its size says: dividing by [a] with [|a| >= 2] sets every
    element to 0, and dividing by 1 leaves every element as it was. *)
Theorem int_division_by_scalar (NDEBUG : bool) (A : array1 Z) (a : Z) :
  Z.of_nat (List.length (v Z A)) = _size Z A ->
  test Z A allocated <> 0 \/ _size Z A <> 0 ->
  (forall x, In x (v Z A) -> is_int x) ->
  is_int a ->
  (2 <= Z.abs a ->
   array1_div_scalar Z NDEBUG int_mul int_div 1 a A
   = (with_block Z A (map (fun _ => 0) (v Z A)), Normal tt))
  /\ (a = 1 ->
      array1_div_scalar Z NDEBUG int_mul int_div 1 a A = (A, Normal tt)).
Proof.
  intros Hlen Hcs Hel Ha.
  assert (Hrun : array1_div_scalar Z NDEBUG int_mul int_div 1 a A
                 = (with_block Z A (map (fun x => int_mul x (int_div 1 a)) (v Z A)),
                    Normal tt)).
  { unfold array1_div_scalar. rewrite array1_scalar_build by exact Hcs.
    apply array1_scalar_spec; assumption. }
  split.
  - intros Hbig. rewrite Hrun. f_equal. f_equal.
    assert (E : int_div 1 a = 0).
    { unfold int_div.
      assert (Eq : Z.quot 1 a = 0) by (apply Z.quot_small_iff; lia).
      rewrite Eq. reflexivity. }
    rewrite E. apply map_ext. intros x. unfold int_mul.
    rewrite Z.mul_0_r. reflexivity.
  - intros ->. rewrite Hrun.
    assert (E : map (fun x => int_mul x (int_div 1 1)) (v Z A) = v Z A).
    { rewrite <- (map_id (v Z A)) at 2. apply map_ext_in. intros x Hx.
      change (int_div 1 1) with 1. unfold int_mul. rewrite Z.mul_1_r.
      apply wrap_int_small. apply (Hel x Hx). }
    rewrite E. destruct A; reflexivity.
Qed.

Lemma int_division_by_scalar_witness :
  array1_div_scalar Z false int_mul int_div 1 2 (mk_array1 Z [4; 6; 8] 3 allocated)
  = (mk_array1 Z [0; 0; 0] 3 allocated, Normal tt).
Proof.
  destruct (int_division_by_scalar false (mk_array1 Z [4; 6; 8] 3 allocated) 2)
    as [H _].
  - reflexivity.
  - left. vm_compute. discriminate.
  - intros x Hx. simpl in Hx. unfold is_int, INT_MIN, INT_MAX.
    destruct Hx as [<-|[<-|[<-|[]]]]; lia.
  - unfold is_int, INT_MIN, INT_MAX. lia.
  - apply H. simpl. lia.
Defined.

End MemberExtras.

(** * RotationMap.cpp: what rounding changes *)

Module RoundingClaims.

Import FloatingPoint Agreement ExamplesFP.

(** At angle 0 in mesh coordinates nothing is rounded: for [float] and for
    [double], every order from 1 to 4 and every grid of up to 5 by 5
    cells, the map the constructor builds in floating point has the
    entries of the map of exact arithmetic, and [apply] in floating point,
    with the saturation pass for the orders 3 and 4, leaves the field
    0, 1, 2, ... as it is. *)
Lemma identity_exact_in_floating_point :
  forallb
    (fun F =>
       forallb
         (fun N =>
            forallb (fun g => identity_agrees F N (fst g) (snd g)) small_grids)
         [1; 2; 3; 4]%nat)
    [binary32; binary64]
  = true.
Proof. vm_compute. reflexivity. Qed.


(** C9 as stated fails in the arithmetic of the code.  In [double] the
    four coefficients of order 4 for the fractional distance 0.7, taken as
    exact numbers, sum to [1 - 3/2^57].  In [float], for the angle 0.5 on
    a 6 by 6 grid, the sixteen cells of the row of target (2,2) are all on
    the grid and its weights sum to [1 + 169/2^32]; on the field that
    holds 7 everywhere [apply] leaves [14680065/2^21] there, the float
    next above 7. *)
Lemma weights_not_one_in_floating_point :
  ((Spec.Qsum (map value
                   (RotationMapFP.interpol_coeffs binary64 4 seven_tenths))
    == 1 - (3 # 144115188075855872))%Q
   /\ ~ (Spec.Qsum (map value
                        (RotationMapFP.interpol_coeffs binary64 4 seven_tenths))
         == 1)%Q)
  /\ map RotationMapFP.index (nth 14 hm66_half [])
     = [1; 2; 3; 4; 7; 8; 9; 10; 13; 14; 15; 16; 19; 20; 21; 22]
  /\ ((Spec.Qsum (map (fun h => value (RotationMapFP.weight h))
                      (nth 14 hm66_half []))
       == 1 + (169 # 4294967296))%Q
      /\ ~ (Spec.Qsum (map (fun h => value (RotationMapFP.weight h))
                           (nth 14 hm66_half []))
            == 1)%Q)
  /\ ((value (nth 14 (RotationMapFP.apply binary32 4 false
                        (S754_zero false) (S754_zero false) hm66_half 16 36
                        sevens36 (repeat (S754_zero false) 36))
                     (S754_zero false))
       == 14680065 # 2097152)%Q
      /\ ~ (value (nth 14 (RotationMapFP.apply binary32 4 false
                             (S754_zero false) (S754_zero false) hm66_half 16 36
                             sevens36 (repeat (S754_zero false) 36))
                          (S754_zero false))
            == 7)%Q).
Proof.
  split; [split; [vm_compute; reflexivity
                 | intros H; vm_compute in H; discriminate]|].
  split; [vm_compute; reflexivity|].
  split; (split; [vm_compute; reflexivity
                 | intros H; vm_compute in H; discriminate]).
Qed.

End RoundingClaims.
